(** * col-parser: the COL blog-format parser of [src/js/col-parser.js]

    A shallow embedding of the [ColParser] class: JavaScript strings are
    sequences of UTF-16 code units, the regular expressions of the class are
    values of a small regex syntax run by a backtracking matcher that
    follows the ECMAScript matching rules, and the methods of the class are
    functions over these. *)

From Stdlib Require Import Ascii String.
From Stdlib Require Import List NArith ZArith Arith Bool Lia.
Import ListNotations.

Set Implicit Arguments.
Local Open Scope list_scope.

(** ** Strings *)

(** A JavaScript string is a sequence of UTF-16 code units. *)
Definition char := N.
Definition jstring := list char.

Definition ch (a : ascii) : char := N_of_ascii a.
Arguments ch a%_char.

(** String literals.  Inside a literal, [\n] stands for the line feed,
    [\q] for the double quote character and [\\] for the backslash. *)
Fixpoint lit (s : string) : jstring :=
  match s with
  | EmptyString => []
  | String "\" (String "n" t) => 10%N :: lit t
  | String "\" (String "q" t) => 34%N :: lit t
  | String "\" (String "\" t) => 92%N :: lit t
  | String a t => N_of_ascii a :: lit t
  end.

Arguments lit s%_string.

Fixpoint jstring_eqb (a b : jstring) : bool :=
  match a, b with
  | [], [] => true
  | x :: a', y :: b' => N.eqb x y && jstring_eqb a' b'
  | _, _ => false
  end.

(** WhiteSpace and LineTerminator code units: what [String.prototype.trim]
    removes and what the class escape [\s] matches. *)
Definition is_space (c : char) : bool :=
  ((9 <=? c) && (c <=? 13) || (c =? 32) || (c =? 160) || (c =? 5760)
   || (8192 <=? c) && (c <=? 8202) || (c =? 8232) || (c =? 8233)
   || (c =? 8239) || (c =? 8287) || (c =? 12288) || (c =? 65279))%N.

Definition is_line_terminator (c : char) : bool :=
  ((c =? 10) || (c =? 13) || (c =? 8232) || (c =? 8233))%N.

Definition is_digit (c : char) : bool := ((48 <=? c) && (c <=? 57))%N.

Definition is_word (c : char) : bool :=
  ((97 <=? c) && (c <=? 122) || (65 <=? c) && (c <=? 90)
   || (48 <=? c) && (c <=? 57) || (c =? 95))%N.

Fixpoint trimStart (s : jstring) : jstring :=
  match s with
  | c :: t => if is_space c then trimStart t else s
  | [] => []
  end.

Definition trimEnd (s : jstring) : jstring := rev (trimStart (rev s)).

(** [s.trim()] *)
Definition trim (s : jstring) : jstring := trimEnd (trimStart s).

(** [s.split(sep)] for a separator of one code unit (every string
    separator of the class is one: the line feed, the comma, the T of an
    ISO date). *)
Fixpoint split_char (sep : char) (s : jstring) : list jstring :=
  match s with
  | [] => [[]]
  | c :: t =>
      if (c =? sep)%N then [] :: split_char sep t
      else match split_char sep t with
           | l :: ls => (c :: l) :: ls
           | [] => [[c]]
           end
  end.

Arguments split_char sep%_N s.

(** [lines.join(sep)] *)
Fixpoint join (sep : jstring) (l : list jstring) : jstring :=
  match l with
  | [] => []
  | [x] => x
  | x :: t => x ++ sep ++ join sep t
  end.

(** [s.indexOf(c)] for a one-unit needle; [None] stands for [-1]. *)
Fixpoint indexOf (c : char) (s : jstring) : option nat :=
  match s with
  | [] => None
  | x :: t => if (x =? c)%N then Some 0
              else match indexOf c t with
                   | Some i => Some (S i)
                   | None => None
                   end
  end.

(** [s.startsWith(p)] *)
Fixpoint startsWith (p s : jstring) : bool :=
  match p, s with
  | [], _ => true
  | x :: p', y :: s' => (x =? y)%N && startsWith p' s'
  | _ :: _, [] => false
  end.

(** [s.toLowerCase()].  Besides the ASCII letters, two code units have a
    lower case that contains an ASCII letter: the Kelvin sign and the
    dotted capital I.  Every other code unit outside ASCII is left as it
    is; its lower case is outside ASCII as well, and the only use of the
    result ([parseHeadings]) replaces every such unit by a hyphen. *)
Definition toLowerCase (s : jstring) : jstring :=
  flat_map (fun c : char =>
    if ((65 <=? c) && (c <=? 90))%N then [(c + 32)%N]
    else if (c =? 8490)%N then [107%N]
    else if (c =? 304)%N then [105%N; 775%N]
    else [c]) s.

(** ** Regular expressions *)

Inductive citem : Type :=
| CChar (c : char)
| CRange (lo hi : char)
| CSpace
| CNotSpace
| CDigit
| CWord.

Inductive regex : Type :=
| REmpty
| RChar (c : char)
| RDot
| RSet (neg : bool) (items : list citem)
| RSeq (r1 r2 : regex)
| RAlt (r1 r2 : regex)
| RRep (r : regex) (min : nat) (max : option nat) (greedy : bool)
| RGroup (n : nat) (r : regex)
| RBol
| REol
| RWordB
| RNegLook (r : regex).

Arguments RChar c%_N.
Arguments CChar c%_N.
Arguments CRange (lo hi)%_N.

Record flags : Type := Flags { ignoreCase : bool; multiline : bool }.

(** A RegExp object: the literal as the class writes it (with [\q] for
    the double quote), its pattern, the [g] flag, the [i] and [m] flags. *)
Record RegExp : Type := MkRegExp {
  js : string;
  source : regex;
  global : bool;
  reflags : flags
}.
Arguments MkRegExp js%_string source global reflags.

(** Canonicalize of the ECMAScript matcher without the [u] flag.  Under
    [i] a code unit is compared by its upper case, and a unit outside ASCII
    never canonicalizes to an ASCII one; every literal and class member of
    the patterns below is ASCII, so only the ASCII letters are folded. *)
Definition canon (fl : flags) (c : char) : char :=
  if ignoreCase fl && ((97 <=? c) && (c <=? 122))%N then (c - 32)%N else c.

Definition in_item (fl : flags) (x : char) (i : citem) : bool :=
  match i with
  | CChar c => (canon fl x =? canon fl c)%N
  | CRange lo hi =>
      ((lo <=? x) && (x <=? hi))%N
      || (ignoreCase fl &&
          (((lo <=? canon fl x) && (canon fl x <=? hi))%N
           || ((65 <=? x) && (x <=? 90) && (lo <=? x + 32) && (x + 32 <=? hi))%N))
  | CSpace => is_space x
  | CNotSpace => negb (is_space x)
  | CDigit => is_digit x
  | CWord => is_word x
  end.

Definition in_items (fl : flags) (items : list citem) (x : char) : bool :=
  existsb (in_item fl x) items.

(** The state of a match: the input before the current position (in
    reverse), the input from the current position on, and the captures. *)
Record mstate : Type := MState {
  pre : jstring;
  rest : jstring;
  caps : list (nat * jstring)
}.

Definition cont := mstate -> option mstate.
Definition matcher := mstate -> cont -> option mstate.

Definition step_char (p : char -> bool) : matcher := fun st k =>
  match rest st with
  | c :: t => if p c then k (MState (c :: pre st) t (caps st)) else None
  | [] => None
  end.

(** The text consumed between two states of one match. *)
Definition consumed (st st' : mstate) : jstring :=
  firstn (length (rest st) - length (rest st')) (rest st).

Definition set_cap (n : nat) (s : jstring) (st : mstate) : mstate :=
  MState (pre st) (rest st) ((n, s) :: caps st).

(** RepeatMatcher: an iteration that consumes nothing once the minimum is
    reached fails; greedy tries the body first, lazy the continuation.
    (The matcher resets the captures of the body at each iteration; no
    pattern of the class has a group under a quantifier.)  Each turn either
    lowers [min] or moves forward in the input, so [min] plus the length of
    the input left, plus one, is fuel enough. *)
Fixpoint rep_loop (m : matcher) (greedy : bool) (fuel min : nat)
    (max : option nat) (st : mstate) (k : cont) : option mstate :=
  match fuel with
  | O => None
  | S fuel' =>
      match max with
      | Some O => k st
      | _ =>
          let d := fun y : mstate =>
            if (min =? 0) && (length (rest y) =? length (rest st)) then None
            else rep_loop m greedy fuel' (Nat.pred min) (option_map Nat.pred max) y k in
          if negb (min =? 0) then m st d
          else if greedy then
            match m st d with Some z => Some z | None => k st end
          else
            match k st with Some z => Some z | None => m st d end
      end
  end.

Definition at_line_start (fl : flags) (st : mstate) : bool :=
  match pre st with
  | [] => true
  | c :: _ => multiline fl && is_line_terminator c
  end.

Definition at_line_end (fl : flags) (st : mstate) : bool :=
  match rest st with
  | [] => true
  | c :: _ => multiline fl && is_line_terminator c
  end.

Definition at_word_boundary (st : mstate) : bool :=
  xorb (match pre st with c :: _ => is_word c | [] => false end)
       (match rest st with c :: _ => is_word c | [] => false end).

Fixpoint rmatch (fl : flags) (r : regex) : matcher :=
  match r with
  | REmpty => fun st k => k st
  | RChar c => step_char (fun x => (canon fl x =? canon fl c)%N)
  | RDot => step_char (fun x => negb (is_line_terminator x))
  | RSet neg items => step_char (fun x => xorb neg (in_items fl items x))
  | RSeq r1 r2 => fun st k => rmatch fl r1 st (fun st' => rmatch fl r2 st' k)
  | RAlt r1 r2 => fun st k =>
      match rmatch fl r1 st k with
      | Some z => Some z
      | None => rmatch fl r2 st k
      end
  | RRep r' min max greedy => fun st k =>
      rep_loop (rmatch fl r') greedy (S (min + length (rest st))) min max st k
  | RGroup n r' => fun st k =>
      rmatch fl r' st (fun st' => k (set_cap n (consumed st st') st'))
  | RBol => fun st k => if at_line_start fl st then k st else None
  | REol => fun st k => if at_line_end fl st then k st else None
  | RWordB => fun st k => if at_word_boundary st then k st else None
  | RNegLook r' => fun st k =>
      match rmatch fl r' st Some with
      | Some _ => None
      | None => k st
      end
  end.

(** One attempt of the pattern at the position between [before] (in
    reverse) and [after]. *)
Definition match_at (p : RegExp) (before after : jstring) : option mstate :=
  rmatch (reflags p) (source p) (MState before after []) Some.

(** What a successful match gives to its caller: the matched text, its
    index and the captures. *)
Record MatchResult : Type := MkMatch {
  m_text : jstring;
  m_index : nat;
  m_groups : list (nat * jstring)
}.

Fixpoint lookup_cap (n : nat) (l : list (nat * jstring)) : option jstring :=
  match l with
  | [] => None
  | (i, s) :: t => if i =? n then Some s else lookup_cap n t
  end.

(** [match[n]].  No group of the patterns below sits under an alternative
    or an optional quantifier, so every group takes part in every match
    and the default is never read. *)
Definition group (m : MatchResult) (n : nat) : jstring :=
  match lookup_cap n (m_groups m) with
  | Some s => s
  | None => []
  end.

Definition result_of (before after : jstring) (st' : mstate) : MatchResult :=
  MkMatch (firstn (length after - length (rest st')) after)
          (length before) (caps st').

Definition match_len (after : jstring) (st' : mstate) : nat :=
  length after - length (rest st').

(** RegExpBuiltinExec searching forward: the pattern is tried at the
    current index, then at the next one, up to and including the end. *)
Fixpoint exec_scan (p : RegExp) (before after : jstring) : option MatchResult :=
  match match_at p before after with
  | Some st' => Some (result_of before after st')
  | None =>
      match after with
      | [] => None
      | c :: t => exec_scan p (c :: before) t
      end
  end.

(** [s.match(p)] for a pattern without the [g] flag. *)
Definition match_first (p : RegExp) (s : jstring) : option MatchResult :=
  exec_scan p [] s.

(** The successive matches of a global pattern from an index on: after a
    match the search resumes where the match ended, one unit further when
    the match was empty.  [skip] counts the units still to pass before the
    next attempt. *)
Fixpoint collect_scan (p : RegExp) (skip : nat) (before after : jstring)
  : list MatchResult :=
  match skip with
  | S n =>
      match after with
      | c :: t => collect_scan p n (c :: before) t
      | [] => []
      end
  | O =>
      match match_at p before after with
      | Some st' =>
          result_of before after st' ::
          match after with
          | [] => []
          | c :: t => collect_scan p (Nat.pred (match_len after st')) (c :: before) t
          end
      | None =>
          match after with
          | c :: t => collect_scan p 0 (c :: before) t
          | [] => []
          end
      end
  end.

(** [s.replace(p, f)] for a global pattern: the text between the matches
    is kept and each match is replaced by what [f] returns for it. *)
Fixpoint replace_scan (p : RegExp) (f : MatchResult -> jstring) (skip : nat)
    (before after : jstring) : jstring :=
  match skip with
  | S n =>
      match after with
      | c :: t => replace_scan p f n (c :: before) t
      | [] => []
      end
  | O =>
      match match_at p before after with
      | Some st' =>
          f (result_of before after st') ++
          match after with
          | [] => []
          | c :: t =>
              if match_len after st' =? 0
              then c :: replace_scan p f 0 (c :: before) t
              else replace_scan p f (match_len after st' - 1) (c :: before) t
          end
      | None =>
          match after with
          | c :: t => c :: replace_scan p f 0 (c :: before) t
          | [] => []
          end
      end
  end.

Definition replace_all (p : RegExp) (f : MatchResult -> jstring) (s : jstring)
  : jstring :=
  replace_scan p f 0 [] s.

(** [s.split(p)] for a pattern without groups: SplitMatcher is tried at
    each index short of the end; [cur] is the piece being read, in
    reverse. *)
Fixpoint split_scan (p : RegExp) (skip : nat) (cur before after : jstring)
  : list jstring :=
  match after with
  | [] => [rev cur]
  | c :: t =>
      match skip with
      | S n => split_scan p n cur (c :: before) t
      | O =>
          match match_at p before after with
          | None => split_scan p 0 (c :: cur) (c :: before) t
          | Some st' =>
              if match_len after st' =? 0 then
                match cur with
                | [] => split_scan p 0 [c] (c :: before) t
                | _ => rev cur :: split_scan p 0 [c] (c :: before) t
                end
              else rev cur :: split_scan p (match_len after st' - 1) [] (c :: before) t
          end
      end
  end.

Definition split_re (p : RegExp) (s : jstring) : list jstring :=
  match s with
  | [] => match match_at p [] [] with Some _ => [] | None => [[]] end
  | _ => split_scan p 0 [] [] s
  end.

(** *** Writing patterns *)

Definition no_flags : flags := Flags false false.

Fixpoint rseq (l : list regex) : regex :=
  match l with
  | [] => REmpty
  | [r] => r
  | r :: t => RSeq r (rseq t)
  end.

Definition rlit (s : string) : regex := rseq (map RChar (lit s)).
Arguments rlit s%_string.
Definition rchar (a : ascii) : regex := RChar (ch a).
Arguments rchar a%_char.
Definition star (r : regex) : regex := RRep r 0 None true.
Definition plus (r : regex) : regex := RRep r 1 None true.
Definition lazy_star (r : regex) : regex := RRep r 0 None false.
Definition rspace : regex := RSet false [CSpace].
Definition rdigit : regex := RSet false [CDigit].
Definition rword : regex := RSet false [CWord].
Definition rany : regex := RSet false [CSpace; CNotSpace].
Definition one_of (s : string) : regex := RSet false (map CChar (lit s)).
Definition none_of (s : string) : regex := RSet true (map CChar (lit s)).
Arguments one_of s%_string.
Arguments none_of s%_string.
Definition opt (r : regex) : regex := RRep r 0 (Some 1) true.

Fixpoint ralt (l : list regex) : regex :=
  match l with
  | [] => REmpty
  | [r] => r
  | r :: t => RAlt r (ralt t)
  end.

(** ** JavaScript values, objects and completions *)

(** The values a method of the class can be given or can store in a
    result.  [VObj] stands for any other object. *)
Inductive value : Type :=
| VUndefined
| VNull
| VBool (b : bool)
| VNum (n : Z)
| VStr (s : jstring)
| VArr (items : list jstring)
| VObj.

(** ToBoolean *)
Definition truthy (v : value) : bool :=
  match v with
  | VUndefined | VNull => false
  | VBool b => b
  | VNum n => negb (n =? 0)%Z
  | VStr s => match s with [] => false | _ => true end
  | VArr _ | VObj => true
  end.

(** [typeof v === 'string'] *)
Definition is_string (v : value) : bool :=
  match v with VStr _ => true | _ => false end.

Definition str_of (v : value) : jstring :=
  match v with VStr s => s | _ => [] end.

(** An object as the list of its own properties, in creation order.
    (JavaScript lists the keys that are array indices first, in ascending
    order; the list here keeps them where they were created.  No statement
    below depends on the order of the keys.) *)
Definition object (V : Type) := list (jstring * V).

(** [o.k] for a key that [Object.prototype] does not define. *)
Fixpoint obj_get {V : Type} (o : object V) (k : jstring) : option V :=
  match o with
  | [] => None
  | (k', v) :: t => if jstring_eqb k' k then Some v else obj_get t k
  end.

(** CreateDataProperty: an existing key keeps its place and takes the new
    value, a new key goes last. *)
Fixpoint obj_define {V : Type} (o : object V) (k : jstring) (v : V) : object V :=
  match o with
  | [] => [(k, v)]
  | (k', v') :: t =>
      if jstring_eqb k' k then (k', v) :: t else (k', v') :: obj_define t k v
  end.

(** [o[k] = v] on an ordinary object for a string [v]: the key [__proto__]
    reaches the setter of [Object.prototype], which ignores a value that is
    not an object. *)
Definition obj_assign (o : object jstring) (k : jstring) (v : jstring)
  : object jstring :=
  if jstring_eqb k (lit "__proto__") then o else obj_define o k v.

(** [{...target, ...src}]: the own properties of [src] are defined on
    [target] in order. *)
Definition obj_spread {V W : Type} (inj : W -> V) (target : object V)
    (src : object W) : object V :=
  fold_left (fun o kv => obj_define o (fst kv) (inj (snd kv))) src target.

(** An [Error] object: [new Error(message)].  The values of other kinds
    that a [throw] can take are in [thrown] below. *)
Record JsError : Type := MkError { message : jstring }.

Inductive completion (A : Type) : Type :=
| Normal (a : A)
| Throw (e : JsError).
Arguments Normal {A} a.
Arguments Throw {A} e.

(** ** The parser instance *)

(** The keys of [this.patterns]. *)
Inductive pattern_name : Type :=
| p_metadata | p_preview | p_heading | p_bold | p_italic | p_code
| p_codeBlock | p_link | p_image | p_unorderedList | p_orderedList
| p_blockquote | p_horizontalRule | p_lineBreak | p_paragraph.

Definition pattern_name_eqb (a b : pattern_name) : bool :=
  match a, b with
  | p_metadata, p_metadata | p_preview, p_preview | p_heading, p_heading
  | p_bold, p_bold | p_italic, p_italic | p_code, p_code
  | p_codeBlock, p_codeBlock | p_link, p_link | p_image, p_image
  | p_unorderedList, p_unorderedList | p_orderedList, p_orderedList
  | p_blockquote, p_blockquote | p_horizontalRule, p_horizontalRule
  | p_lineBreak, p_lineBreak | p_paragraph, p_paragraph => true
  | _, _ => false
  end.

Definition flags_m : flags := Flags false true.
Definition flags_i : flags := Flags true false.

(** The pattern table of the constructor. *)
Definition pattern (n : pattern_name) : RegExp :=
  match n with
  | p_metadata =>
      MkRegExp "/^---\s*\n([\s\S]*?)\n---\s*\n/"
               (rseq [RBol; rlit "---"; star rspace; rlit "\n";
                      RGroup 1 (lazy_star rany);
                      rlit "\n"; rlit "---"; star rspace; rlit "\n"])
               false no_flags
  | p_preview =>
      MkRegExp "/<preview>([\s\S]*?)<\/preview>/g"
               (rseq [rlit "<preview>"; RGroup 1 (lazy_star rany);
                      rlit "</preview>"])
               true no_flags
  | p_heading =>
      MkRegExp "/^(#{1,6})\s+(.+)$/gm"
               (rseq [RBol; RGroup 1 (RRep (rchar "#") 1 (Some 6) true);
                      plus rspace; RGroup 2 (plus RDot); REol])
               true flags_m
  | p_bold =>
      MkRegExp "/\*\*(.*?)\*\*/g"
               (rseq [rlit "**"; RGroup 1 (lazy_star RDot); rlit "**"])
               true no_flags
  | p_italic =>
      MkRegExp "/\*(.*?)\*/g"
               (rseq [rlit "*"; RGroup 1 (lazy_star RDot); rlit "*"])
               true no_flags
  | p_code =>
      MkRegExp "/`([^`]+)`/g"
               (rseq [rlit "`"; RGroup 1 (plus (none_of "`")); rlit "`"])
               true no_flags
  | p_codeBlock =>
      MkRegExp "/```(\w*)\n([\s\S]*?)```/g"
               (rseq [rlit "```"; RGroup 1 (star rword); rlit "\n";
                      RGroup 2 (lazy_star rany); rlit "```"])
               true no_flags
  | p_link =>
      MkRegExp "/\[([^\]]+)\]\(([^)]+)\)/g"
               (rseq [rlit "["; RGroup 1 (plus (none_of "]")); rlit "]";
                      rlit "("; RGroup 2 (plus (none_of ")")); rlit ")"])
               true no_flags
  | p_image =>
      MkRegExp "/!\[([^\]]*)\]\(([^)]+)\)/g"
               (rseq [rlit "!["; RGroup 1 (star (none_of "]")); rlit "]";
                      rlit "("; RGroup 2 (plus (none_of ")")); rlit ")"])
               true no_flags
  | p_unorderedList =>
      MkRegExp "/^[\s]*[-*+]\s+(.+)$/gm"
               (rseq [RBol; star rspace; one_of "-*+"; plus rspace;
                      RGroup 1 (plus RDot); REol])
               true flags_m
  | p_orderedList =>
      MkRegExp "/^[\s]*\d+\.\s+(.+)$/gm"
               (rseq [RBol; star rspace; plus rdigit; rlit "."; plus rspace;
                      RGroup 1 (plus RDot); REol])
               true flags_m
  | p_blockquote =>
      MkRegExp "/^>\s+(.+)$/gm"
               (rseq [RBol; rlit ">"; plus rspace; RGroup 1 (plus RDot); REol])
               true flags_m
  | p_horizontalRule =>
      MkRegExp "/^---$/gm"
               (rseq [RBol; rlit "---"; REol]) true flags_m
  | p_lineBreak =>
      MkRegExp "/\n\n+/g"
               (rseq [rlit "\n"; plus (rlit "\n")]) true no_flags
  | p_paragraph =>
      MkRegExp "/^(?!<[^>]+>|#{1,6}\s|[-*+]\s|\d+\.\s|>\s|```)(.+)$/gm"
               (rseq [RBol;
                      RNegLook (ralt [
                        rseq [rlit "<"; plus (none_of ">"); rlit ">"];
                        rseq [RRep (rchar "#") 1 (Some 6) true; rspace];
                        rseq [one_of "-*+"; rspace];
                        rseq [plus rdigit; rlit "."; rspace];
                        rseq [rlit ">"; rspace];
                        rlit "```"]);
                      RGroup 1 (plus RDot); REol])
               true flags_m
  end.

(** [this.htmlEntities] *)
Definition htmlEntities : object jstring :=
  [ (lit "&", lit "&amp;");
    (lit "<", lit "&lt;");
    (lit ">", lit "&gt;");
    (lit "\q", lit "&quot;");
    (lit "'", lit "&#39;") ].

(** No method assigns to [this.patterns], [this.htmlEntities] or
    [this.allowedTags]; what a call can change in an instance is the
    [lastIndex] slot of the RegExp objects of the pattern table. *)
Record ColParser : Type := MkColParser {
  lastIndex : pattern_name -> nat
}.

(** [new ColParser()]: a RegExp literal starts with [lastIndex] 0. *)
Definition new_ColParser : ColParser := MkColParser (fun _ => 0).

Definition set_lastIndex (n : pattern_name) (i : nat) (this : ColParser)
  : ColParser :=
  MkColParser (fun q => if pattern_name_eqb q n then i else lastIndex this q).

(** A method call: it runs on an instance, completes normally or throws,
    and leaves the instance in a new state. *)
Definition M (A : Type) : Type := ColParser -> completion A * ColParser.

Definition ret {A : Type} (a : A) : M A := fun this => (Normal a, this).

Definition bind {A B : Type} (c : M A) (f : A -> M B) : M B := fun this =>
  match c this with
  | (Normal a, this') => f a this'
  | (Throw e, this') => (Throw e, this')
  end.

Definition throw {A : Type} (e : JsError) : M A := fun this => (Throw e, this).

(** [try { c } catch (error) { h error }] *)
Definition try_catch {A : Type} (c : M A) (h : JsError -> M A) : M A :=
  fun this =>
    match c this with
    | (Normal a, this') => (Normal a, this')
    | (Throw e, this') => h e this'
    end.

Declare Scope js_scope.
Delimit Scope js_scope with js.
Notation "x <- c ;; k" := (bind c (fun x => k))
  (at level 61, c at next level, right associativity) : js_scope.
Notation "' pat <- c ;; k" := (bind c (fun x => match x with pat => k end))
  (at level 61, pat pattern, c at next level, right associativity) : js_scope.
Local Open Scope js_scope.

(** [s.replace(this.patterns.n, f)] for a global pattern of the table:
    the replace starts by setting [lastIndex] to 0 and the failing last
    search leaves it at 0. *)
Definition replace_pattern (n : pattern_name) (f : MatchResult -> jstring)
    (s : jstring) : M jstring :=
  fun this => (Normal (replace_all (pattern n) f s), set_lastIndex n 0 this).

(** [[...s.matchAll(this.patterns.n)]]: the iterator works on a copy of
    the RegExp object that starts at the [lastIndex] of the original. *)
Definition matchAll_pattern (n : pattern_name) (s : jstring)
  : M (list MatchResult) :=
  fun this => (Normal (collect_scan (pattern n) (lastIndex this n) [] s), this).

(** [s.match(this.patterns.n)] for a pattern without [g]: the search
    starts at index 0 whatever [lastIndex] holds, and does not write it. *)
Definition match_pattern (n : pattern_name) (s : jstring) : option MatchResult :=
  match_first (pattern n) s.

(** ** The methods of the class *)

(** A string is truthy when it is not empty. *)
Definition nonempty (s : jstring) : bool :=
  match s with [] => false | _ => true end.

Definition html_special : RegExp :=
  MkRegExp "/[&<>\q']/g" (one_of "&<>\q'") true no_flags.

(** The replacement function of [escapeHtml]:
    [match => this.htmlEntities[match] || match]. *)
Definition entity_or_self (m : MatchResult) : jstring :=
  match obj_get htmlEntities (m_text m) with
  | Some e => if nonempty e then e else m_text m
  | None => m_text m
  end.

(** [escapeHtml(text)] *)
Definition escapeHtml (text : value) : jstring :=
  if negb (truthy text) || negb (is_string text) then []
  else replace_all html_special entity_or_self (str_of text).

Definition script_element : RegExp :=
  MkRegExp "/<script\b[^<]*(?:(?!<\/script>)<[^<]*)*<\/script>/gi"
           (rseq [rlit "<script"; RWordB; star (none_of "<");
                  star (rseq [RNegLook (rlit "</script>"); rlit "<";
                              star (none_of "<")]);
                  rlit "</script>"])
           true flags_i.

Definition handler_attribute : RegExp :=
  MkRegExp "/\son\w+\s*=\s*[\q'][^\q']*[\q']/gi"
           (rseq [rspace; rlit "on"; plus rword; star rspace; rlit "=";
                  star rspace; one_of "\q'"; star (none_of "\q'");
                  one_of "\q'"])
           true flags_i.

Definition javascript_uri : RegExp :=
  MkRegExp "/javascript:/gi" (rlit "javascript:") true flags_i.

Definition removed : MatchResult -> jstring := fun _ => [].

(** [sanitizeHtml(html)] *)
Definition sanitizeHtml (html : value) : jstring :=
  if negb (truthy html) || negb (is_string html) then []
  else
    let html := str_of html in
    let html := replace_all script_element removed html in
    let html := replace_all handler_attribute removed html in
    let html := replace_all javascript_uri removed html in
    html.

Definition outer_quotes : RegExp :=
  MkRegExp "/^[\q']|[\q']$/g"
           (RAlt (rseq [RBol; one_of "\q'"]) (rseq [one_of "\q'"; REol]))
           true no_flags.

(** The body of the loop of [parseMetadata] over the lines of the front
    matter. *)
Definition metadata_line (metadata : object jstring) (line : jstring)
  : object jstring :=
  let trimmed := trim line in
  if negb (nonempty trimmed) then metadata
  else
    match indexOf (ch ":") trimmed with
    | None => metadata
    | Some colonIndex =>
        let key := trim (firstn colonIndex trimmed) in
        let value := trim (skipn (colonIndex + 1) trimmed) in
        if nonempty key && nonempty value
        then obj_assign metadata key (replace_all outer_quotes removed value)
        else metadata
    end.

(** [parseMetadata(content)] *)
Definition parseMetadata (content : jstring) : object jstring * jstring :=
  match match_pattern p_metadata content with
  | None => ([], trim content)
  | Some m =>
      let metadataStr := group m 1 in
      let remainingContent := trim (skipn (length (m_text m)) content) in
      let lines := split_char (ch "010") metadataStr in
      (fold_left metadata_line lines [], remainingContent)
  end.

(** [extractPreview(content)] *)
Definition extractPreview (content : jstring) : M (jstring * jstring) :=
  matches <- matchAll_pattern p_preview content ;;
  let preview :=
    match matches with
    | m :: _ => trim (group m 1)
    | [] => []
    end in
  cleanContent <- replace_pattern p_preview removed content ;;
  ret (preview, cleanContent).

(** The decimal digits of a number, as [String(n)] gives them. *)
Fixpoint dec_fuel (fuel n : nat) (acc : jstring) : jstring :=
  match fuel with
  | O => acc
  | S f =>
      let acc' := (48 + N.of_nat (n mod 10))%N :: acc in
      if n / 10 =? 0 then acc' else dec_fuel f (n / 10) acc'
  end.

Definition dec (n : nat) : jstring := dec_fuel (S n) n [].

Definition not_alnum_run : RegExp :=
  MkRegExp "/[^a-z0-9]+/g"
           (plus (RSet true [CRange (ch "a") (ch "z"); CRange (ch "0") (ch "9")]))
           true no_flags.

Definition outer_hyphen : RegExp :=
  MkRegExp "/^-|-$/g" (RAlt (rseq [RBol; rlit "-"]) (rseq [rlit "-"; REol]))
           true no_flags.

(** [parseHeadings(content)] *)
Definition parseHeadings (content : jstring) : M jstring :=
  replace_pattern p_heading (fun m =>
    let hashes := group m 1 in
    let text := group m 2 in
    let level := length hashes in
    let id := replace_all outer_hyphen removed
                (replace_all not_alnum_run (fun _ => lit "-") (toLowerCase text)) in
    lit "<h" ++ dec level ++ lit " id=\q" ++ id ++ lit "\q class=\qblog-heading\q>"
      ++ trim text ++ lit "</h" ++ dec level ++ lit ">") content.

Definition strong_open : RegExp :=
  MkRegExp "/<strong[^>]*>/g" (rseq [rlit "<strong"; star (none_of ">"); rlit ">"])
           true no_flags.

Definition strong_close : RegExp :=
  MkRegExp "/<\/strong>/g" (rlit "</strong>") true no_flags.

(** [(s.match(p) || []).length] for a global pattern *)
Definition count_matches (p : RegExp) (s : jstring) : nat :=
  length (collect_scan p 0 [] s).

(** [parseFormatting(content)] *)
Definition parseFormatting (content : jstring) : M jstring :=
  content <- replace_pattern p_bold (fun m =>
    lit "<strong class=\qblog-bold\q>" ++ group m 1 ++ lit "</strong>") content ;;
  let string := content in
  content <- replace_pattern p_italic (fun m =>
    let text := group m 1 in
    let offset := m_index m in
    let before := firstn offset string in
    let openBold := count_matches strong_open before in
    let closeBold := count_matches strong_close before in
    if closeBold <? openBold
    then lit "<em class=\qblog-italic\q>" ++ text ++ lit "</em>"
    else lit "<em class=\qblog-italic\q>" ++ text ++ lit "</em>") content ;;
  ret content.

(** [parseCode(content)] *)
Definition parseCode (content : jstring) : M jstring :=
  content <- replace_pattern p_codeBlock (fun m =>
    let language := group m 1 in
    let code := group m 2 in
    let escapedCode := escapeHtml (VStr (trim code)) in
    let langClass := if nonempty language then lit " language-" ++ language else [] in
    lit "<pre class=\qblog-code-block\q><code class=\qblog-code" ++ langClass
      ++ lit "\q>" ++ escapedCode ++ lit "</code></pre>") content ;;
  content <- replace_pattern p_code (fun m =>
    let code := group m 1 in
    let escapedCode := escapeHtml (VStr code) in
    lit "<code class=\qblog-inline-code\q>" ++ escapedCode ++ lit "</code>") content ;;
  ret content.

(** [parseLinksAndImages(content)] *)
Definition parseLinksAndImages (content : jstring) : M jstring :=
  content <- replace_pattern p_image (fun m =>
    let alt := group m 1 in
    let src := group m 2 in
    let escapedAlt := escapeHtml (VStr alt) in
    let escapedSrc := escapeHtml (VStr src) in
    lit "<img src=\q" ++ escapedSrc ++ lit "\q alt=\q" ++ escapedAlt
      ++ lit "\q class=\qblog-image\q loading=\qlazy\q>") content ;;
  content <- replace_pattern p_link (fun m =>
    let text := group m 1 in
    let url := group m 2 in
    let escapedText := escapeHtml (VStr text) in
    let escapedUrl := escapeHtml (VStr url) in
    let target := if startsWith (lit "http") url
                  then lit " target=\q_blank\q rel=\qnoopener noreferrer\q" else [] in
    lit "<a href=\q" ++ escapedUrl ++ lit "\q class=\qblog-link\q" ++ target
      ++ lit ">" ++ escapedText ++ lit "</a>") content ;;
  ret content.

Definition unordered_item : RegExp :=
  MkRegExp "/^[\s]*[-*+]\s+(.+)$/"
           (rseq [RBol; star rspace; one_of "-*+"; plus rspace;
                  RGroup 1 (plus RDot); REol])
           false no_flags.

Definition ordered_item : RegExp :=
  MkRegExp "/^[\s]*\d+\.\s+(.+)$/"
           (rseq [RBol; star rspace; plus rdigit; rlit "."; plus rspace;
                  RGroup 1 (plus RDot); REol])
           false no_flags.

(** The variables of the loop of [parseLists]. *)
Record list_state : Type := ListState {
  result : list jstring;
  inUnorderedList : bool;
  inOrderedList : bool
}.

Definition push (st : list_state) (line : jstring) : list_state :=
  ListState (result st ++ [line]) (inUnorderedList st) (inOrderedList st).

Definition list_item (text : jstring) : jstring :=
  lit "<li class=\qblog-list-item\q>" ++ text ++ lit "</li>".

Definition ul_open : jstring := lit "<ul class=\qblog-list\q>".
Definition ol_open : jstring := lit "<ol class=\qblog-list blog-ordered-list\q>".
Definition ul_close : jstring := lit "</ul>".
Definition ol_close : jstring := lit "</ol>".

(** One turn of the loop of [parseLists]. *)
Definition list_step (st : list_state) (line : jstring) : list_state :=
  let unorderedMatch := match_first unordered_item line in
  let orderedMatch := match_first ordered_item line in
  match unorderedMatch with
  | Some um =>
      let st :=
        if negb (inUnorderedList st) then
          let st :=
            if inOrderedList st
            then ListState (result st ++ [ol_close]) (inUnorderedList st) false
            else st in
          ListState (result st ++ [ul_open]) true (inOrderedList st)
        else st in
      push st (list_item (group um 1))
  | None =>
      match orderedMatch with
      | Some om =>
          let st :=
            if negb (inOrderedList st) then
              let st :=
                if inUnorderedList st
                then ListState (result st ++ [ul_close]) false (inOrderedList st)
                else st in
              ListState (result st ++ [ol_open]) (inUnorderedList st) true
            else st in
          push st (list_item (group om 1))
      | None =>
          let st :=
            if inUnorderedList st
            then ListState (result st ++ [ul_close]) false (inOrderedList st)
            else st in
          let st :=
            if inOrderedList st
            then ListState (result st ++ [ol_close]) (inUnorderedList st) false
            else st in
          push st line
      end
  end.

(** The lines [parseLists] has pushed when it joins them: the loop over
    the input lines, then the closing of a list still open. *)
Definition list_lines (lines : list jstring) : list jstring :=
  let st := fold_left list_step lines (ListState [] false false) in
  let st := if inUnorderedList st then push st ul_close else st in
  let st := if inOrderedList st then push st ol_close else st in
  result st.

(** [parseLists(content)] *)
Definition parseLists (content : jstring) : jstring :=
  let lines := split_char (ch "010") content in
  join (lit "\n") (list_lines lines).

(** [parseBlockElements(content)] *)
Definition parseBlockElements (content : jstring) : M jstring :=
  content <- replace_pattern p_blockquote (fun m =>
    lit "<blockquote class=\qblog-blockquote\q>" ++ group m 1
      ++ lit "</blockquote>") content ;;
  content <- replace_pattern p_horizontalRule (fun _ =>
    lit "<hr class=\qblog-hr\q>") content ;;
  ret content.

Definition blank_lines : RegExp :=
  MkRegExp "/\n\s*\n/" (rseq [rlit "\n"; star rspace; rlit "\n"]) false no_flags.

Definition starts_with_tag : RegExp :=
  MkRegExp "/^<[^>]+>/" (rseq [RBol; rlit "<"; plus (none_of ">"); rlit ">"])
           false no_flags.
Definition starts_with_heading : RegExp :=
  MkRegExp "/^#{1,6}\s/" (rseq [RBol; RRep (rchar "#") 1 (Some 6) true; rspace])
           false no_flags.
Definition starts_with_bullet : RegExp :=
  MkRegExp "/^[-*+]\s/" (rseq [RBol; one_of "-*+"; rspace]) false no_flags.
Definition starts_with_number : RegExp :=
  MkRegExp "/^\d+\.\s/" (rseq [RBol; plus rdigit; rlit "."; rspace])
           false no_flags.
Definition starts_with_quote : RegExp :=
  MkRegExp "/^>\s/" (rseq [RBol; rlit ">"; rspace]) false no_flags.
Definition starts_with_fence : RegExp :=
  MkRegExp "/^```/" (rseq [RBol; rlit "```"]) false no_flags.

Definition matches (p : RegExp) (s : jstring) : bool :=
  match match_first p s with Some _ => true | None => false end.

(** [parseParagraphs(content)] *)
Definition parseParagraphs (content : jstring) : jstring :=
  let sections := split_re blank_lines content in
  let result :=
    fold_left (fun result section =>
      let trimmed := trim section in
      if negb (nonempty trimmed) then result
      else if matches starts_with_tag trimmed
              || matches starts_with_heading trimmed
              || matches starts_with_bullet trimmed
              || matches starts_with_number trimmed
              || matches starts_with_quote trimmed
              || matches starts_with_fence trimmed
      then result ++ [trimmed]
      else result ++ [lit "<p class=\qblog-paragraph\q>" ++ trimmed ++ lit "</p>"])
      sections [] in
  join (lit "\n\n") result.

Definition any_tag : RegExp :=
  MkRegExp "/<[^>]*>/g" (rseq [rlit "<"; star (none_of ">"); rlit ">"])
           true no_flags.

Definition space_run : RegExp :=
  MkRegExp "/\s+/" (plus rspace) false no_flags.

(** [countWords(content)] *)
Definition countWords (content : jstring) : nat :=
  let textOnly := trim (replace_all any_tag removed content) in
  if nonempty textOnly then length (split_re space_run textOnly) else 0.

(** [Math.ceil(a / b)] for two counts: the quotient of two integers below
    2^53 is an integer exactly when the division leaves no remainder. *)
Definition ceil_div (a b : nat) : nat :=
  if a mod b =? 0 then a / b else S (a / b).

(** [estimateReadTime(content)] *)
Definition estimateReadTime (content : jstring) : nat :=
  let wordCount := countWords content in
  let wordsPerMinute := 200 in
  Nat.max 1 (ceil_div wordCount wordsPerMinute).

(** ** [parse] *)

(** The record [parse] returns. *)
Record ParseResult : Type := MkParseResult {
  metadata : object value;
  preview : jstring;
  content : jstring;
  wordCount : nat;
  estimatedReadTime : nat
}.

(** The methods [parse] calls on [this].  A call [this.m(...)] runs
    whatever the receiver holds under [m]: the methods of the class, or
    those of a subclass or of an instance that replaces some of them.
    Each returns or throws an [Error] object; [Receiver] below has the
    methods that throw any value. *)
Record Methods : Type := MkMethods {
  m_parseMetadata : jstring -> M (object jstring * jstring);
  m_extractPreview : jstring -> M (jstring * jstring);
  m_sanitizeHtml : jstring -> M jstring;
  m_parseCode : jstring -> M jstring;
  m_parseHeadings : jstring -> M jstring;
  m_parseLinksAndImages : jstring -> M jstring;
  m_parseFormatting : jstring -> M jstring;
  m_parseLists : jstring -> M jstring;
  m_parseBlockElements : jstring -> M jstring;
  m_parseParagraphs : jstring -> M jstring;
  m_countWords : jstring -> M nat;
  m_estimateReadTime : jstring -> M nat
}.

(** The methods as [class ColParser] defines them. *)
Definition ColParser_methods : Methods := {|
  m_parseMetadata := fun s => ret (parseMetadata s);
  m_extractPreview := extractPreview;
  m_sanitizeHtml := fun s => ret (sanitizeHtml (VStr s));
  m_parseCode := parseCode;
  m_parseHeadings := parseHeadings;
  m_parseLinksAndImages := parseLinksAndImages;
  m_parseFormatting := parseFormatting;
  m_parseLists := fun s => ret (parseLists s);
  m_parseBlockElements := parseBlockElements;
  m_parseParagraphs := fun s => ret (parseParagraphs s);
  m_countWords := fun s => ret (countWords s);
  m_estimateReadTime := fun s => ret (estimateReadTime s)
|}.

Definition or_default (v : option jstring) (d : jstring) : jstring :=
  match v with
  | Some s => if nonempty s then s else d
  | None => d
  end.

(** The [metadata] object of the result.  [now] is the text that
    [new Date().toISOString()] gives at the time of the call. *)
Definition result_metadata (now : jstring) (metadata : object jstring)
  : object value :=
  let title := VStr (or_default (obj_get metadata (lit "title")) (lit "Untitled")) in
  let date := VStr (or_default (obj_get metadata (lit "date"))
                               (nth 0 (split_char (ch "T") now) [])) in
  let author := VStr (or_default (obj_get metadata (lit "author")) (lit "Anonymous")) in
  let tags :=
    match obj_get metadata (lit "tags") with
    | Some t => if nonempty t then VArr (map trim (split_char (ch ",") t)) else VArr []
    | None => VArr []
    end in
  obj_spread VStr
    [ (lit "title", title); (lit "date", date); (lit "author", author);
      (lit "tags", tags) ]
    metadata.

Definition InvalidInput : JsError :=
  MkError (lit "Invalid input: content must be a non-empty string").

Definition ParseFailure (original : jstring) : JsError :=
  MkError (lit "Failed to parse .col content: " ++ original).

(** The [try] block of [parse]. *)
Definition parse_body (ms : Methods) (now : jstring) (rawContent : jstring)
  : M ParseResult :=
  '(metadata, contentWithoutMeta) <- m_parseMetadata ms rawContent ;;
  '(preview, contentWithoutPreview) <- m_extractPreview ms contentWithoutMeta ;;
  processedContent <- m_sanitizeHtml ms contentWithoutPreview ;;
  processedContent <- m_parseCode ms processedContent ;;
  processedContent <- m_parseHeadings ms processedContent ;;
  processedContent <- m_parseLinksAndImages ms processedContent ;;
  processedContent <- m_parseFormatting ms processedContent ;;
  processedContent <- m_parseLists ms processedContent ;;
  processedContent <- m_parseBlockElements ms processedContent ;;
  processedContent <- m_parseParagraphs ms processedContent ;;
  processedPreview <-
    (if nonempty preview then
       processedPreview <- m_sanitizeHtml ms preview ;;
       processedPreview <- m_parseFormatting ms processedPreview ;;
       processedPreview <- m_parseLinksAndImages ms processedPreview ;;
       ret (trim processedPreview)
     else ret []) ;;
  let metadata := result_metadata now metadata in
  wordCount <- m_countWords ms processedContent ;;
  estimatedReadTime <- m_estimateReadTime ms processedContent ;;
  ret (MkParseResult metadata processedPreview (trim processedContent)
                     wordCount estimatedReadTime).

(** [parse(rawContent)] on a receiver with the methods [ms]. *)
Definition parse_with (ms : Methods) (now : jstring) (rawContent : value)
  : M ParseResult :=
  if negb (truthy rawContent) || negb (is_string rawContent)
  then throw InvalidInput
  else try_catch (parse_body ms now (str_of rawContent))
                 (fun error => throw (ParseFailure (message error))).

(** [parse(rawContent)] of the class. *)
Definition parse (now : jstring) (rawContent : value) : M ParseResult :=
  parse_with ColParser_methods now rawContent.


(** ** Derived forms of the matcher *)

(** What the greedy star of a one-unit class does before a continuation
    [k]: [k] is tried after the longest run of units of the class, then
    after each shorter one. *)
Fixpoint greedy_try (p : char -> bool) (k : cont) (before after : jstring)
    (cs : list (nat * jstring)) : option mstate :=
  match after with
  | c :: t =>
      if p c then
        match greedy_try p k (c :: before) t cs with
        | Some z => Some z
        | None => k (MState before after cs)
        end
      else k (MState before after cs)
  | [] => k (MState before [] cs)
  end.

(** The lazy star of a one-unit class: [k] is tried first where the
    match stands, then one unit further while the units are of the class. *)
Fixpoint lazy_try (p : char -> bool) (k : cont) (before after : jstring)
    (cs : list (nat * jstring)) : option mstate :=
  match k (MState before after cs) with
  | Some z => Some z
  | None =>
      match after with
      | c :: t => if p c then lazy_try p k (c :: before) t cs else None
      | [] => None
      end
  end.

(** The longest prefix of units that satisfy [p], and what follows it. *)
Fixpoint run (p : char -> bool) (s : jstring) : jstring :=
  match s with
  | c :: t => if p c then c :: run p t else []
  | [] => []
  end.

Fixpoint after_run (p : char -> bool) (s : jstring) : jstring :=
  match s with
  | c :: t => if p c then after_run p t else s
  | [] => []
  end.

(** ** Reference definitions for the properties *)

(** Escaping, unit by unit. *)
Definition escape_char (c : char) : jstring :=
  if (c =? ch "&")%N then lit "&amp;"
  else if (c =? ch "<")%N then lit "&lt;"
  else if (c =? ch ">")%N then lit "&gt;"
  else if (c =? ch "034")%N then lit "&quot;"
  else if (c =? ch "'")%N then lit "&#39;"
  else [c].

(** A unit that is none of the less-than sign, the greater-than sign, the
    double quote and the single quote. *)
Definition html_inert (c : char) : bool :=
  negb ((c =? ch "<") || (c =? ch ">") || (c =? ch "034") || (c =? ch "'"))%N.

(** Quote stripping, unit by unit: one quote character off the front,
    then one off the end of what is left. *)
Definition is_quote (c : char) : bool := ((c =? ch "034") || (c =? ch "'"))%N.

Definition strip_leading_quote (s : jstring) : jstring :=
  match s with
  | c :: t => if is_quote c then t else s
  | [] => []
  end.

Fixpoint strip_trailing_quote (s : jstring) : jstring :=
  match s with
  | [] => []
  | c :: t =>
      match t with
      | [] => if is_quote c then [] else [c]
      | _ :: _ => c :: strip_trailing_quote t
      end
  end.

Definition strip_outer_quotes (s : jstring) : jstring :=
  strip_trailing_quote (strip_leading_quote s).

(** Tag stripping, unit by unit: a less-than sign that a greater-than
    sign follows somewhere opens a tag, which goes up to the first
    greater-than sign; everything else is kept. *)
Fixpoint strip_tags_from (in_tag : bool) (s : jstring) : jstring :=
  match s with
  | [] => []
  | c :: t =>
      if in_tag then
        if (c =? ch ">")%N then strip_tags_from false t
        else strip_tags_from true t
      else if (c =? ch "<")%N && existsb (fun x => (x =? ch ">")%N) t
           then strip_tags_from true t
           else c :: strip_tags_from false t
  end.

Definition strip_tags (s : jstring) : jstring := strip_tags_from false s.

(** The number of words of a text: the maximal runs of units that are not
    white space. *)
Fixpoint count_words_from (in_word : bool) (s : jstring) : nat :=
  match s with
  | [] => 0
  | c :: t =>
      if is_space c then count_words_from false t
      else (if in_word then 0 else 1) + count_words_from true t
  end.

Definition count_words (s : jstring) : nat := count_words_from false s.

(** The number of pieces that white-space runs cut a text into. *)
Fixpoint pieces (in_run : bool) (s : jstring) : nat :=
  match s with
  | [] => 1
  | c :: t =>
      if is_space c then (if in_run then 0 else 1) + pieces true t
      else pieces false t
  end.

(** A unit other than the greater-than sign (code 62). *)
Definition not_gt (c : char) : bool := negb (c =? 62)%N.

(** ** What a match looks like *)

(** [Matches fl r st st']: the pattern [r] can take the match from the
    state [st] to the state [st'].  The relation says which texts a
    pattern can consume, not which of them the matcher prefers. *)
Inductive Matches (fl : flags) : regex -> mstate -> mstate -> Prop :=
| M_empty st :
    Matches fl REmpty st st
| M_char c x before t cs :
    (canon fl x =? canon fl c)%N = true ->
    Matches fl (RChar c) (MState before (x :: t) cs) (MState (x :: before) t cs)
| M_dot x before t cs :
    is_line_terminator x = false ->
    Matches fl RDot (MState before (x :: t) cs) (MState (x :: before) t cs)
| M_set neg items x before t cs :
    xorb neg (in_items fl items x) = true ->
    Matches fl (RSet neg items) (MState before (x :: t) cs)
            (MState (x :: before) t cs)
| M_seq r1 r2 st1 st2 st3 :
    Matches fl r1 st1 st2 -> Matches fl r2 st2 st3 ->
    Matches fl (RSeq r1 r2) st1 st3
| M_alt_l r1 r2 st st' :
    Matches fl r1 st st' -> Matches fl (RAlt r1 r2) st st'
| M_alt_r r1 r2 st st' :
    Matches fl r2 st st' -> Matches fl (RAlt r1 r2) st st'
| M_rep_stop r min max g st :
    min = 0 \/ max = Some 0 ->
    Matches fl (RRep r min max g) st st
| M_rep_more r min max g st st1 st2 :
    Matches fl r st st1 ->
    Matches fl (RRep r (Nat.pred min) (option_map Nat.pred max) g) st1 st2 ->
    Matches fl (RRep r min max g) st st2
| M_group n r st st' :
    Matches fl r st st' ->
    Matches fl (RGroup n r) st (set_cap n (consumed st st') st')
| M_bol st :
    at_line_start fl st = true -> Matches fl RBol st st
| M_eol st :
    at_line_end fl st = true -> Matches fl REol st st
| M_wordb st :
    at_word_boundary st = true -> Matches fl RWordB st st
| M_neglook r st :
    rmatch fl r st Some = None -> Matches fl (RNegLook r) st st.

(** [s] occurs in [w]. *)
Definition substring (s w : jstring) : Prop := exists a b, w = a ++ s ++ b.

(** The texts a pattern can consume, the assertions left aside. *)
Fixpoint lang (fl : flags) (r : regex) (x : jstring) : Prop :=
  match r with
  | REmpty | RBol | REol | RWordB | RNegLook _ => x = []
  | RChar c => exists y, x = [y] /\ (canon fl y =? canon fl c)%N = true
  | RDot => exists y, x = [y] /\ is_line_terminator y = false
  | RSet neg items => exists y, x = [y] /\ xorb neg (in_items fl items y) = true
  | RSeq r1 r2 => exists x1 x2, x = x1 ++ x2 /\ lang fl r1 x1 /\ lang fl r2 x2
  | RAlt r1 r2 => lang fl r1 x \/ lang fl r2 x
  | RRep r _ _ _ => exists xs, x = concat xs /\ Forall (lang fl r) xs
  | RGroup _ r => lang fl r x
  end.

(** A front-matter delimiter line: three hyphens, then white space only. *)
Definition is_delimiter_line (l : jstring) : bool :=
  match l with
  | a :: b :: c :: w =>
      (a =? ch "-")%N && (b =? ch "-")%N && (c =? ch "-")%N && forallb is_space w
  | _ => false
  end.

(** A unit other than the line feed (code 10). *)
Definition not_lf (c : char) : bool := negb (c =? 10)%N.

(** ** Reading [parseLists] line by line *)

(** What the loop of [parseLists] takes a line for: the unordered pattern
    is asked first, the ordered one next. *)
Inductive line_kind : Type := Unordered | Ordered | Plain.

Definition kind_of (line : jstring) : line_kind :=
  match match_first unordered_item line with
  | Some _ => Unordered
  | None =>
      match match_first ordered_item line with
      | Some _ => Ordered
      | None => Plain
      end
  end.

(** The text of a list line after its marker: group 1 of the pattern
    that took the line. *)
Definition item_text (line : jstring) : jstring :=
  match match_first unordered_item line with
  | Some um => group um 1
  | None =>
      match match_first ordered_item line with
      | Some om => group om 1
      | None => []
      end
  end.

Definition opening (k : line_kind) : jstring :=
  match k with Unordered => ul_open | Ordered => ol_open | Plain => [] end.

Definition closing (k : line_kind) : jstring :=
  match k with Unordered => ul_close | Ordered => ol_close | Plain => [] end.

Definition kind_eqb (a b : line_kind) : bool :=
  match a, b with
  | Unordered, Unordered | Ordered, Ordered | Plain, Plain => true
  | _, _ => false
  end.

(** The number of places of [s] where [pat] starts. *)
Fixpoint occurrences (pat s : jstring) : nat :=
  match s with
  | [] => 0
  | _ :: t => (if startsWith pat s then 1 else 0) + occurrences pat t
  end.

(** The occurrences of [pat] in a sequence of lines. *)
Definition tag_count (pat : jstring) (lines : list jstring) : nat :=
  list_sum (map (occurrences pat) lines).

(** A text that holds no list tag of its own. *)
Definition no_list_tags (s : jstring) : bool :=
  (occurrences (lit "<ul") s =? 0) && (occurrences (lit "</ul>") s =? 0)
  && (occurrences (lit "<ol") s =? 0) && (occurrences (lit "</ol>") s =? 0).

(** At most one list is open at a time. *)
Definition one_open (st : list_state) : Prop :=
  inUnorderedList st && inOrderedList st = false.

Definition b2n (b : bool) : nat := if b then 1 else 0.

(** The lines pushed so far are balanced: every closing tag of a type
    comes after an opening tag of the type that no other closing tag
    answers, and the opening tags still unanswered are those of the lists
    the flags say are open. *)
Definition balanced (r : list jstring) (u o : bool) : Prop :=
  tag_count (lit "<ul") r = tag_count (lit "</ul>") r + b2n u
  /\ tag_count (lit "<ol") r = tag_count (lit "</ol>") r + b2n o
  /\ (forall k, tag_count (lit "</ul>") (firstn k r) <= tag_count (lit "<ul") (firstn k r))
  /\ (forall k, tag_count (lit "</ol>") (firstn k r) <= tag_count (lit "<ol") (firstn k r)).

(** A line that holds no list tag. *)
Definition inert (x : jstring) : Prop :=
  occurrences (lit "<ul") x = 0 /\ occurrences (lit "</ul>") x = 0
  /\ occurrences (lit "<ol") x = 0 /\ occurrences (lit "</ol>") x = 0.

(** ** Instances and calls *)

(** The calendar date [parse] takes from the clock text. *)
Definition iso_date (now : jstring) : jstring :=
  nth 0 (split_char (ch "T") now) [].

(** The instances a program can hold: a new one, and one on which [parse]
    has been called. *)
Inductive reachable : ColParser -> Prop :=
| reach_new : reachable new_ColParser
| reach_parse (this : ColParser) (now : jstring) (rawContent : value) :
    reachable this -> reachable (snd (parse now rawContent this)).

(** Two instances whose preview pattern stands at index 0, the one slot of
    an instance that a later call reads. *)
Definition agree (a b : ColParser) : Prop :=
  lastIndex a p_preview = 0 /\ lastIndex b p_preview = 0.

(** Two calls that, on such instances, complete alike and leave such
    instances. *)
Definition related {A : Type} (c1 c2 : M A) : Prop :=
  forall a b, agree a b ->
    fst (c1 a) = fst (c2 b) /\ agree (snd (c1 a)) (snd (c2 b)).

(** Two objects that are the same but for the value under the key [k],
    which each holds once. *)
Definition differ_at {V : Type} (k : jstring) (o1 o2 : object V) : Prop :=
  exists front back a b,
    o1 = front ++ (k, a) :: back /\ o2 = front ++ (k, b) :: back
    /\ obj_get front k = None.

(** An argument [parse] accepts: a string that is not empty. *)
Definition valid_input (v : value) : bool :=
  match v with
  | VStr (_ :: _) => true
  | _ => false
  end.

(** A call that completes normally on every instance. *)
Definition succeeds {A : Type} (c : M A) : Prop :=
  forall this, exists x this', c this = (Normal x, this').

(** A matcher that asks its continuation only about states further on
    in the input (or at the same place). *)
Definition forward_only (m : matcher) : Prop :=
  forall st (k1 k2 : cont),
    (forall y, length (rest y) <= length (rest st) -> k1 y = k2 y) ->
    m st k1 = m st k2.

(** ** Reference definitions for further properties *)

(** [a] is [b] with some units taken out. *)
Inductive subseq : jstring -> jstring -> Prop :=
| subseq_nil : subseq [] []
| subseq_keep (c : char) (a b : jstring) : subseq a b -> subseq (c :: a) (c :: b)
| subseq_drop (c : char) (a b : jstring) : subseq a b -> subseq a (c :: b).

(** The text holds no unit [c]. *)
Definition lacks (c : char) (s : jstring) : bool :=
  forallb (fun x => negb (x =? c)%N) s.

(** One of the five units [escapeHtml] replaces. *)
Definition is_html_special (c : char) : bool :=
  ((c =? 38) || (c =? 60) || (c =? 62) || (c =? 34) || (c =? 39))%N.

(** A call that, when it completes normally, returns a value with the
    property [P]. *)
Definition returns {A : Type} (c : M A) (P : A -> Prop) : Prop :=
  forall this x this', c this = (Normal x, this') -> P x.

(** The line [parseLists] pushes for a list line. *)
Definition item_line (l : jstring) : jstring := list_item (item_text l).

(** ** [loadFile] *)

(** What the network gives to [loadFile]: [fetch(url)] rejects with an
    error, or resolves to a response with its [ok] flag, its status and
    status text, whose [text()] resolves to the body or rejects. *)
Inductive fetched : Type :=
| Rejected (error : JsError)
| Response (ok : bool) (status : nat) (statusText : jstring)
           (text : completion jstring).

Definition HttpFailure (status : nat) (statusText : jstring) : JsError :=
  MkError (lit "HTTP " ++ dec status ++ lit ": " ++ statusText).

Definition LoadFailure (url original : jstring) : JsError :=
  MkError (lit "Failed to load .col file from " ++ url ++ lit ": " ++ original).

(** [loadFile(url)], the awaited steps in their order. *)
Definition loadFile (now : jstring) (url : jstring) (network : fetched)
  : M ParseResult :=
  try_catch
    (match network with
     | Rejected error => throw error
     | Response ok status statusText text =>
         if negb ok then throw (HttpFailure status statusText)
         else
           match text with
           | Throw error => throw error
           | Normal content => parse now (VStr content)
           end
     end)
    (fun error => throw (LoadFailure url (message error))).

(** ** Reference definitions for the stages of [parse] *)

(** The units the stages of [parse] start from. *)
Definition markup_units : jstring := lit "\n<>=:`#[*-+.".

(** The text holds none of the units [cs]. *)
Definition free_of (cs s : jstring) : bool :=
  forallb (fun x => negb (existsb (N.eqb x) cs)) s.

(** A unit that only itself matches under the flags: any unit without
    [i], a unit below the letters with it. *)
Definition rigid (fl : flags) (c : char) : bool :=
  negb (ignoreCase fl) || (c <? 65)%N.

(** A sufficient test that every text the pattern consumes holds one of
    the units [cs]. *)
Fixpoint needs (fl : flags) (r : regex) (cs : jstring) : bool :=
  match r with
  | RChar c => rigid fl c && existsb (N.eqb c) cs
  | RSet false items =>
      forallb (fun i => match i with
                        | CChar c => rigid fl c && existsb (N.eqb c) cs
                        | _ => false
                        end) items
  | RSeq r1 r2 => needs fl r1 cs || needs fl r2 cs
  | RAlt r1 r2 => needs fl r1 cs && needs fl r2 cs
  | RRep r min max _ =>
      (1 <=? min) && match max with Some 0 => false | _ => true end
      && needs fl r cs
  | RGroup _ r => needs fl r cs
  | _ => false
  end.

(** The paragraph [parseParagraphs] makes of a section. *)
Definition paragraph (text : jstring) : jstring :=
  lit "<p class=\qblog-paragraph\q>" ++ text ++ lit "</p>".

(** A text with something in it and no white space at either end. *)
Definition tight (x : jstring) : Prop := x <> [] /\ trim x = x.

(** How often the unit [c] occurs in a text. *)
Definition count_unit (c : char) (s : jstring) : nat :=
  length (filter (N.eqb c) s).
Arguments count_unit c%_N s.

(** A unit of a heading id: a lower-case ASCII letter, a digit or the
    hyphen. *)
Definition is_slug_unit (c : char) : bool :=
  ((97 <=? c) && (c <=? 122) || (48 <=? c) && (c <=? 57) || (c =? 45))%N.

(** The id [parseHeadings] gives to a heading with the text [text]. *)
Definition heading_id (text : jstring) : jstring :=
  replace_all outer_hyphen removed
    (replace_all not_alnum_run (fun _ => lit "-") (toLowerCase text)).

Definition not_alnum (c : char) : bool :=
  negb ((97 <=? c) && (c <=? 122) || (48 <=? c) && (c <=? 57))%N.

(** The text is empty or ends with a line terminator: a line starts
    after it. *)
Definition line_starts_after (s : jstring) : bool :=
  match rev s with [] => true | c :: _ => is_line_terminator c end.

(** The text is empty or starts with a line terminator: a line ends
    before it. *)
Definition line_ends_before (s : jstring) : bool :=
  match s with [] => true | c :: _ => is_line_terminator c end.

(** The text starts with a unit that is not white space. *)
Definition starts_with_ink (s : jstring) : bool :=
  match s with [] => false | c :: _ => negb (is_space c) end.

(** ** [parse] on any receiver *)

(** What a stage method of a receiver can throw.  [throw] takes any
    value; what the [catch] clause of [parse] does with it depends on what
    reading its [message] gives: a value whose [message] reads as a text
    (an [Error] object is one; [message e] is the text that the template
    of the [catch] clause puts in), [null] and [undefined], which have no
    properties to read, and a value that has no [message] (a boolean, a
    number, a string, an object without the property).  A value whose
    [message] cannot be read or put in a text (a getter that throws, a
    symbol) is left out. *)
Inductive thrown : Type :=
| ThrownError (e : JsError)
| ThrownNull
| ThrownUndefined
| ThrownNoMessage.

(** How a call of a stage method ends. *)
Inductive raised (A : Type) : Type :=
| Returns (a : A)
| Raises (t : thrown).
Arguments Returns {A} a.
Arguments Raises {A} t.

(** A call of a stage method: it runs on an instance, returns or throws
    a value, and leaves the instance in a new state. *)
Definition Stage (A : Type) : Type := ColParser -> raised A * ColParser.

Definition ret_stage {A : Type} (a : A) : Stage A := fun this => (Returns a, this).

Definition bind_stage {A B : Type} (c : Stage A) (f : A -> Stage B) : Stage B :=
  fun this =>
    match c this with
    | (Returns a, this') => f a this'
    | (Raises t, this') => (Raises t, this')
    end.

Declare Scope stage_scope.
Delimit Scope stage_scope with stage.
Notation "x <- c ;; k" := (bind_stage c (fun x => k))
  (at level 61, c at next level, right associativity) : stage_scope.
Notation "' pat <- c ;; k" := (bind_stage c (fun x => match x with pat => k end))
  (at level 61, pat pattern, c at next level, right associativity) : stage_scope.

(** The methods [parse] calls on [this], for any receiver: each may
    return, a value of the type the method of the class returns, or throw
    any value. *)
Record Receiver : Type := MkReceiver {
  r_parseMetadata : jstring -> Stage (object jstring * jstring);
  r_extractPreview : jstring -> Stage (jstring * jstring);
  r_sanitizeHtml : jstring -> Stage jstring;
  r_parseCode : jstring -> Stage jstring;
  r_parseHeadings : jstring -> Stage jstring;
  r_parseLinksAndImages : jstring -> Stage jstring;
  r_parseFormatting : jstring -> Stage jstring;
  r_parseLists : jstring -> Stage jstring;
  r_parseBlockElements : jstring -> Stage jstring;
  r_parseParagraphs : jstring -> Stage jstring;
  r_countWords : jstring -> Stage nat;
  r_estimateReadTime : jstring -> Stage nat
}.

(** The [try] block of [parse] on any receiver. *)
Definition try_block (r : Receiver) (now : jstring) (rawContent : jstring)
  : Stage ParseResult :=
  ('(metadata, contentWithoutMeta) <- r_parseMetadata r rawContent ;;
   '(preview, contentWithoutPreview) <- r_extractPreview r contentWithoutMeta ;;
   processedContent <- r_sanitizeHtml r contentWithoutPreview ;;
   processedContent <- r_parseCode r processedContent ;;
   processedContent <- r_parseHeadings r processedContent ;;
   processedContent <- r_parseLinksAndImages r processedContent ;;
   processedContent <- r_parseFormatting r processedContent ;;
   processedContent <- r_parseLists r processedContent ;;
   processedContent <- r_parseBlockElements r processedContent ;;
   processedContent <- r_parseParagraphs r processedContent ;;
   processedPreview <-
     (if nonempty preview then
        processedPreview <- r_sanitizeHtml r preview ;;
        processedPreview <- r_parseFormatting r processedPreview ;;
        processedPreview <- r_parseLinksAndImages r processedPreview ;;
        ret_stage (trim processedPreview)
      else ret_stage []) ;;
   let metadata := result_metadata now metadata in
   wordCount <- r_countWords r processedContent ;;
   estimatedReadTime <- r_estimateReadTime r processedContent ;;
   ret_stage (MkParseResult metadata processedPreview (trim processedContent)
                            wordCount estimatedReadTime))%stage.

(** The [TypeError] of reading a property of [null] or [undefined]; the
    text of its message is the engine's (here V8's). *)
Definition CannotRead (what : jstring) : JsError :=
  MkError (lit "Cannot read properties of " ++ what ++ lit " (reading 'message')").

(** The [catch] clause of [parse]: what it throws for the value caught.
    The message of the new error is the template text with
    [error.message] in it; reading [message] of [null] or [undefined]
    throws instead, and a value without the property gives [undefined]. *)
Definition caught (error : thrown) : JsError :=
  match error with
  | ThrownError e => ParseFailure (message e)
  | ThrownNull => CannotRead (lit "null")
  | ThrownUndefined => CannotRead (lit "undefined")
  | ThrownNoMessage => ParseFailure (lit "undefined")
  end.

(** [parse(rawContent)] on any receiver. *)
Definition parse_on (r : Receiver) (now : jstring) (rawContent : value)
  : M ParseResult :=
  if negb (truthy rawContent) || negb (is_string rawContent)
  then throw InvalidInput
  else fun this =>
         match try_block r now (str_of rawContent) this with
         | (Returns res, this') => (Normal res, this')
         | (Raises error, this') => (Throw (caught error), this')
         end.

(** A method that returns or throws an [Error] object, as a stage. *)
Definition as_stage {A : Type} (c : M A) : Stage A := fun this =>
  match c this with
  | (Normal a, this') => (Returns a, this')
  | (Throw e, this') => (Raises (ThrownError e), this')
  end.

(** The receivers whose methods throw [Error] objects only. *)
Definition as_receiver (ms : Methods) : Receiver := {|
  r_parseMetadata := fun s => as_stage (m_parseMetadata ms s);
  r_extractPreview := fun s => as_stage (m_extractPreview ms s);
  r_sanitizeHtml := fun s => as_stage (m_sanitizeHtml ms s);
  r_parseCode := fun s => as_stage (m_parseCode ms s);
  r_parseHeadings := fun s => as_stage (m_parseHeadings ms s);
  r_parseLinksAndImages := fun s => as_stage (m_parseLinksAndImages ms s);
  r_parseFormatting := fun s => as_stage (m_parseFormatting ms s);
  r_parseLists := fun s => as_stage (m_parseLists ms s);
  r_parseBlockElements := fun s => as_stage (m_parseBlockElements ms s);
  r_parseParagraphs := fun s => as_stage (m_parseParagraphs ms s);
  r_countWords := fun s => as_stage (m_countWords ms s);
  r_estimateReadTime := fun s => as_stage (m_estimateReadTime ms s)
|}.

(** A receiver with the methods of the class but for [parseCode], which
    throws the value [t]. *)
Definition throwing_parseCode (t : thrown) : Receiver :=
  let r := as_receiver ColParser_methods in
  MkReceiver (r_parseMetadata r) (r_extractPreview r) (r_sanitizeHtml r)
             (fun _ this => (Raises t, this))
             (r_parseHeadings r) (r_parseLinksAndImages r) (r_parseFormatting r)
             (r_parseLists r) (r_parseBlockElements r) (r_parseParagraphs r)
             (r_countWords r) (r_estimateReadTime r).

(** *** A stage that throws *)

(** The stages that work on the content, in the order in which the [try]
    block calls them, and those that work on the preview. *)
Definition content_stages (r : Receiver) : list (jstring -> Stage jstring) :=
  [r_sanitizeHtml r; r_parseCode r; r_parseHeadings r; r_parseLinksAndImages r;
   r_parseFormatting r; r_parseLists r; r_parseBlockElements r;
   r_parseParagraphs r].

Definition preview_stages (r : Receiver) : list (jstring -> Stage jstring) :=
  [r_sanitizeHtml r; r_parseFormatting r; r_parseLinksAndImages r].

(** Stages called one after the other, each on what the one before it
    returned: all return, or one throws after those before it returned. *)
Inductive calls : list (jstring -> Stage jstring) -> jstring -> ColParser ->
                  raised jstring -> ColParser -> Prop :=
| calls_done x this :
    calls [] x this (Returns x) this
| calls_throws f stages x this t this' :
    f x this = (Raises t, this') ->
    calls (f :: stages) x this (Raises t) this'
| calls_next f stages x this y this1 out this' :
    f x this = (Returns y, this1) ->
    calls stages y this1 out this' ->
    calls (f :: stages) x this out this'.

(** The preview is done: there is none, or its stages have returned. *)
Definition preview_done (r : Receiver) (pv : jstring) (this this' : ColParser)
  : Prop :=
  if nonempty pv
  then exists out, calls (preview_stages r) pv this (Returns out) this'
  else this' = this.

(** In a run of [parse] on the text [s], from the instance [this], a
    stage method throws the value [t] and leaves the instance [this']:
    the calls before it, in the order of the [try] block, have returned. *)
Inductive stage_throws (r : Receiver) (s : jstring) (this : ColParser)
  : thrown -> ColParser -> Prop :=
| throws_parseMetadata t this1 :
    r_parseMetadata r s this = (Raises t, this1) ->
    stage_throws r s this t this1
| throws_extractPreview md body this1 t this2 :
    r_parseMetadata r s this = (Returns (md, body), this1) ->
    r_extractPreview r body this1 = (Raises t, this2) ->
    stage_throws r s this t this2
| throws_content_stage md body this1 pv clean this2 t this3 :
    r_parseMetadata r s this = (Returns (md, body), this1) ->
    r_extractPreview r body this1 = (Returns (pv, clean), this2) ->
    calls (content_stages r) clean this2 (Raises t) this3 ->
    stage_throws r s this t this3
| throws_preview_stage md body this1 pv clean this2 processed this3 t this4 :
    r_parseMetadata r s this = (Returns (md, body), this1) ->
    r_extractPreview r body this1 = (Returns (pv, clean), this2) ->
    calls (content_stages r) clean this2 (Returns processed) this3 ->
    nonempty pv = true ->
    calls (preview_stages r) pv this3 (Raises t) this4 ->
    stage_throws r s this t this4
| throws_countWords md body this1 pv clean this2 processed this3 this4 t this5 :
    r_parseMetadata r s this = (Returns (md, body), this1) ->
    r_extractPreview r body this1 = (Returns (pv, clean), this2) ->
    calls (content_stages r) clean this2 (Returns processed) this3 ->
    preview_done r pv this3 this4 ->
    r_countWords r processed this4 = (Raises t, this5) ->
    stage_throws r s this t this5
| throws_estimateReadTime md body this1 pv clean this2 processed this3 this4
                          wc this5 t this6 :
    r_parseMetadata r s this = (Returns (md, body), this1) ->
    r_extractPreview r body this1 = (Returns (pv, clean), this2) ->
    calls (content_stages r) clean this2 (Returns processed) this3 ->
    preview_done r pv this3 this4 ->
    r_countWords r processed this4 = (Returns wc, this5) ->
    r_estimateReadTime r processed this5 = (Raises t, this6) ->
    stage_throws r s this t this6.

(** The calls of a list of stages as one computation. *)
Fixpoint thread (stages : list (jstring -> Stage jstring)) (x : jstring)
  : Stage jstring :=
  match stages with
  | [] => ret_stage x
  | f :: more => bind_stage (f x) (thread more)
  end.

(** The [try] block with the calls of the content stages and of the
    preview stages taken together. *)
Definition try_block_threaded (r : Receiver) (now s : jstring)
  : Stage ParseResult :=
  bind_stage (r_parseMetadata r s) (fun x =>
  bind_stage (r_extractPreview r (snd x)) (fun y =>
  bind_stage (thread (content_stages r) (snd y)) (fun processed =>
  bind_stage (if nonempty (fst y)
              then bind_stage (thread (preview_stages r) (fst y))
                              (fun pp => ret_stage (trim pp))
              else ret_stage []) (fun pp =>
  bind_stage (r_countWords r processed) (fun wc =>
  bind_stage (r_estimateReadTime r processed) (fun rt =>
  ret_stage (MkParseResult (result_metadata now (fst x)) pp (trim processed)
                           wc rt))))))).

(** ** The lists [parseLists] makes *)

(** The runs of a sequence of lines: the lines in their order, cut
    wherever a line is followed by one that the loop of [parseLists]
    takes for something else.  Each run goes with what its lines are
    taken for. *)
Fixpoint runs (lines : list jstring) : list (line_kind * list jstring) :=
  match lines with
  | [] => []
  | l :: t =>
      match runs t with
      | (k, g) :: gs =>
          if kind_eqb (kind_of l) k then (k, l :: g) :: gs
          else (kind_of l, [l]) :: (k, g) :: gs
      | [] => [(kind_of l, [l])]
      end
  end.

(** What a run stands for in the output: the lines of a run of plain
    lines as they are; for a run of list lines one list, its opening tag,
    the items, its closing tag. *)
Definition render (run : line_kind * list jstring) : list jstring :=
  match fst run with
  | Plain => snd run
  | k => opening k :: map item_line (snd run) ++ [closing k]
  end.

(** The number of lists of the type [k] that a sequence of lines
    holds. *)
Definition lists_of (k : line_kind) (lines : list jstring) : nat :=
  length (filter (fun run => kind_eqb (fst run) k) (runs lines)).

(** The list the flags of the loop say is open. *)
Definition open_kind (st : list_state) : line_kind :=
  if inUnorderedList st then Unordered
  else if inOrderedList st then Ordered else Plain.

Definition opening_line (k : line_kind) : list jstring :=
  match k with Plain => [] | _ => [opening k] end.

Definition closing_line (k : line_kind) : list jstring :=
  match k with Plain => [] | _ => [closing k] end.

(** The line pushed for an input line. *)
Definition emitted (line : jstring) : jstring :=
  match kind_of line with Plain => line | _ => item_line line end.

(** What [parseLists] still pushes for the lines left when the list
    [k0] is open ([Plain]: none is). *)
Fixpoint continue (k0 : line_kind) (lines : list jstring) : list jstring :=
  match lines with
  | [] => closing_line k0
  | l :: t =>
      (if kind_eqb k0 (kind_of l) then []
       else closing_line k0 ++ opening_line (kind_of l))
      ++ emitted l :: continue (kind_of l) t
  end.

(** The text holds no [<]. *)
Definition no_lt (s : jstring) : bool := forallb (fun c => negb (c =? 60)%N) s.

(** ** Facts about the matcher *)

Unset Implicit Arguments.

Section Engine.

Lemma step_char_cons (p : char -> bool) before c t cs (k : cont) :
  step_char p (MState before (c :: t) cs) k =
  if p c then k (MState (c :: before) t cs) else None.
Proof. reflexivity. Qed.

Lemma step_char_nil (p : char -> bool) before cs (k : cont) :
  step_char p (MState before [] cs) k = None.
Proof. reflexivity. Qed.

Lemma length_cons_neq (A : Type) (t : list A) :
  (length t =? S (length t)) = false.
Proof. apply Nat.eqb_neq. lia. Qed.

Lemma rep_loop_star_class (p : char -> bool) (k : cont) :
  forall after fuel before cs,
    length after < fuel ->
    rep_loop (step_char p) true fuel 0 None (MState before after cs) k =
    greedy_try p k before after cs.
Proof.
  induction after as [|c t IH]; intros fuel before cs Hf.
  - destruct fuel; [lia|]. reflexivity.
  - destruct fuel; [simpl in Hf; lia|].
    simpl rep_loop. rewrite step_char_cons. simpl greedy_try.
    destruct (p c); [|reflexivity].
    cbn [rest]. rewrite length_cons_neq. simpl.
    rewrite IH by (simpl in Hf; lia). reflexivity.
Qed.

Lemma rep_loop_lazy_class (p : char -> bool) (k : cont) :
  forall after fuel before cs,
    length after < fuel ->
    rep_loop (step_char p) false fuel 0 None (MState before after cs) k =
    lazy_try p k before after cs.
Proof.
  induction after as [|c t IH]; intros fuel before cs Hf.
  - destruct fuel; [lia|]. simpl. destruct (k _); reflexivity.
  - destruct fuel; [simpl in Hf; lia|].
    simpl rep_loop. rewrite step_char_cons. simpl lazy_try.
    destruct (k _); [reflexivity|].
    destruct (p c); [|reflexivity].
    cbn [rest]. rewrite length_cons_neq. simpl.
    rewrite IH by (simpl in Hf; lia). reflexivity.
Qed.

(** One or more units of a class, greedy. *)
Lemma rep_loop_plus_class (p : char -> bool) (k : cont) after fuel before cs :
  S (length after) < fuel ->
  rep_loop (step_char p) true fuel 1 None (MState before after cs) k =
  match after with
  | c :: t => if p c then greedy_try p k (c :: before) t cs else None
  | [] => None
  end.
Proof.
  intros Hf. destruct fuel; [lia|]. simpl rep_loop.
  destruct after as [|c t]; [reflexivity|].
  rewrite step_char_cons. destruct (p c); [|reflexivity].
  simpl. apply rep_loop_star_class. simpl in Hf. lia.
Qed.

(** With the continuation that accepts, the greedy star stops after the
    longest run. *)
Lemma greedy_try_accept (p : char -> bool) :
  forall after before cs,
    greedy_try p Some before after cs =
    Some (MState (rev (run p after) ++ before) (after_run p after) cs).
Proof.
  induction after as [|c t IH]; intros before cs; simpl.
  - reflexivity.
  - destruct (p c); [|reflexivity].
    rewrite IH. simpl. rewrite <- app_assoc. reflexivity.
Qed.

Lemma run_after_run (p : char -> bool) (s : jstring) :
  run p s ++ after_run p s = s.
Proof.
  induction s as [|c t IH]; simpl; [reflexivity|].
  destruct (p c); simpl; [rewrite IH|]; reflexivity.
Qed.

Lemma length_after_run (p : char -> bool) (s : jstring) :
  length (after_run p s) + length (run p s) = length s.
Proof.
  rewrite <- (run_after_run p s) at 3. rewrite length_app. lia.
Qed.

Lemma sub_succ_self (n : nat) : S n - n = 1.
Proof. lia. Qed.

Lemma result_of_one before (c : char) t before' cs :
  result_of before (c :: t) (MState before' t cs) = MkMatch [c] (length before) cs.
Proof. unfold result_of. cbn [rest length caps]. rewrite sub_succ_self. reflexivity. Qed.

Lemma match_len_one (c : char) t before' cs :
  match_len (c :: t) (MState before' t cs) = 1.
Proof. unfold match_len. cbn [rest length]. apply sub_succ_self. Qed.

End Engine.

(** *** The fuel of the repetition is enough *)

Section Fuel.

Variable fl : flags.

Lemma step_char_forward_only (p : char -> bool) : forward_only (step_char p).
Proof.
  intros [before after cs] k1 k2 H. destruct after as [|c t]; [reflexivity|].
  rewrite !step_char_cons. destruct (p c); [|reflexivity].
  apply H. cbn. lia.
Qed.

Lemma rep_loop_forward_only (m : matcher) (g : bool) :
  forward_only m ->
  forall fuel min max, forward_only (rep_loop m g fuel min max).
Proof.
  intros Hm. induction fuel as [|fuel IH]; intros min max st k1 k2 H.
  - reflexivity.
  - cbn [rep_loop].
    assert (Hk : k1 st = k2 st) by (apply H; lia).
    assert (Hd :
      m st (fun y : mstate =>
              if (min =? 0) && (length (rest y) =? length (rest st)) then None
              else rep_loop m g fuel (Nat.pred min) (option_map Nat.pred max) y k1)
      = m st (fun y : mstate =>
              if (min =? 0) && (length (rest y) =? length (rest st)) then None
              else rep_loop m g fuel (Nat.pred min) (option_map Nat.pred max) y k2)).
    { apply Hm. intros y Hy.
      destruct ((min =? 0) && (length (rest y) =? length (rest st)));
        [reflexivity|].
      apply IH. intros z Hz. apply H. lia. }
    rewrite Hk, Hd. reflexivity.
Qed.

(** The matcher of a pattern asks its continuation only about states
    further on. *)
Lemma rmatch_forward_only : forall r, forward_only (rmatch fl r).
Proof.
  induction r as [ |c| |neg items|r1 IH1 r2 IH2|r1 IH1 r2 IH2
                 |r IH min max g|n r IH| | | |r IH];
    intros st k1 k2 H; cbn [rmatch];
    try (apply step_char_forward_only; exact H).
  - apply H. lia.
  - apply IH1. intros y Hy. apply IH2. intros z Hz. apply H. lia.
  - rewrite (IH1 st k1 k2 H), (IH2 st k1 k2 H). reflexivity.
  - apply rep_loop_forward_only; [exact IH | exact H].
  - apply IH. intros y Hy. apply H. cbn. lia.
  - rewrite (H st) by lia. reflexivity.
  - rewrite (H st) by lia. reflexivity.
  - rewrite (H st) by lia. reflexivity.
  - rewrite (H st) by lia. reflexivity.
Qed.

(** The repetition gives the same result with any fuel above the minimum
    count plus the length of the input left: the matcher terminates, and
    the fuel it is given never runs out. *)
Theorem rep_loop_fuel (m : matcher) (g : bool) :
  forward_only m ->
  forall fuel1 fuel2 min max st k,
    min + length (rest st) < fuel1 ->
    min + length (rest st) < fuel2 ->
    rep_loop m g fuel1 min max st k = rep_loop m g fuel2 min max st k.
Proof.
  intros Hm. induction fuel1 as [|fuel1 IH]; intros fuel2 min max st k H1 H2.
  - lia.
  - destruct fuel2 as [|fuel2]; [lia|]. cbn [rep_loop].
    assert (Hd :
      m st (fun y : mstate =>
              if (min =? 0) && (length (rest y) =? length (rest st)) then None
              else rep_loop m g fuel1 (Nat.pred min) (option_map Nat.pred max) y k)
      = m st (fun y : mstate =>
              if (min =? 0) && (length (rest y) =? length (rest st)) then None
              else rep_loop m g fuel2 (Nat.pred min) (option_map Nat.pred max) y k)).
    { apply Hm. intros y Hy.
      destruct (Nat.eqb_spec min 0) as [Z|NZ]; cbn [andb].
      - destruct (Nat.eqb_spec (length (rest y)) (length (rest st))) as [E|NE];
          [reflexivity|].
        apply IH; subst min; cbn [Nat.pred]; lia.
      - apply IH; lia. }
    rewrite Hd. reflexivity.
Qed.

End Fuel.

Section Soundness.

Variable fl : flags.

Lemma first_success (A : Type) (a b : option A) (z : A) :
  match a with Some x => Some x | None => b end = Some z ->
  a = Some z \/ b = Some z.
Proof. destruct a; auto. Qed.

Lemma step_char_sound (p : char -> bool) st k z :
  step_char p st k = Some z ->
  exists x before t cs,
    st = MState before (x :: t) cs /\ p x = true
    /\ k (MState (x :: before) t cs) = Some z.
Proof.
  destruct st as [before after cs]. destruct after as [|x t]; [discriminate|].
  rewrite step_char_cons. destruct (p x) eqn:E; [|discriminate].
  intros H. exists x, before, t, cs. auto.
Qed.

Lemma rep_loop_sound (m : matcher) (r : regex) (g : bool) :
  (forall st k z, m st k = Some z ->
     exists st', Matches fl r st st' /\ k st' = Some z) ->
  forall fuel min max st k z,
    rep_loop m g fuel min max st k = Some z ->
    exists st', Matches fl (RRep r min max g) st st' /\ k st' = Some z.
Proof.
  intros Hm. induction fuel as [|fuel IH]; intros min max st k z H.
  - discriminate.
  - cbn [rep_loop] in H.
    assert (Hstop : k st = Some z ->
              min = 0 \/ max = Some 0 ->
              exists st', Matches fl (RRep r min max g) st st' /\ k st' = Some z).
    { intros Hk Hc. exists st. split; [apply M_rep_stop; exact Hc | exact Hk]. }
    assert (Hmore :
      m st (fun y : mstate =>
              if (min =? 0) && (length (rest y) =? length (rest st)) then None
              else rep_loop m g fuel (Nat.pred min) (option_map Nat.pred max) y k)
        = Some z ->
      exists st', Matches fl (RRep r min max g) st st' /\ k st' = Some z).
    { intros Hd. destruct (Hm _ _ _ Hd) as (st1 & M1 & Hd1).
      destruct ((min =? 0) && (length (rest st1) =? length (rest st)));
        [discriminate|].
      destruct (IH _ _ _ _ _ Hd1) as (st2 & M2 & Hk).
      exists st2. split; [eapply M_rep_more; eassumption | exact Hk]. }
    assert (Hboth :
      (if negb (min =? 0) then
         m st (fun y : mstate =>
              if (min =? 0) && (length (rest y) =? length (rest st)) then None
              else rep_loop m g fuel (Nat.pred min) (option_map Nat.pred max) y k)
       else if g then
         match m st (fun y : mstate =>
              if (min =? 0) && (length (rest y) =? length (rest st)) then None
              else rep_loop m g fuel (Nat.pred min) (option_map Nat.pred max) y k)
         with Some z0 => Some z0 | None => k st end
       else
         match k st with
         | Some z0 => Some z0
         | None =>
             m st (fun y : mstate =>
              if (min =? 0) && (length (rest y) =? length (rest st)) then None
              else rep_loop m g fuel (Nat.pred min) (option_map Nat.pred max) y k)
         end) = Some z ->
      exists st', Matches fl (RRep r min max g) st st' /\ k st' = Some z).
    { intros H'. destruct (min =? 0) eqn:Emin; cbn [negb] in H'.
      - apply Nat.eqb_eq in Emin. destruct g.
        + apply first_success in H'. destruct H'; auto.
        + apply first_success in H'. destruct H'; auto.
      - apply Hmore, H'. }
    destruct max as [[|n]|]; auto.
Qed.

(** Whatever the matcher accepts is a match of the pattern. *)
Theorem rmatch_sound :
  forall r st k z,
    rmatch fl r st k = Some z ->
    exists st', Matches fl r st st' /\ k st' = Some z.
Proof.
  induction r as [ |c| |neg items|r1 IH1 r2 IH2|r1 IH1 r2 IH2
                 |r IH min max g|n r IH| | | |r IH];
    intros st k z H; cbn [rmatch] in H.
  - exists st. split; [constructor | exact H].
  - destruct (step_char_sound _ _ _ _ H) as (x & b & t & cs & -> & P & K).
    eexists. split; [apply M_char; exact P | exact K].
  - destruct (step_char_sound _ _ _ _ H) as (x & b & t & cs & -> & P & K).
    eexists. split; [apply M_dot; apply negb_true_iff; exact P | exact K].
  - destruct (step_char_sound _ _ _ _ H) as (x & b & t & cs & -> & P & K).
    eexists. split; [apply M_set; exact P | exact K].
  - destruct (IH1 _ _ _ H) as (st1 & M1 & H1).
    destruct (IH2 _ _ _ H1) as (st2 & M2 & H2).
    exists st2. split; [eapply M_seq; eassumption | exact H2].
  - destruct (rmatch fl r1 st k) eqn:E.
    + injection H as <-. destruct (IH1 _ _ _ E) as (st1 & M1 & H1).
      exists st1. split; [apply M_alt_l; exact M1 | exact H1].
    + destruct (IH2 _ _ _ H) as (st1 & M1 & H1).
      exists st1. split; [apply M_alt_r; exact M1 | exact H1].
  - eapply rep_loop_sound; [exact IH | exact H].
  - destruct (IH _ _ _ H) as (st1 & M1 & H1).
    eexists. split; [apply M_group; exact M1 | exact H1].
  - destruct (at_line_start fl st) eqn:E; [|discriminate].
    exists st. split; [apply M_bol; exact E | exact H].
  - destruct (at_line_end fl st) eqn:E; [|discriminate].
    exists st. split; [apply M_eol; exact E | exact H].
  - destruct (at_word_boundary st) eqn:E; [|discriminate].
    exists st. split; [apply M_wordb; exact E | exact H].
  - destruct (rmatch fl r st Some) eqn:E; [discriminate|].
    exists st. split; [apply M_neglook; exact E | exact H].
Qed.

(** A match only moves forward in the input. *)
Lemma Matches_extends r st st' :
  Matches fl r st st' ->
  exists x, rest st = x ++ rest st' /\ pre st' = rev x ++ pre st.
Proof.
  induction 1;
    try (exists []; split; reflexivity);
    try (exists [x]; split; reflexivity).
  - destruct IHMatches1 as (x1 & R1 & P1), IHMatches2 as (x2 & R2 & P2).
    exists (x1 ++ x2). rewrite R1, R2, P2, P1, rev_app_distr, !app_assoc.
    split; reflexivity.
  - assumption.
  - assumption.
  - destruct IHMatches1 as (x1 & R1 & P1), IHMatches2 as (x2 & R2 & P2).
    exists (x1 ++ x2). rewrite R1, R2, P2, P1, rev_app_distr, !app_assoc.
    split; reflexivity.
  - assumption.
Qed.

Lemma substring_app_r (s a w : jstring) : substring s w -> substring s (a ++ w).
Proof.
  intros (x & y & ->). exists (a ++ x), y. rewrite <- app_assoc. reflexivity.
Qed.

Lemma substring_app_l (s w b : jstring) : substring s w -> substring s (w ++ b).
Proof.
  intros (x & y & ->). exists x, (y ++ b). rewrite <- !app_assoc. reflexivity.
Qed.

Lemma consumed_prefix st st' x :
  rest st = x ++ rest st' -> consumed st st' = x.
Proof.
  intros H. unfold consumed. rewrite H, length_app.
  replace (length x + length (rest st') - length (rest st')) with (length x) by lia.
  rewrite firstn_app, Nat.sub_diag, firstn_all. cbn [firstn].
  apply app_nil_r.
Qed.

(** Every capture a match adds is a piece of the input it ran over. *)
Lemma Matches_captures r st st' :
  Matches fl r st st' ->
  forall n s, In (n, s) (caps st') ->
    In (n, s) (caps st) \/ substring s (rest st).
Proof.
  induction 1; intros i s Hin; try (left; exact Hin).
  - destruct (IHMatches2 _ _ Hin) as [Hc|Hs].
    + apply IHMatches1, Hc.
    + right. destruct (Matches_extends _ _ _ H) as (x & R & _).
      rewrite R. apply substring_app_r, Hs.
  - apply IHMatches, Hin.
  - apply IHMatches, Hin.
  - destruct (IHMatches2 _ _ Hin) as [Hc|Hs].
    + apply IHMatches1, Hc.
    + right. destruct (Matches_extends _ _ _ H) as (x & R & _).
      rewrite R. apply substring_app_r, Hs.
  - cbn [set_cap caps] in Hin. destruct Hin as [E|Hin].
    + injection E as <- <-. right.
      destruct (Matches_extends _ _ _ H) as (x & R & _).
      rewrite (consumed_prefix _ _ _ R). exists [], (rest st').
      rewrite R. reflexivity.
    + apply IHMatches, Hin.
Qed.

Lemma Matches_lang r st st' :
  Matches fl r st st' ->
  exists x, rest st = x ++ rest st' /\ lang fl r x.
Proof.
  induction 1; cbn [lang rest];
    try (exists []; split; reflexivity);
    try (exists [x]; split; [reflexivity | exists x; split; [reflexivity | assumption]]).
  - destruct IHMatches1 as (x1 & R1 & L1), IHMatches2 as (x2 & R2 & L2).
    exists (x1 ++ x2). split.
    + rewrite R1, R2, app_assoc. reflexivity.
    + exists x1, x2. auto.
  - destruct IHMatches as (x & R & L). exists x. auto.
  - destruct IHMatches as (x & R & L). exists x. auto.
  - exists []. split; [reflexivity|]. exists []. split; [reflexivity | constructor].
  - destruct IHMatches1 as (x1 & R1 & L1), IHMatches2 as (x2 & R2 & L2).
    cbn [lang] in L2. destruct L2 as (xs & -> & F).
    exists (x1 ++ concat xs). split.
    + rewrite R1, R2, app_assoc. reflexivity.
    + exists (x1 :: xs). split; [reflexivity | constructor; assumption].
  - destruct IHMatches as (x & R & L). exists x. auto.
Qed.

End Soundness.

(** The texts of some patterns. *)

Lemma lang_spaces (g : bool) (min : nat) (x : jstring) :
  lang no_flags (RRep rspace min None g) x -> forallb is_space x = true.
Proof.
  cbn [lang rspace]. intros (xs & -> & F).
  induction F as [|y ys (c & -> & Hc) _ IH]; [reflexivity|].
  cbn [concat app forallb]. cbn in Hc. rewrite orb_false_r in Hc.
  rewrite Hc, IH. reflexivity.
Qed.

Lemma lang_digits (g : bool) (min : nat) (x : jstring) :
  lang no_flags (RRep rdigit min None g) x -> forallb is_digit x = true.
Proof.
  cbn [lang rdigit]. intros (xs & -> & F).
  induction F as [|y ys (c & -> & Hc) _ IH]; [reflexivity|].
  cbn [concat app forallb]. cbn in Hc. rewrite orb_false_r in Hc.
  rewrite Hc, IH. reflexivity.
Qed.

Lemma lang_char (c : char) (x : jstring) :
  lang no_flags (RChar c) x -> x = [c].
Proof.
  cbn. intros (y & -> & H). apply N.eqb_eq in H. subst. reflexivity.
Qed.

Arguments rep_loop : simpl never.

(** ** [escapeHtml] *)

Section EscapeHtml.

Lemma match_at_html_special before c t :
  match_at html_special before (c :: t) =
  if ((c =? 38) || (c =? 60) || (c =? 62) || (c =? 34) || (c =? 39))%N
  then Some (MState (c :: before) t []) else None.
Proof.
  unfold match_at. cbn. rewrite !orb_assoc, orb_false_r. reflexivity.
Qed.

Lemma entity_escape_char (c : char) i :
  ((c =? 38) || (c =? 60) || (c =? 62) || (c =? 34) || (c =? 39))%N = true ->
  entity_or_self (MkMatch [c] i []) = escape_char c.
Proof.
  intros H. rewrite !orb_true_iff in H.
  destruct H as [[[[H|H]|H]|H]|H]; apply N.eqb_eq in H; subst c; reflexivity.
Qed.

Lemma plain_escape_char (c : char) :
  ((c =? 38) || (c =? 60) || (c =? 62) || (c =? 34) || (c =? 39))%N = false ->
  escape_char c = [c].
Proof.
  intros H. rewrite !orb_false_iff in H.
  destruct H as [[[[H1 H2] H3] H4] H5].
  unfold escape_char, ch. simpl N_of_ascii.
  rewrite H1, H2, H3, H4, H5. reflexivity.
Qed.

Lemma escape_scan :
  forall after before,
    replace_scan html_special entity_or_self 0 before after = flat_map escape_char after.
Proof.
  induction after as [|c t IH]; intros before.
  - reflexivity.
  - cbn [replace_scan flat_map]. rewrite match_at_html_special.
    destruct ((c =? 38) || (c =? 60) || (c =? 62) || (c =? 34) || (c =? 39))%N eqn:E.
    + rewrite result_of_one, match_len_one. cbn [Nat.eqb Nat.sub].
      cbn [replace_scan]. rewrite (entity_escape_char _ _ E).
      rewrite IH. reflexivity.
    + rewrite (plain_escape_char _ E), IH. reflexivity.
Qed.

Lemma escape_char_inert (c : char) : forallb html_inert (escape_char c) = true.
Proof.
  destruct ((c =? 38) || (c =? 60) || (c =? 62) || (c =? 34) || (c =? 39))%N eqn:E.
  - rewrite !orb_true_iff in E.
    destruct E as [[[[H|H]|H]|H]|H]; apply N.eqb_eq in H; subst c; reflexivity.
  - rewrite (plain_escape_char _ E). simpl. rewrite andb_true_r.
    rewrite !orb_false_iff in E. destruct E as [[[[H1 H2] H3] H4] H5].
    unfold html_inert, ch. simpl N_of_ascii. rewrite H2, H3, H4, H5. reflexivity.
Qed.

Lemma escapeHtml_string (s : jstring) :
  escapeHtml (VStr s) = flat_map escape_char s.
Proof.
  destruct s as [|c t]; [reflexivity|].
  unfold escapeHtml. cbn [truthy is_string negb orb str_of].
  apply escape_scan.
Qed.

Lemma escapeHtml_not_string (v : value) :
  is_string v = false -> escapeHtml v = [].
Proof.
  intros H. unfold escapeHtml. rewrite H. cbn [negb]. rewrite orb_true_r.
  reflexivity.
Qed.

(** C9.  [escapeHtml] returns a string for every argument; the result
    holds no less-than sign, greater-than sign, double quote or single
    quote; and for an argument that is not a string (undefined, null, a
    boolean, a number, an array, another object) or is the empty string the
    result is the empty string. *)
Theorem escapeHtml_inert_and_total :
  forall text : value,
    forallb html_inert (escapeHtml text) = true
    /\ match text with
       | VStr (c :: s) => escapeHtml text = flat_map escape_char (c :: s)
       | _ => escapeHtml text = []
       end.
Proof.
  intros text. split.
  - destruct text as [| |b|n|s|l|];
      try (rewrite escapeHtml_not_string by reflexivity; reflexivity).
    rewrite escapeHtml_string.
    induction s as [|c t IH]; [reflexivity|].
    cbn [flat_map]. rewrite forallb_app, escape_char_inert, IH. reflexivity.
  - destruct text as [| |b|n|s|l|];
      try (apply escapeHtml_not_string; reflexivity).
    destruct s; [reflexivity|]. apply escapeHtml_string.
Qed.

End EscapeHtml.

(** ** [parseMetadata]: the quotes around a value *)

Section Quotes.

Lemma match_at_outer_quotes_start c t :
  match_at outer_quotes [] (c :: t) =
  if is_quote c then Some (MState [c] t []) else None.
Proof.
  unfold match_at, is_quote. cbn. rewrite orb_false_r.
  destruct ((c =? 34) || (c =? 39))%N; reflexivity.
Qed.

Lemma match_at_outer_quotes_inside b before c t :
  match_at outer_quotes (b :: before) (c :: t) =
  if is_quote c
  then match t with
       | [] => Some (MState (c :: b :: before) [] [])
       | _ :: _ => None
       end
  else None.
Proof.
  unfold match_at, is_quote. cbn. rewrite orb_false_r.
  destruct ((c =? 34) || (c =? 39))%N; [|reflexivity].
  destruct t; reflexivity.
Qed.

Lemma match_at_outer_quotes_end before :
  match_at outer_quotes before [] = None.
Proof. unfold match_at. cbn. destruct before; reflexivity. Qed.

Lemma outer_quotes_scan_inside :
  forall after b before,
    replace_scan outer_quotes removed 0 (b :: before) after =
    strip_trailing_quote after.
Proof.
  induction after as [|c t IH]; intros b before.
  - cbn [replace_scan]. rewrite match_at_outer_quotes_end. reflexivity.
  - cbn [replace_scan]. rewrite match_at_outer_quotes_inside.
    cbn [strip_trailing_quote].
    destruct (is_quote c).
    + destruct t as [|c' t'].
      * rewrite match_len_one. cbn [removed app Nat.eqb Nat.sub replace_scan].
        rewrite match_at_outer_quotes_end. reflexivity.
      * rewrite IH. reflexivity.
    + rewrite IH. destruct t; reflexivity.
Qed.

Lemma strip_trailing_quote_cons (c : char) (t : jstring) :
  is_quote c = false -> c :: strip_trailing_quote t = strip_trailing_quote (c :: t).
Proof. intros H. cbn [strip_trailing_quote]. rewrite H. destruct t; reflexivity. Qed.

(** The replace of [parseMetadata] takes one quote character off the
    front of the value and one off the end of what is left. *)
Lemma replace_outer_quotes (value : jstring) :
  replace_all outer_quotes removed value = strip_outer_quotes value.
Proof.
  unfold replace_all, strip_outer_quotes.
  destruct value as [|c t].
  - reflexivity.
  - cbn [replace_scan strip_leading_quote].
    rewrite match_at_outer_quotes_start.
    destruct (is_quote c) eqn:Q.
    + rewrite match_len_one. cbn [removed app Nat.eqb Nat.sub].
      apply outer_quotes_scan_inside.
    + rewrite outer_quotes_scan_inside. apply strip_trailing_quote_cons, Q.
Qed.

Lemma strip_trailing_quote_snoc (v : jstring) (q : char) :
  is_quote q = true -> strip_trailing_quote (v ++ [q]) = v.
Proof.
  intros Q. induction v as [|c t IH]; simpl.
  - rewrite Q. reflexivity.
  - rewrite IH. destruct (t ++ [q]) eqn:E; [|reflexivity].
    destruct t; discriminate.
Qed.

End Quotes.

Section MetadataLine.

(** C4, as the code has it.  For a front-matter line with a key and a
    value, [parseMetadata] stores the value with one quote character
    (double or single) taken off its front when it starts with one and one
    taken off the end of what is left when that ends with one, whether or
    not the two characters are the same; so a value written as a quote
    character, [v], and a quote character is stored as [v]. *)
Theorem metadata_line_strips_outer_quotes :
  forall (metadata : object jstring) (line : jstring) (colonIndex : nat),
    indexOf (ch ":") (trim line) = Some colonIndex ->
    nonempty (trim (firstn colonIndex (trim line))) = true ->
    nonempty (trim (skipn (colonIndex + 1) (trim line))) = true ->
    metadata_line metadata line =
      obj_assign metadata (trim (firstn colonIndex (trim line)))
        (strip_outer_quotes (trim (skipn (colonIndex + 1) (trim line))))
    /\ (forall (q q' : char) (v : jstring),
          is_quote q = true -> is_quote q' = true ->
          strip_outer_quotes (q :: v ++ [q']) = v).
Proof.
  intros metadata line colonIndex Hcolon Hkey Hvalue. split.
  - unfold metadata_line. rewrite Hcolon.
    destruct (trim line) as [|c t] eqn:Et.
    + destruct colonIndex; discriminate.
    + cbn [nonempty negb]. rewrite Hkey, Hvalue. cbn [andb].
      rewrite replace_outer_quotes. reflexivity.
  - intros q q' v Hq Hq'. unfold strip_outer_quotes.
    cbn [strip_leading_quote]. rewrite Hq.
    apply strip_trailing_quote_snoc, Hq'.
Qed.

Lemma metadata_line_strips_outer_quotes_witness :
  metadata_line [] (lit "title: \qHello\q") =
  obj_assign [] (lit "title") (lit "Hello").
Proof.
  exact (proj1 (metadata_line_strips_outer_quotes [] (lit "title: \qHello\q") 5
                  eq_refl eq_refl eq_refl)).
Defined.

(** The claim C4 says that a value whose leading and trailing quote
    characters do not pair up is left as it is.  The value of the line
    [k: \qv'] starts with a double quote and ends with a single one, and
    [parseMetadata] stores [v]. *)
Lemma mismatched_quotes_are_stripped :
  obj_get (fst (parseMetadata (lit "---\nk: \qv'\n---\nbody"))) (lit "k")
    = Some (lit "v")
  /\ obj_get (fst (parseMetadata (lit "---\nk: \qv'\n---\nbody"))) (lit "k")
    <> Some (lit "\qv'").
Proof. split; [reflexivity | discriminate]. Qed.

End MetadataLine.

(** ** [countWords] and [estimateReadTime] *)

Section Metrics.

Lemma run_ext (p q : char -> bool) :
  (forall x, p x = q x) -> forall s, run p s = run q s.
Proof.
  intros H s. induction s as [|c t IH]; simpl; [reflexivity|].
  rewrite H, IH. reflexivity.
Qed.

Lemma after_run_ext (p q : char -> bool) :
  (forall x, p x = q x) -> forall s, after_run p s = after_run q s.
Proof.
  intros H s. induction s as [|c t IH]; simpl; [reflexivity|].
  rewrite H, IH. reflexivity.
Qed.

Lemma greedy_try_until (p stop : char -> bool) :
  (forall x, stop x = negb (p x)) ->
  forall after before cs,
    greedy_try p (fun st' => step_char stop st' Some) before after cs =
    match after_run p after with
    | c :: r => Some (MState (c :: rev (run p after) ++ before) r cs)
    | [] => None
    end.
Proof.
  intros H. induction after as [|c t IH]; intros before cs.
  - reflexivity.
  - cbn [greedy_try run after_run]. destruct (p c) eqn:Pc.
    + rewrite IH. destruct (after_run p t) as [|c' r].
      * rewrite step_char_cons, H, Pc. reflexivity.
      * cbn [rev]. rewrite <- app_assoc. reflexivity.
    + rewrite step_char_cons, H, Pc. reflexivity.
Qed.

Lemma match_at_any_tag before c t :
  match_at any_tag before (c :: t) =
  if (c =? 60)%N then
    match after_run not_gt t with
    | c' :: r => Some (MState (c' :: rev (run not_gt t) ++ c :: before) r [])
    | [] => None
    end
  else None.
Proof.
  unfold match_at. cbn. destruct (c =? 60)%N; [|reflexivity].
  rewrite rep_loop_star_class by (simpl; lia).
  rewrite greedy_try_until.
  - rewrite (after_run_ext _ not_gt), (run_ext _ not_gt); try reflexivity;
      intros x; unfold not_gt; destruct (x =? 62)%N; reflexivity.
  - intros x. destruct (x =? 62)%N; reflexivity.
Qed.

Lemma match_at_any_tag_nil before : match_at any_tag before [] = None.
Proof. reflexivity. Qed.

Lemma after_run_not_gt_head (s : jstring) c r :
  after_run not_gt s = c :: r -> c = 62%N.
Proof.
  induction s as [|x t IH]; cbn [after_run]; [discriminate|].
  unfold not_gt at 1. destruct (N.eqb_spec x 62); cbn [negb].
  - intros [= <- _]. assumption.
  - apply IH.
Qed.

Lemma after_run_not_gt_exists (s : jstring) :
  existsb (fun x => (x =? ch ">")%N) s =
  match after_run not_gt s with [] => false | _ :: _ => true end.
Proof.
  induction s as [|x t IH]; cbn [existsb after_run]; [reflexivity|].
  unfold not_gt at 1. unfold ch at 1. simpl N_of_ascii.
  destruct (x =? 62)%N; cbn [negb orb]; [reflexivity|].
  apply IH.
Qed.

Lemma strip_scan :
  forall after before,
    replace_scan any_tag removed 0 before after = strip_tags_from false after
    /\ (forall r, after_run not_gt after = 62%N :: r ->
          replace_scan any_tag removed (S (length (run not_gt after))) before after
          = strip_tags_from true after).
Proof.
  induction after as [|c t IH]; intros before.
  - split; [reflexivity|]. intros r H. discriminate.
  - split.
    + cbn [replace_scan strip_tags_from]. rewrite match_at_any_tag.
      rewrite after_run_not_gt_exists.
      unfold ch. simpl N_of_ascii.
      destruct (c =? 60)%N; cbn [andb].
      * destruct (after_run not_gt t) as [|c' r] eqn:E.
        -- f_equal. apply IH.
        -- pose proof (after_run_not_gt_head _ _ _ E) as ->.
           unfold match_len. cbn [rest length removed app].
           pose proof (length_after_run not_gt t) as L. rewrite E in L.
           cbn [length] in L.
           replace (S (length t) - length r) with (S (S (length (run not_gt t))))
             by lia.
           cbn [Nat.eqb Nat.sub].
           apply (proj2 (IH (c :: before)) r eq_refl).
      * f_equal. apply IH.
    + intros r H. cbn [run after_run] in *.
      cbn [strip_tags_from]. unfold ch. simpl N_of_ascii.
      unfold not_gt in H at 1. unfold not_gt at 1.
      destruct (c =? 62)%N; cbn [negb] in *.
      * cbn [length replace_scan]. apply IH.
      * cbn [length replace_scan]. apply (proj2 (IH (c :: before)) r H).
Qed.

(** Removing the matches of the tag pattern is tag stripping. *)
Lemma replace_any_tag (s : jstring) :
  replace_all any_tag removed s = strip_tags s.
Proof. apply strip_scan. Qed.

Lemma match_at_space_run before c t :
  match_at space_run before (c :: t) =
  if is_space c
  then Some (MState (rev (run is_space t) ++ c :: before) (after_run is_space t) [])
  else None.
Proof.
  unfold match_at. cbn.
  rewrite rep_loop_plus_class by (simpl; lia).
  rewrite orb_false_r. destruct (is_space c); [|reflexivity].
  rewrite greedy_try_accept.
  rewrite (after_run_ext _ is_space), (run_ext _ is_space); try reflexivity;
    intros x; rewrite orb_false_r; reflexivity.
Qed.

Lemma split_scan_pieces :
  forall after cur before,
    length (split_scan space_run 0 cur before after) = pieces false after
    /\ length (split_scan space_run (length (run is_space after)) cur before after)
       = pieces true after.
Proof.
  induction after as [|c t IH]; intros cur before.
  - split; reflexivity.
  - cbn [run pieces]. destruct (is_space c) eqn:Sc.
    + split.
      * cbn [split_scan]. rewrite match_at_space_run, Sc.
        unfold match_len. cbn [rest length].
        pose proof (length_after_run is_space t) as L.
        replace (S (length t) - length (after_run is_space t))
          with (S (length (run is_space t))) by lia.
        cbn [Nat.eqb Nat.sub length]. rewrite Nat.sub_0_r.
        change (1 + pieces true t) with (S (pieces true t)).
        f_equal. exact (proj2 (IH _ _)).
      * cbn [length split_scan]. exact (proj2 (IH _ _)).
    + assert (H : length (split_scan space_run 0 cur before (c :: t))
                  = pieces false t).
      { cbn [split_scan]. rewrite match_at_space_run, Sc.
        exact (proj1 (IH _ _)). }
      split; [exact H | cbn [length]; exact H].
Qed.

Lemma trimStart_snoc (s : jstring) (c : char) :
  is_space c = false -> trimStart (s ++ [c]) = trimStart s ++ [c].
Proof.
  intros Hc. induction s as [|x t IH]; simpl.
  - rewrite Hc. reflexivity.
  - destruct (is_space x); [apply IH | reflexivity].
Qed.

Lemma trimStart_head (s : jstring) c t :
  trimStart s = c :: t -> is_space c = false.
Proof.
  induction s as [|x s' IH]; simpl; [discriminate|].
  destruct (is_space x) eqn:E; [apply IH|].
  intros [= <- _]. exact E.
Qed.

Lemma trim_head (s : jstring) c t :
  trim s = c :: t -> is_space c = false.
Proof.
  unfold trim, trimEnd. destruct (trimStart s) as [|x u] eqn:E.
  - simpl. discriminate.
  - pose proof (trimStart_head _ _ _ E) as Hx.
    cbn [rev]. rewrite trimStart_snoc by exact Hx.
    rewrite rev_app_distr. cbn [rev app]. intros [= <- _]. exact Hx.
Qed.

Lemma trim_last (s : jstring) c t :
  trim s = c :: t -> is_space (last (c :: t) 32%N) = false.
Proof.
  unfold trim, trimEnd. intros H.
  destruct (trimStart (rev (trimStart s))) as [|x w] eqn:E.
  - discriminate H.
  - rewrite <- H. cbn [rev]. rewrite last_last.
    apply (trimStart_head _ _ _ E).
Qed.

Lemma pieces_words :
  forall s,
    s <> [] -> is_space (last s 32%N) = false ->
    pieces false s = S (count_words_from true s)
    /\ pieces true s = count_words_from false s.
Proof.
  induction s as [|c t IH]; intros Hne Hlast; [contradiction|].
  destruct t as [|c' t'].
  - cbn [last] in Hlast. cbn [pieces count_words_from]. rewrite Hlast.
    split; reflexivity.
  - assert (Hl : is_space (last (c' :: t') 32%N) = false) by exact Hlast.
    destruct (IH ltac:(discriminate) Hl) as [IH1 IH2].
    remember (c' :: t') as t eqn:Et.
    cbn [pieces count_words_from]. destruct (is_space c); cbn [Nat.add].
    + rewrite IH2. split; reflexivity.
    + rewrite IH1. split; reflexivity.
Qed.

Lemma ceil_div_200 (a : nat) : ceil_div a 200 = (a + 199) / 200.
Proof.
  unfold ceil_div.
  pose proof (Nat.div_mod_eq a 200) as D.
  pose proof (Nat.mod_upper_bound a 200 ltac:(discriminate)) as B.
  destruct (Nat.eqb_spec (a mod 200) 0) as [Z|NZ].
  - apply (Nat.div_unique (a + 199) 200 (a / 200) 199); lia.
  - apply (Nat.div_unique (a + 199) 200 (S (a / 200)) (a mod 200 - 1)); lia.
Qed.

(** C8.  [countWords] is the number of maximal runs of units that are not
    white space in the text left when every tag (a less-than sign up to
    the first greater-than sign after it) is taken out of the content and
    the result is trimmed; it is 0 for the empty content.
    [estimateReadTime] is the greater of 1 and the word count divided by
    200 and rounded up, so it is never below 1. *)
Theorem countWords_estimateReadTime_spec :
  forall content : jstring,
    countWords content = count_words (trim (strip_tags content))
    /\ countWords [] = 0
    /\ estimateReadTime content = Nat.max 1 ((countWords content + 199) / 200)
    /\ 1 <= estimateReadTime content.
Proof.
  intros content. repeat split.
  - unfold countWords. rewrite replace_any_tag.
    destruct (trim (strip_tags content)) as [|c t] eqn:E; [reflexivity|].
    cbn [nonempty]. unfold split_re.
    rewrite (proj1 (split_scan_pieces _ _ _)).
    pose proof (trim_head _ _ _ E) as Hc.
    pose proof (trim_last _ _ _ E) as Hl.
    rewrite (proj1 (pieces_words (c :: t) ltac:(discriminate) Hl)).
    unfold count_words. cbn [count_words_from]. rewrite Hc. reflexivity.
  - unfold estimateReadTime. rewrite ceil_div_200. reflexivity.
  - unfold estimateReadTime. lia.
Qed.

End Metrics.

(** ** [parseMetadata]: front matter without its closing delimiter *)

Section FrontMatter.

Lemma split_char_nonempty (sep : char) (s : jstring) :
  exists l ls, split_char sep s = l :: ls.
Proof.
  induction s as [|c t (l & ls & IH)]; cbn [split_char].
  - eauto.
  - destruct (c =? sep)%N; [eauto|]. rewrite IH. eauto.
Qed.

Lemma split_char_app (sep : char) (a b : jstring) :
  split_char sep (a ++ sep :: b) = split_char sep a ++ split_char sep b.
Proof.
  induction a as [|c t IH]; cbn [app split_char].
  - rewrite N.eqb_refl. reflexivity.
  - destruct (c =? sep)%N.
    + rewrite IH. reflexivity.
    + rewrite IH. destruct (split_char_nonempty sep t) as (l & ls & ->).
      reflexivity.
Qed.

Lemma split_char_lf_head (s : jstring) :
  exists ls, split_char 10%N s = run not_lf s :: ls.
Proof.
  induction s as [|c t (ls & IH)]; cbn [split_char run].
  - eauto.
  - unfold not_lf at 1. destruct (c =? 10)%N; cbn [negb]; [eauto|].
    rewrite IH. eauto.
Qed.

Lemma run_spaces_then_lf (w r : jstring) :
  forallb is_space w = true ->
  forallb is_space (run not_lf (w ++ 10%N :: r)) = true.
Proof.
  induction w as [|y w IH]; cbn [app run forallb].
  - reflexivity.
  - intros H. apply andb_prop in H. destruct H as [Hy Hw].
    destruct (not_lf y); [|reflexivity].
    cbn [forallb]. rewrite Hy, IH by exact Hw. reflexivity.
Qed.

Lemma metadata_source :
  source (pattern p_metadata) =
  RSeq RBol
    (RSeq (RSeq (RChar 45) (RSeq (RChar 45) (RChar 45)))
       (RSeq (star rspace) (RSeq (RChar 10)
          (RSeq (RGroup 1 (lazy_star rany)) (RSeq (RChar 10)
             (RSeq (RSeq (RChar 45) (RSeq (RChar 45) (RChar 45)))
                (RSeq (star rspace) (RChar 10)))))))).
Proof. reflexivity. Qed.

(** A match of the front-matter pattern at the start of a text ends with
    a line feed, three hyphens, white space and a line feed. *)
Lemma metadata_match_shape (content : jstring) z :
  match_at (pattern p_metadata) [] content = Some z ->
  exists a w r,
    content = a ++ 10%N :: lit "---" ++ w ++ 10%N :: r
    /\ forallb is_space w = true.
Proof.
  unfold match_at. intros H.
  destruct (rmatch_sound _ _ _ _ _ H) as (st' & M & _).
  destruct (Matches_lang _ _ _ _ M) as (x & R & L).
  cbn [rest] in R. rewrite metadata_source in L.
  change (reflags (pattern p_metadata)) with no_flags in L.
  cbn [lang] in L.
  destruct L as (x0 & x1 & -> & -> & L).
  destruct L as (h & x2 & -> & Hh & L).
  destruct L as (w1 & x3 & -> & Hw1 & L).
  destruct L as (n1 & x4 & -> & Hn1 & L).
  destruct L as (body & x5 & -> & Hbody & L).
  destruct L as (n2 & x6 & -> & Hn2 & L).
  destruct L as (h2 & x7 & -> & Hh2 & L).
  destruct L as (w2 & n3 & -> & Hw2 & Hn3).
  destruct Hh2 as (d1 & x8 & -> & Hd1 & d2 & d3 & -> & Hd2 & Hd3).
  apply (lang_char 45%N d1) in Hd1. apply (lang_char 45%N d2) in Hd2.
  apply (lang_char 45%N d3) in Hd3. subst d1 d2 d3.
  apply (lang_char 10%N n2) in Hn2. apply (lang_char 10%N n3) in Hn3. subst n2 n3.
  exists (h ++ w1 ++ n1 ++ body), w2, (rest st'). split.
  - rewrite R. change (lit "---") with [45%N; 45%N; 45%N].
    cbn [app]. repeat (rewrite <- app_assoc; cbn [app]). reflexivity.
  - apply (lang_spaces true 0). exact Hw2.
Qed.

Lemma match_at_metadata_inside b before after :
  match_at (pattern p_metadata) (b :: before) after = None.
Proof. reflexivity. Qed.

Lemma exec_scan_metadata_inside :
  forall after b before, exec_scan (pattern p_metadata) (b :: before) after = None.
Proof.
  induction after as [|c t IH]; intros b before; cbn [exec_scan];
    rewrite match_at_metadata_inside; [reflexivity | apply IH].
Qed.

(** C3.  When the first line of a text is a front-matter delimiter (three
    hyphens, then white space only) and no later line is one,
    [parseMetadata] returns the empty metadata and the whole text, trimmed,
    as the content. *)
Theorem parseMetadata_without_closing_delimiter :
  forall content : jstring,
    is_delimiter_line (hd [] (split_char (ch "010") content)) = true ->
    existsb is_delimiter_line (tl (split_char (ch "010") content)) = false ->
    parseMetadata content = ([], trim content).
Proof.
  intros content _ Hnone.
  unfold parseMetadata, match_pattern, match_first.
  assert (E : match_at (pattern p_metadata) [] content = None).
  { destruct (match_at (pattern p_metadata) [] content) as [z|] eqn:E;
      [exfalso | reflexivity].
    destruct (metadata_match_shape _ _ E) as (a & w & r & -> & Hw).
    change (ch "010") with 10%N in Hnone.
    rewrite split_char_app in Hnone.
    destruct (split_char_nonempty 10%N a) as (l & ls & Ea).
    rewrite Ea in Hnone. cbn [app tl] in Hnone.
    rewrite existsb_app in Hnone. apply orb_false_elim in Hnone.
    destruct Hnone as [_ Hnone].
    destruct (split_char_lf_head (lit "---" ++ w ++ 10%N :: r)) as (ls' & El).
    rewrite El in Hnone. cbn [existsb] in Hnone.
    apply orb_false_elim in Hnone. destruct Hnone as [Hd _].
    cbn in Hd. rewrite run_spaces_then_lf in Hd by exact Hw. discriminate. }
  destruct content as [|c t]; cbn [exec_scan]; rewrite E.
  - reflexivity.
  - rewrite exec_scan_metadata_inside. reflexivity.
Qed.

Lemma parseMetadata_without_closing_delimiter_witness :
  parseMetadata (lit "---\ntitle: Hello\n# Hi") =
  ([], lit "---\ntitle: Hello\n# Hi").
Proof.
  exact (parseMetadata_without_closing_delimiter
           (lit "---\ntitle: Hello\n# Hi") eq_refl eq_refl).
Defined.

End FrontMatter.

(** ** [parseLists] *)

Section Lists.

Lemma list_step_unordered st line :
  kind_of line = Unordered ->
  list_step st line =
  let st1 :=
    if negb (inUnorderedList st) then
      ListState ((if inOrderedList st then result st ++ [ol_close] else result st)
                 ++ [ul_open]) true false
    else st in
  push st1 (list_item (item_text line)).
Proof.
  unfold kind_of, item_text, list_step.
  destruct (match_first unordered_item line) as [um|].
  - intros _. destruct (inUnorderedList st) eqn:U; cbn [negb].
    + reflexivity.
    + destruct (inOrderedList st) eqn:O; unfold push; cbn; rewrite ?U, ?O; reflexivity.
  - destruct (match_first ordered_item line); discriminate.
Qed.

Lemma list_step_ordered st line :
  kind_of line = Ordered ->
  list_step st line =
  let st1 :=
    if negb (inOrderedList st) then
      ListState ((if inUnorderedList st then result st ++ [ul_close] else result st)
                 ++ [ol_open]) false true
    else st in
  push st1 (list_item (item_text line)).
Proof.
  unfold kind_of, item_text, list_step.
  destruct (match_first unordered_item line) as [um|]; [discriminate|].
  destruct (match_first ordered_item line) as [om|]; [|discriminate].
  intros _. destruct (inOrderedList st) eqn:O; cbn [negb].
  - reflexivity.
  - destruct (inUnorderedList st) eqn:U; unfold push; cbn; rewrite ?U, ?O; reflexivity.
Qed.

Lemma list_step_plain st line :
  kind_of line = Plain ->
  list_step st line =
  ListState
    ((if inOrderedList st
      then (if inUnorderedList st then result st ++ [ul_close] else result st)
           ++ [ol_close]
      else (if inUnorderedList st then result st ++ [ul_close] else result st))
     ++ [line]) false false.
Proof.
  unfold kind_of, list_step.
  destruct (match_first unordered_item line) as [um|]; [discriminate|].
  destruct (match_first ordered_item line) as [om|]; [discriminate|].
  intros _. destruct (inUnorderedList st) eqn:U, (inOrderedList st) eqn:O;
    unfold push; cbn; rewrite ?U, ?O; reflexivity.
Qed.

Lemma list_step_one_open st line : one_open st -> one_open (list_step st line).
Proof.
  unfold one_open. intros H. destruct (kind_of line) eqn:K.
  - rewrite (list_step_unordered _ _ K).
    destruct (inUnorderedList st) eqn:U; cbn; [rewrite U; exact H | reflexivity].
  - rewrite (list_step_ordered _ _ K).
    destruct (inOrderedList st) eqn:O; cbn; [rewrite O; exact H | reflexivity].
  - rewrite (list_step_plain _ _ K). reflexivity.
Qed.

Lemma fold_list_step_one_open lines :
  forall st, one_open st -> one_open (fold_left list_step lines st).
Proof.
  induction lines as [|l ls IH]; intros st H; [exact H|].
  apply IH, list_step_one_open, H.
Qed.

Lemma list_step_appends st line :
  exists new, result (list_step st line) = result st ++ new.
Proof.
  destruct (kind_of line) eqn:K.
  - rewrite (list_step_unordered _ _ K).
    destruct (inUnorderedList st), (inOrderedList st); cbn;
      rewrite <- ?app_assoc; eauto.
  - rewrite (list_step_ordered _ _ K).
    destruct (inUnorderedList st), (inOrderedList st); cbn;
      rewrite <- ?app_assoc; eauto.
  - rewrite (list_step_plain _ _ K).
    destruct (inUnorderedList st), (inOrderedList st); cbn;
      rewrite <- ?app_assoc; eauto.
Qed.

Lemma fold_list_step_appends lines :
  forall st, exists new,
    result (fold_left list_step lines st) = result st ++ new.
Proof.
  induction lines as [|l ls IH]; intros st.
  - exists []. cbn. rewrite app_nil_r. reflexivity.
  - cbn [fold_left]. destruct (IH (list_step st l)) as (n2 & E2).
    destruct (list_step_appends st l) as (n1 & E1).
    exists (n1 ++ n2). rewrite E2, E1, app_assoc. reflexivity.
Qed.

Lemma list_lines_from st0 lines :
  exists new,
    (let st := fold_left list_step lines st0 in
     let st := if inUnorderedList st then push st ul_close else st in
     let st := if inOrderedList st then push st ol_close else st in
     result st) = result st0 ++ new.
Proof.
  destruct (fold_list_step_appends lines st0) as (n & E). cbn zeta.
  destruct (fold_left list_step lines st0) as [r u o]. cbn [result] in E.
  subst r. destruct u, o; cbn; rewrite <- ?app_assoc; eauto.
Qed.

(** After a list line of one type and a list line of the other type the
    loop has pushed the first item, the closing tag of its list, the
    opening tag of the other list and the second item, in this order. *)
Lemma two_list_steps st x y :
  one_open st ->
  kind_of x <> Plain -> kind_of y <> Plain -> kind_of x <> kind_of y ->
  exists out1,
    result (list_step (list_step st x) y) =
    out1 ++ [list_item (item_text x); closing (kind_of x);
             opening (kind_of y); list_item (item_text y)].
Proof.
  unfold one_open. intros H Hx Hy Hxy. cbn [inUnorderedList inOrderedList] in H.
  destruct (kind_of x) eqn:Kx, (kind_of y) eqn:Ky; try contradiction.
  - rewrite (list_step_ordered _ _ Ky), (list_step_unordered _ _ Kx).
    destruct st as [r [|] [|]]; try discriminate;
      unfold push; cbn [result inUnorderedList inOrderedList negb closing opening];
      rewrite <- ?app_assoc; cbn [app];
      first [ exists r; reflexivity
            | exists (r ++ [ol_close; ul_open]); rewrite <- app_assoc; reflexivity
            | exists (r ++ [ul_close; ol_open]); rewrite <- app_assoc; reflexivity
            | exists (r ++ [ul_open]); rewrite <- app_assoc; reflexivity
            | exists (r ++ [ol_open]); rewrite <- app_assoc; reflexivity ].
  - rewrite (list_step_unordered _ _ Ky), (list_step_ordered _ _ Kx).
    destruct st as [r [|] [|]]; try discriminate;
      unfold push; cbn [result inUnorderedList inOrderedList negb closing opening];
      rewrite <- ?app_assoc; cbn [app];
      first [ exists r; reflexivity
            | exists (r ++ [ol_close; ul_open]); rewrite <- app_assoc; reflexivity
            | exists (r ++ [ul_close; ol_open]); rewrite <- app_assoc; reflexivity
            | exists (r ++ [ul_open]); rewrite <- app_assoc; reflexivity
            | exists (r ++ [ol_open]); rewrite <- app_assoc; reflexivity ].
Qed.

Lemma kind_eqb_false (a b : line_kind) : kind_eqb a b = false -> a <> b.
Proof. intros H ->. destruct b; discriminate. Qed.

(** C6.  When a line that [parseLists] takes for an item of one list type
    is directly followed by a line it takes for an item of the other type,
    the output has the first item, then the closing tag of the first list,
    then the opening tag of the second list, then the second item: two
    lists, the first closed before the second opens.  For the two lines
    [- a] and [1. b] the output is the unordered list with [a], closed,
    followed by the ordered list with [b]. *)
Theorem parseLists_closes_before_opening_other_type :
  forall (content : jstring) (before : list jstring) (x y : jstring)
         (after : list jstring),
    split_char (ch "010") content = before ++ x :: y :: after ->
    kind_eqb (kind_of x) Plain = false ->
    kind_eqb (kind_of y) Plain = false ->
    kind_eqb (kind_of x) (kind_of y) = false ->
    (exists out1 out2,
       parseLists content =
       join (lit "\n")
         (out1 ++ [list_item (item_text x); closing (kind_of x);
                   opening (kind_of y); list_item (item_text y)] ++ out2))
    /\ parseLists (lit "- a\n1. b") =
       lit "<ul class=\qblog-list\q>\n<li class=\qblog-list-item\q>a</li>\n</ul>\n<ol class=\qblog-list blog-ordered-list\q>\n<li class=\qblog-list-item\q>b</li>\n</ol>".
Proof.
  intros content before x y after Hsplit Hx Hy Hxy.
  split; [|reflexivity].
  apply kind_eqb_false in Hx, Hy, Hxy.
  unfold parseLists, list_lines. rewrite Hsplit, fold_left_app.
  cbn [fold_left].
  set (st0 := fold_left list_step before (ListState [] false false)).
  assert (H0 : one_open st0)
    by (apply fold_list_step_one_open; reflexivity).
  destruct (two_list_steps st0 x y H0 Hx Hy Hxy) as (out1 & E).
  destruct (list_lines_from (list_step (list_step st0 x) y) after) as (out2 & E2).
  cbn zeta in E2. exists out1, out2. rewrite E2, E, <- app_assoc. reflexivity.
Qed.

Lemma parseLists_closes_before_opening_other_type_witness :
  exists out1 out2,
    parseLists (lit "intro\n* one\n2. two\nend") =
    join (lit "\n")
      (out1 ++ [list_item (lit "one"); ul_close; ol_open; list_item (lit "two")]
            ++ out2).
Proof.
  exact (proj1 (parseLists_closes_before_opening_other_type
                  (lit "intro\n* one\n2. two\nend")
                  [lit "intro"] (lit "* one") (lit "2. two") [lit "end"]
                  eq_refl eq_refl eq_refl eq_refl)).
Defined.

(** *** The two item patterns exclude each other *)

Lemma exec_scan_anchored p :
  (forall b before after, match_at p (b :: before) after = None) ->
  forall after b before, exec_scan p (b :: before) after = None.
Proof.
  intros H. induction after as [|c t IH]; intros b before; cbn [exec_scan];
    rewrite H; [reflexivity | apply IH].
Qed.

Lemma match_first_anchored p line m :
  (forall b before after, match_at p (b :: before) after = None) ->
  match_first p line = Some m ->
  exists st', match_at p [] line = Some st'.
Proof.
  intros H. unfold match_first. destruct line as [|c t]; cbn [exec_scan].
  - destruct (match_at p [] []); [eauto | discriminate].
  - destruct (match_at p [] (c :: t)); [eauto|].
    rewrite (exec_scan_anchored p H). discriminate.
Qed.

(** The first unit of a text that is not white space is the same however
    the text is cut. *)
Lemma first_after_spaces :
  forall (w1 w2 : jstring) x y r1 r2,
    w1 ++ x :: r1 = w2 ++ y :: r2 ->
    forallb is_space w1 = true -> forallb is_space w2 = true ->
    is_space x = false -> is_space y = false -> x = y.
Proof.
  induction w1 as [|a w1 IH]; intros [|b w2] x y r1 r2 E H1 H2 Hx Hy;
    cbn [app forallb] in *.
  - congruence.
  - injection E as -> _. apply andb_prop in H2. destruct H2. congruence.
  - injection E as <- _. apply andb_prop in H1. destruct H1. congruence.
  - injection E as _ E. apply andb_prop in H1, H2.
    eapply IH; try eassumption; tauto.
Qed.

Lemma unordered_shape line st' :
  match_at unordered_item [] line = Some st' ->
  exists w m r,
    line = w ++ m :: r /\ forallb is_space w = true
    /\ (m = 45 \/ m = 42 \/ m = 43)%N.
Proof.
  unfold match_at. intros H.
  destruct (rmatch_sound _ _ _ _ _ H) as (st1 & M & _).
  destruct (Matches_lang _ _ _ _ M) as (x & R & L).
  cbn [rest] in R.
  change (reflags unordered_item) with no_flags in L.
  change (source unordered_item)
    with (RSeq RBol (RSeq (star rspace) (RSeq (one_of "-*+")
            (RSeq (plus rspace) (RSeq (RGroup 1 (plus RDot)) REol))))) in L.
  cbn [lang] in L.
  destruct L as (x0 & x1 & -> & -> & w & x2 & -> & Hw & L).
  destruct L as (mm & x3 & -> & (m & -> & Hm) & _).
  exists w, m, (x3 ++ rest st1). split; [|split].
  - rewrite R. cbn [app]. rewrite <- !app_assoc. reflexivity.
  - apply (lang_spaces true 0), Hw.
  - cbn in Hm. rewrite orb_false_r, !orb_true_iff, !N.eqb_eq in Hm. tauto.
Qed.

Lemma ordered_shape line st' :
  match_at ordered_item [] line = Some st' ->
  exists w m r,
    line = w ++ m :: r /\ forallb is_space w = true
    /\ (is_digit m = true \/ m = 46%N).
Proof.
  unfold match_at. intros H.
  destruct (rmatch_sound _ _ _ _ _ H) as (st1 & M & _).
  destruct (Matches_lang _ _ _ _ M) as (x & R & L).
  cbn [rest] in R.
  change (reflags ordered_item) with no_flags in L.
  change (source ordered_item)
    with (RSeq RBol (RSeq (star rspace) (RSeq (plus rdigit) (RSeq (RChar 46)
            (RSeq (plus rspace) (RSeq (RGroup 1 (plus RDot)) REol)))))) in L.
  cbn [lang] in L.
  destruct L as (x0 & x1 & -> & -> & w & x2 & -> & Hw & L).
  destruct L as (ds & x3 & -> & Hds & dot & x4 & -> & Hdot & _).
  apply (lang_spaces true 0) in Hw. apply (lang_digits true 1) in Hds.
  destruct Hdot as (d & -> & Hd). cbn in Hd. apply N.eqb_eq in Hd. subst d.
  destruct ds as [|d ds].
  - exists w, 46%N, (x4 ++ rest st1). split; [|split; [exact Hw | tauto]].
    rewrite R. cbn [app]. rewrite <- !app_assoc. reflexivity.
  - cbn [forallb] in Hds. apply andb_prop in Hds. destruct Hds as [Hd _].
    exists w, d, (ds ++ 46%N :: x4 ++ rest st1).
    split; [|split; [exact Hw | tauto]].
    rewrite R. cbn [app]. rewrite <- !app_assoc. cbn [app].
    rewrite <- !app_assoc. reflexivity.
Qed.

Lemma digit_not_space (m : char) : is_digit m = true -> is_space m = false.
Proof.
  unfold is_digit, is_space. intros H. apply andb_prop in H.
  destruct H as [H1 H2]. apply N.leb_le in H1, H2.
  repeat match goal with
         | |- context [(?a <=? ?b)%N] => destruct (N.leb_spec a b)
         | |- context [(?a =? ?b)%N] => destruct (N.eqb_spec a b)
         end; try reflexivity; try lia.
Qed.

(** No line matches both item patterns, so the order in which the loop
    asks them does not matter. *)
Lemma item_patterns_exclusive (line : jstring) :
  matches unordered_item line = true -> matches ordered_item line = false.
Proof.
  unfold matches. intros HU.
  destruct (match_first unordered_item line) as [um|] eqn:U; [|discriminate].
  destruct (match_first ordered_item line) as [om|] eqn:O; [exfalso | reflexivity].
  destruct (match_first_anchored unordered_item _ _ (fun _ _ _ => eq_refl) U)
    as (su & Su).
  destruct (match_first_anchored ordered_item _ _ (fun _ _ _ => eq_refl) O)
    as (so & So).
  destruct (unordered_shape _ _ Su) as (w1 & m1 & r1 & E1 & W1 & M1).
  destruct (ordered_shape _ _ So) as (w2 & m2 & r2 & E2 & W2 & M2).
  assert (S1 : is_space m1 = false)
    by (destruct M1 as [->|[->| ->]]; reflexivity).
  assert (S2 : is_space m2 = false)
    by (destruct M2 as [D| ->]; [apply digit_not_space, D | reflexivity]).
  rewrite E1 in E2.
  pose proof (first_after_spaces _ _ _ _ _ _ E2 W1 W2 S1 S2) as <-.
  destruct M2 as [D| ->].
  - destruct M1 as [->|[->| ->]]; discriminate.
  - destruct M1 as [?|[?|?]]; discriminate.
Qed.

(** What the loop takes a line for is what the patterns say of it. *)
Lemma kind_of_spec (line : jstring) :
  (kind_of line = Unordered <-> matches unordered_item line = true)
  /\ (kind_of line = Ordered <-> matches ordered_item line = true)
  /\ (kind_of line = Plain <->
        matches unordered_item line = false /\ matches ordered_item line = false).
Proof.
  pose proof (item_patterns_exclusive line) as X.
  unfold kind_of, matches in *.
  destruct (match_first unordered_item line), (match_first ordered_item line);
    repeat split; intros; try discriminate; try tauto;
    try (specialize (X eq_refl); discriminate);
    match goal with H : _ /\ _ |- _ => destruct H; discriminate end.
Qed.

(** *** Balance of the list tags *)

Lemma tag_count_snoc pat r x :
  tag_count pat (r ++ [x]) = tag_count pat r + occurrences pat x.
Proof.
  unfold tag_count. rewrite map_app, list_sum_app. cbn. lia.
Qed.

Lemma firstn_snoc (A : Type) (r : list A) (x : A) k :
  firstn k (r ++ [x]) = firstn k r \/ firstn k (r ++ [x]) = r ++ [x].
Proof.
  destruct (Nat.le_gt_cases k (length r)) as [H|H].
  - left. rewrite firstn_app.
    replace (k - length r) with 0 by lia. cbn. apply app_nil_r.
  - right. apply firstn_all2. rewrite length_app. cbn. lia.
Qed.

Lemma balanced_push r u o x u' o' :
  balanced r u o ->
  occurrences (lit "<ul") x + b2n u = occurrences (lit "</ul>") x + b2n u' ->
  occurrences (lit "<ol") x + b2n o = occurrences (lit "</ol>") x + b2n o' ->
  balanced (r ++ [x]) u' o'.
Proof.
  intros (Bu & Bo & Pu & Po) Hu Ho. unfold balanced.
  rewrite !tag_count_snoc. repeat split; try lia.
  - intros k. destruct (firstn_snoc _ r x k) as [-> | ->];
      [apply Pu | rewrite !tag_count_snoc; lia].
  - intros k. destruct (firstn_snoc _ r x k) as [-> | ->];
      [apply Po | rewrite !tag_count_snoc; lia].
Qed.

Lemma balanced_push_inert r u o x :
  balanced r u o -> inert x -> balanced (r ++ [x]) u o.
Proof.
  intros B (H1 & H2 & H3 & H4). apply (balanced_push r u o); [exact B | lia | lia].
Qed.

Lemma balanced_push_ul_open r o :
  balanced r false o -> balanced (r ++ [ul_open]) true o.
Proof. intros B. apply (balanced_push r false o); [exact B | reflexivity | reflexivity]. Qed.

Lemma balanced_push_ul_close r o :
  balanced r true o -> balanced (r ++ [ul_close]) false o.
Proof. intros B. apply (balanced_push r true o); [exact B | reflexivity | reflexivity]. Qed.

Lemma balanced_push_ol_open r u :
  balanced r u false -> balanced (r ++ [ol_open]) u true.
Proof. intros B. apply (balanced_push r u false); [exact B | reflexivity | reflexivity]. Qed.

Lemma balanced_push_ol_close r u :
  balanced r u true -> balanced (r ++ [ol_close]) u false.
Proof. intros B. apply (balanced_push r u true); [exact B | reflexivity | reflexivity]. Qed.

Lemma list_step_balanced st line :
  balanced (result st) (inUnorderedList st) (inOrderedList st) ->
  inert line -> inert (list_item (item_text line)) ->
  balanced (result (list_step st line))
           (inUnorderedList (list_step st line))
           (inOrderedList (list_step st line)).
Proof.
  intros B Hl Hi. destruct st as [r u o]. cbn [result inUnorderedList inOrderedList] in B.
  destruct (kind_of line) eqn:K.
  - rewrite (list_step_unordered _ _ K).
    destruct u, o; unfold push; cbn [result inUnorderedList inOrderedList negb];
      auto using balanced_push_inert, balanced_push_ul_open, balanced_push_ol_close.
  - rewrite (list_step_ordered _ _ K).
    destruct u, o; unfold push; cbn [result inUnorderedList inOrderedList negb];
      auto using balanced_push_inert, balanced_push_ol_open, balanced_push_ul_close.
  - rewrite (list_step_plain _ _ K).
    destruct u, o; cbn [result inUnorderedList inOrderedList];
      auto using balanced_push_inert, balanced_push_ol_close, balanced_push_ul_close.
Qed.

Lemma lookup_cap_In n l s : lookup_cap n l = Some s -> In (n, s) l.
Proof.
  induction l as [|[i t] l IH]; cbn [lookup_cap]; [discriminate|].
  destruct (Nat.eqb_spec i n) as [->|_].
  - intros [= ->]. left. reflexivity.
  - intros H. right. apply IH, H.
Qed.

Lemma substring_nil (w : jstring) : substring [] w.
Proof. exists [], w. reflexivity. Qed.

(** A group of a match found in a text is a piece of the text. *)
Lemma exec_scan_group p :
  forall after before m n,
    exec_scan p before after = Some m -> substring (group m n) after.
Proof.
  assert (Hat : forall before after st' n,
            match_at p before after = Some st' ->
            substring (group (result_of before after st') n) after).
  { intros before after st' n H. unfold match_at in H.
    destruct (rmatch_sound _ _ _ _ _ H) as (st1 & M & [= ->]).
    unfold group, result_of. cbn [m_groups].
    destruct (lookup_cap n (caps st')) as [s|] eqn:E; [|apply substring_nil].
    destruct (Matches_captures _ _ _ _ M _ _ (lookup_cap_In _ _ _ E)) as [[]|Hs].
    exact Hs. }
  induction after as [|c t IH]; intros before m n H; cbn [exec_scan] in H.
  - destruct (match_at p before []) eqn:E; [|discriminate].
    injection H as <-. apply Hat, E.
  - destruct (match_at p before (c :: t)) eqn:E.
    + injection H as <-. apply Hat, E.
    + apply (substring_app_r _ [c]). eapply IH, H.
Qed.

Lemma item_text_substring (line : jstring) : substring (item_text line) line.
Proof.
  unfold item_text, match_first.
  destruct (exec_scan unordered_item [] line) eqn:U.
  - eapply exec_scan_group, U.
  - destruct (exec_scan ordered_item [] line) eqn:O.
    + eapply exec_scan_group, O.
    + apply substring_nil.
Qed.

Lemma startsWith_app pat w b :
  startsWith pat w = true -> startsWith pat (w ++ b) = true.
Proof.
  revert w. induction pat as [|x pat IH]; intros w; [reflexivity|].
  destruct w as [|y w]; cbn [startsWith app]; [discriminate|].
  intros H. apply andb_prop in H. destruct H as [-> H]. apply IH, H.
Qed.

Lemma occurrences_app_r pat a w :
  occurrences pat w <= occurrences pat (a ++ w).
Proof.
  induction a as [|c a IH]; cbn [app occurrences]; lia.
Qed.

Lemma occurrences_app_l pat w b :
  occurrences pat w <= occurrences pat (w ++ b).
Proof.
  induction w as [|c w IH]; cbn [occurrences]; [lia|].
  change ((c :: w) ++ b) with (c :: (w ++ b)). cbn [occurrences].
  change (c :: (w ++ b)) with ((c :: w) ++ b).
  destruct (startsWith pat (c :: w)) eqn:E.
  - rewrite (startsWith_app pat (c :: w) b E). lia.
  - destruct (startsWith pat ((c :: w) ++ b)); lia.
Qed.

Lemma occurrences_substring pat s w :
  substring s w -> occurrences pat s <= occurrences pat w.
Proof.
  intros (a & b & ->).
  etransitivity; [apply (occurrences_app_l pat s b) | apply occurrences_app_r].
Qed.

Ltac split_on_units :=
  repeat match goal with
         | |- context [(?x =? ?y)%N] => destruct (x =? y)%N; cbn [andb]
         end;
  reflexivity.

(** No list tag starts in a text and ends in the closing tag of a list
    item put after it. *)
Lemma startsWith_before_li_close pat w :
  In pat [lit "<ul"; lit "</ul>"; lit "<ol"; lit "</ol>"] ->
  startsWith pat (w ++ lit "</li>") = startsWith pat w.
Proof.
  intros [<-|[<-|[<-|[<-|[]]]]];
    destruct w as [|a [|b [|c [|d [|e w]]]]]; cbn; split_on_units.
Qed.

Lemma occurrences_before_li_close pat w :
  In pat [lit "<ul"; lit "</ul>"; lit "<ol"; lit "</ol>"] ->
  occurrences pat (w ++ lit "</li>") = occurrences pat w.
Proof.
  intros Hp. induction w as [|c w IH].
  - destruct Hp as [<-|[<-|[<-|[<-|[]]]]]; reflexivity.
  - change ((c :: w) ++ lit "</li>") with (c :: (w ++ lit "</li>")).
    cbn [occurrences]. rewrite IH.
    change (c :: (w ++ lit "</li>")) with ((c :: w) ++ lit "</li>").
    rewrite (startsWith_before_li_close pat (c :: w) Hp). reflexivity.
Qed.

Lemma occurrences_list_item pat text :
  In pat [lit "<ul"; lit "</ul>"; lit "<ol"; lit "</ol>"] ->
  occurrences pat (list_item text) = occurrences pat text.
Proof.
  intros Hp. rewrite <- (occurrences_before_li_close pat text Hp).
  unfold list_item.
  destruct Hp as [<-|[<-|[<-|[<-|[]]]]]; reflexivity.
Qed.

Lemma inert_list_item line : inert line -> inert (list_item (item_text line)).
Proof.
  intros (H1 & H2 & H3 & H4). unfold inert.
  rewrite !occurrences_list_item by (cbn; tauto).
  pose proof (item_text_substring line) as S.
  pose proof (occurrences_substring (lit "<ul") _ _ S).
  pose proof (occurrences_substring (lit "</ul>") _ _ S).
  pose proof (occurrences_substring (lit "<ol") _ _ S).
  pose proof (occurrences_substring (lit "</ol>") _ _ S).
  lia.
Qed.

Lemma join_split_lines (s : jstring) :
  join [10%N] (split_char 10 s) = s.
Proof.
  induction s as [|c t IH]; [reflexivity|].
  cbn [split_char]. destruct (split_char_nonempty 10%N t) as (l & ls & E).
  rewrite E in *. destruct (N.eqb_spec c 10) as [->|_].
  - change (join [10%N] ([] :: l :: ls)) with (10%N :: join [10%N] (l :: ls)).
    rewrite IH. reflexivity.
  - destruct ls as [|y ls].
    + cbn [join] in *. rewrite IH. reflexivity.
    + change (join [10%N] ((c :: l) :: y :: ls))
        with (c :: join [10%N] (l :: y :: ls)).
      rewrite IH. reflexivity.
Qed.

Lemma startsWith_across_lf pat a b :
  forallb not_lf pat = true ->
  startsWith pat (a ++ 10%N :: b) = startsWith pat a.
Proof.
  revert a. induction pat as [|x pat IH]; intros a H; [reflexivity|].
  cbn [forallb] in H. apply andb_prop in H. destruct H as [Hx H].
  destruct a as [|y a]; cbn [app startsWith].
  - unfold not_lf in Hx. destruct (x =? 10)%N; [discriminate | reflexivity].
  - rewrite IH by exact H. reflexivity.
Qed.

Lemma occurrences_across_lf pat a b :
  pat <> [] -> forallb not_lf pat = true ->
  occurrences pat (a ++ 10%N :: b) = occurrences pat a + occurrences pat b.
Proof.
  intros Hne H. induction a as [|c a IH].
  - cbn [app occurrences].
    change (10%N :: b) with ([] ++ 10%N :: b) at 1.
    rewrite (startsWith_across_lf pat [] b H).
    destruct pat; [contradiction | reflexivity].
  - change ((c :: a) ++ 10%N :: b) with (c :: (a ++ 10%N :: b)).
    cbn [occurrences]. rewrite IH.
    change (c :: (a ++ 10%N :: b)) with ((c :: a) ++ 10%N :: b).
    rewrite (startsWith_across_lf pat (c :: a) b H). lia.
Qed.

(** A tag without a line feed occurs in the joined text as often as in
    the lines. *)
Lemma occurrences_join pat lines :
  pat <> [] -> forallb not_lf pat = true ->
  occurrences pat (join [10%N] lines) = tag_count pat lines.
Proof.
  intros Hne H. induction lines as [|x [|y t] IH].
  - reflexivity.
  - unfold tag_count, list_sum. cbn [join map fold_right]. lia.
  - change (join [10%N] (x :: y :: t)) with (x ++ 10%N :: join [10%N] (y :: t)).
    rewrite occurrences_across_lf by assumption. rewrite IH.
    unfold tag_count. reflexivity.
Qed.

Lemma tag_count_zero pat lines :
  tag_count pat lines = 0 -> forall l, In l lines -> occurrences pat l = 0.
Proof.
  unfold tag_count, list_sum.
  induction lines as [|x t IH]; intros H l Hin; [contradiction|].
  cbn [map fold_right] in H.
  destruct Hin as [<-|Hin]; [lia | apply IH; [lia | exact Hin]].
Qed.

Lemma no_list_tags_lines (content : jstring) :
  no_list_tags content = true ->
  forall l, In l (split_char 10 content) -> inert l.
Proof.
  unfold no_list_tags. intros H l Hin.
  rewrite !andb_true_iff, !Nat.eqb_eq in H. destruct H as [[[H1 H2] H3] H4].
  rewrite <- (join_split_lines content) in H1, H2, H3, H4.
  rewrite occurrences_join in H1, H2, H3, H4 by (reflexivity || discriminate).
  unfold inert. repeat split; eapply tag_count_zero; eassumption.
Qed.

Lemma fold_list_step_balanced lines :
  forall st,
    (forall l, In l lines -> inert l) ->
    balanced (result st) (inUnorderedList st) (inOrderedList st) ->
    balanced (result (fold_left list_step lines st))
             (inUnorderedList (fold_left list_step lines st))
             (inOrderedList (fold_left list_step lines st)).
Proof.
  induction lines as [|l ls IH]; intros st Hin B; [exact B|].
  cbn [fold_left]. apply IH.
  - intros l' H'. apply Hin. right. exact H'.
  - apply list_step_balanced;
      [exact B | apply Hin; left; reflexivity
       | apply inert_list_item, Hin; left; reflexivity].
Qed.

Lemma list_lines_balanced lines :
  (forall l, In l lines -> inert l) ->
  balanced (list_lines lines) false false.
Proof.
  intros Hin. unfold list_lines.
  assert (B0 : balanced [] false false).
  { unfold balanced. repeat split; try reflexivity;
      intros k; destruct k; cbn; lia. }
  pose proof (fold_list_step_balanced lines (ListState [] false false) Hin B0) as B.
  destruct (fold_left list_step lines (ListState [] false false)) as [r u o].
  cbn [result inUnorderedList inOrderedList] in *.
  destruct u, o; unfold push; cbn [result inUnorderedList inOrderedList];
    auto using balanced_push_ul_close, balanced_push_ol_close.
Qed.

End Lists.

(** ** [parse] *)

Section Parse.

(** C1.  The claim does not hold on the code: in the object literal of
    the result the spread of the parsed metadata comes after the [tags]
    entry and writes the text of the front matter over the sequence just
    built.  For a front matter with the line [tags: a, b] the [tags] of
    the result is the text [a, b], not the sequence of [a] and [b]. *)
Theorem parse_tags_overwritten_by_spread :
  forall now : jstring,
    exists r : ParseResult,
      fst (parse now
             (VStr (lit "---\ntitle: Hello\ntags: a, b\n---\n# Hi\n**bold** and *em*"))
             new_ColParser) = Normal r
      /\ obj_get (metadata r) (lit "tags") = Some (VStr (lit "a, b"))
      /\ obj_get (metadata r) (lit "tags") <> Some (VArr [lit "a"; lit "b"]).
Proof.
  intros now. eexists. split; [vm_compute; reflexivity|].
  split; [reflexivity | discriminate].
Qed.

(** C7.  The claim does not hold on the code: the text [![x)y](a[b](c)]
    is one image span (the image pattern matches all of it), and the link
    pattern, run on the image element written for it, finds a link in the
    [src] and [alt] attributes: the output has an anchor element inside
    the image element. *)
Theorem image_span_also_yields_link :
  (exists st', match_at (pattern p_image) [] (lit "![x)y](a[b](c)") = Some st'
               /\ rest st' = [])
  /\ fst (parseLinksAndImages (lit "![x)y](a[b](c)") new_ColParser) =
     Normal (lit "<img src=\qa<a href=\qc&quot; alt=&quot;x\q class=\qblog-link\q>b</a>y\q class=\qblog-image\q loading=\qlazy\q>")
  /\ occurrences (lit "<a ")
       (lit "<img src=\qa<a href=\qc&quot; alt=&quot;x\q class=\qblog-link\q>b</a>y\q class=\qblog-image\q loading=\qlazy\q>") = 1.
Proof.
  split; [eexists; split; [vm_compute; reflexivity | reflexivity]|].
  split; [vm_compute; reflexivity | reflexivity].
Qed.

Lemma linked_image_is_escaped :
  fst (parseLinksAndImages (lit "[![alt](i.png)](http://x)") new_ColParser) =
  Normal (lit "<a href=\qhttp://x\q class=\qblog-link\q target=\q_blank\q rel=\qnoopener noreferrer\q>&lt;img src=&quot;i.png&quot; alt=&quot;alt&quot; class=&quot;blog-image&quot; loading=&quot;lazy&quot;&gt;</a>").
Proof. vm_compute. reflexivity. Qed.

(** *** Calls on instances that agree *)

Lemma related_ret (A : Type) (x : A) : related (ret x) (ret x).
Proof. intros a b H. split; [reflexivity | exact H]. Qed.

Lemma related_throw (A : Type) (e : JsError) : related (@throw A e) (throw e).
Proof. intros a b H. split; [reflexivity | exact H]. Qed.

Lemma related_bind (A B : Type) (c1 c2 : M A) (f1 f2 : A -> M B) :
  related c1 c2 -> (forall x, related (f1 x) (f2 x)) ->
  related (bind c1 f1) (bind c2 f2).
Proof.
  intros Hc Hf a b Hab. unfold bind.
  destruct (Hc a b Hab) as [E Hab'].
  destruct (c1 a) as [[x|e] a'], (c2 b) as [[y|e'] b'];
    cbn [fst snd] in *; try discriminate.
  - injection E as <-. apply Hf, Hab'.
  - injection E as <-. split; [reflexivity | exact Hab'].
Qed.

Lemma related_bind_ret (A B : Type) (x : A) (f1 f2 : A -> M B) :
  related (f1 x) (f2 x) -> related (bind (ret x) f1) (bind (ret x) f2).
Proof. intros H a b Hab. exact (H a b Hab). Qed.

Lemma related_try_catch (A : Type) (c1 c2 : M A) (h : JsError -> M A) :
  related c1 c2 -> (forall e, related (h e) (h e)) ->
  related (try_catch c1 h) (try_catch c2 h).
Proof.
  intros Hc Hh a b Hab. unfold try_catch.
  destruct (Hc a b Hab) as [E Hab'].
  destruct (c1 a) as [[x|e] a'], (c2 b) as [[y|e'] b'];
    cbn [fst snd] in *; try discriminate.
  - split; [exact E | exact Hab'].
  - injection E as <-. apply Hh, Hab'.
Qed.

Lemma related_replace n f s : related (replace_pattern n f s) (replace_pattern n f s).
Proof.
  intros a b [Ha Hb]. split; [reflexivity|].
  unfold agree, replace_pattern, set_lastIndex. cbn [snd lastIndex].
  destruct (pattern_name_eqb p_preview n); split; auto.
Qed.

Lemma related_matchAll_preview s :
  related (matchAll_pattern p_preview s) (matchAll_pattern p_preview s).
Proof.
  intros a b [Ha Hb]. unfold matchAll_pattern. cbn [fst snd].
  rewrite Ha, Hb. split; [reflexivity | split; assumption].
Qed.

Ltac related_steps :=
  repeat first
    [ apply related_ret
    | apply related_replace
    | apply related_matchAll_preview
    | apply related_bind; [|intros ?] ].

Lemma related_extractPreview s : related (extractPreview s) (extractPreview s).
Proof. unfold extractPreview. related_steps. Qed.

Lemma related_parseHeadings s : related (parseHeadings s) (parseHeadings s).
Proof. unfold parseHeadings. related_steps. Qed.

Lemma related_parseFormatting s : related (parseFormatting s) (parseFormatting s).
Proof. unfold parseFormatting. related_steps. Qed.

Lemma related_parseCode s : related (parseCode s) (parseCode s).
Proof. unfold parseCode. related_steps. Qed.

Lemma related_parseLinksAndImages s :
  related (parseLinksAndImages s) (parseLinksAndImages s).
Proof. unfold parseLinksAndImages. related_steps. Qed.

Lemma related_parseBlockElements s :
  related (parseBlockElements s) (parseBlockElements s).
Proof. unfold parseBlockElements. related_steps. Qed.

(** *** The date of the result *)

Lemma jstring_eqb_spec (a b : jstring) : reflect (a = b) (jstring_eqb a b).
Proof.
  revert b. induction a as [|x a IH]; intros [|y b]; cbn [jstring_eqb];
    try (constructor; congruence).
  destruct (N.eqb_spec x y) as [->|Hxy]; cbn [andb].
  - destruct (IH b) as [->|Hab]; constructor; congruence.
  - constructor. congruence.
Qed.

Lemma obj_get_define_other (V : Type) (o : object V) k' v k :
  jstring_eqb k' k = false ->
  obj_get (obj_define o k' v) k = obj_get o k.
Proof.
  intros Hk. induction o as [|[k0 v0] o IH]; cbn [obj_define obj_get].
  - rewrite Hk. reflexivity.
  - destruct (jstring_eqb_spec k0 k') as [->|Hne]; cbn [obj_get].
    + rewrite Hk. reflexivity.
    + rewrite IH. reflexivity.
Qed.

Lemma obj_define_app (V : Type) (front back : object V) k v :
  obj_define (front ++ back) k v =
  match obj_get front k with
  | Some _ => obj_define front k v ++ back
  | None => front ++ obj_define back k v
  end.
Proof.
  induction front as [|[k0 v0] front IH]; cbn [app obj_define obj_get].
  - reflexivity.
  - destruct (jstring_eqb k0 k); [reflexivity|].
    rewrite IH. destruct (obj_get front k); reflexivity.
Qed.

Lemma define_differ_at_hit (V : Type) (k : jstring) (o1 o2 : object V) v :
  differ_at k o1 o2 -> obj_define o1 k v = obj_define o2 k v.
Proof.
  intros (front & back & a & b & -> & -> & Hf).
  rewrite !obj_define_app, Hf. cbn [obj_define].
  destruct (jstring_eqb_spec k k); [reflexivity | contradiction].
Qed.

Lemma define_differ_at_miss (V : Type) (k : jstring) (o1 o2 : object V) k' v :
  differ_at k o1 o2 -> jstring_eqb k' k = false ->
  differ_at k (obj_define o1 k' v) (obj_define o2 k' v).
Proof.
  intros (front & back & a & b & -> & -> & Hf) Hk.
  rewrite !obj_define_app. destruct (obj_get front k') eqn:G.
  - exists (obj_define front k' v), back, a, b.
    rewrite obj_get_define_other by exact Hk. auto.
  - cbn [obj_define]. destruct (jstring_eqb_spec k k') as [->|Hne].
    + destruct (jstring_eqb_spec k' k'); [discriminate | contradiction].
    + exists front, (obj_define back k' v), a, b. auto.
Qed.

Lemma spread_differ_at (k : jstring) (src : object jstring) :
  forall o1 o2 : object value,
    differ_at k o1 o2 -> obj_get src k <> None ->
    obj_spread VStr o1 src = obj_spread VStr o2 src.
Proof.
  unfold obj_spread. induction src as [|[k' v'] src IH]; intros o1 o2 D Hk.
  - contradiction.
  - cbn [fold_left fst snd]. cbn [obj_get] in Hk.
    destruct (jstring_eqb k' k) eqn:E.
    + destruct (jstring_eqb_spec k' k) as [->|]; [|discriminate].
      rewrite (define_differ_at_hit _ _ _ _ _ D). reflexivity.
    + apply IH; [apply define_differ_at_miss; assumption | exact Hk].
Qed.

Lemma obj_get_define_same (V : Type) (o : object V) k v :
  obj_get (obj_define o k v) k = Some v.
Proof.
  induction o as [|[k0 v0] o IH]; cbn [obj_define obj_get].
  - destruct (jstring_eqb_spec k k); [reflexivity | contradiction].
  - destruct (jstring_eqb k0 k) eqn:E; cbn [obj_get]; rewrite E;
      [reflexivity | exact IH].
Qed.

Lemma spread_gives_text (k : jstring) (src : object jstring) :
  forall target : object value,
    obj_get src k <> None \/ (exists t, obj_get target k = Some (VStr t)) ->
    exists t, obj_get (obj_spread VStr target src) k = Some (VStr t).
Proof.
  unfold obj_spread. induction src as [|[k' v'] src IH]; intros target H.
  - destruct H as [H|H]; [contradiction | exact H].
  - cbn [fold_left fst snd]. apply IH. cbn [obj_get] in H.
    destruct (jstring_eqb k' k) eqn:E.
    + right. exists v'. destruct (jstring_eqb_spec k' k) as [->|]; [|discriminate].
      apply obj_get_define_same.
    + destruct H as [H|(t & H)]; [left; exact H | right].
      exists t. rewrite obj_get_define_other by exact E. exact H.
Qed.

(** Whenever the front matter has a [tags] key, the [tags] of the result
    metadata is a text, never a sequence. *)
Lemma result_metadata_tags_text now (md : object jstring) :
  obj_get md (lit "tags") <> None ->
  exists t, obj_get (result_metadata now md) (lit "tags") = Some (VStr t).
Proof.
  intros H. unfold result_metadata. apply spread_gives_text. left. exact H.
Qed.

(** The result metadata reads the clock only through its date, and not
    at all when the front matter has a [date] key. *)
Lemma result_metadata_clock now1 now2 (md : object jstring) :
  iso_date now1 = iso_date now2 \/ obj_get md (lit "date") <> None ->
  result_metadata now1 md = result_metadata now2 md.
Proof.
  intros [H|H]; unfold result_metadata.
  - fold (iso_date now1). fold (iso_date now2). rewrite H. reflexivity.
  - apply (spread_differ_at (lit "date")); [|exact H].
    eexists [_], [_; _], _, _. split; [reflexivity|].
    split; reflexivity.
Qed.

(** *** Two calls of [parse] *)

Lemma related_preview_chain (p : jstring) :
  related
    (if nonempty p then
       processedPreview <- m_sanitizeHtml ColParser_methods p ;;
       processedPreview <- m_parseFormatting ColParser_methods processedPreview ;;
       processedPreview <- m_parseLinksAndImages ColParser_methods processedPreview ;;
       ret (trim processedPreview)
     else ret [])
    (if nonempty p then
       processedPreview <- m_sanitizeHtml ColParser_methods p ;;
       processedPreview <- m_parseFormatting ColParser_methods processedPreview ;;
       processedPreview <- m_parseLinksAndImages ColParser_methods processedPreview ;;
       ret (trim processedPreview)
     else ret []).
Proof.
  destruct (nonempty p); [|apply related_ret].
  cbn [m_sanitizeHtml m_parseFormatting m_parseLinksAndImages ColParser_methods].
  apply related_bind; [apply related_ret | intros x].
  apply related_bind; [apply related_parseFormatting | intros y].
  apply related_bind; [apply related_parseLinksAndImages | intros z].
  apply related_ret.
Qed.

Lemma related_parse_body now1 now2 (s : jstring) :
  iso_date now1 = iso_date now2
  \/ obj_get (fst (parseMetadata s)) (lit "date") <> None ->
  related (parse_body ColParser_methods now1 s)
          (parse_body ColParser_methods now2 s).
Proof.
  intros H. unfold parse_body.
  cbn [m_parseMetadata m_extractPreview m_sanitizeHtml m_parseCode
       m_parseHeadings m_parseLinksAndImages m_parseFormatting m_parseLists
       m_parseBlockElements m_parseParagraphs m_countWords m_estimateReadTime
       ColParser_methods].
  apply related_bind_ret.
  destruct (parseMetadata s) as [md body] eqn:E. cbn [fst] in H.
  apply related_bind; [apply related_extractPreview | intros [pv clean]].
  apply related_bind; [apply related_ret | intros c0].
  apply related_bind; [apply related_parseCode | intros c1].
  apply related_bind; [apply related_parseHeadings | intros c2].
  apply related_bind; [apply related_parseLinksAndImages | intros c3].
  apply related_bind; [apply related_parseFormatting | intros c4].
  apply related_bind; [apply related_ret | intros c5].
  apply related_bind; [apply related_parseBlockElements | intros c6].
  apply related_bind; [apply related_ret | intros c7].
  apply related_bind; [apply related_preview_chain | intros pp].
  rewrite (result_metadata_clock now1 now2 md H).
  apply related_bind; [apply related_ret | intros wc].
  apply related_bind; [apply related_ret | intros rt].
  apply related_ret.
Qed.

Lemma related_parse now1 now2 (rawContent : value) :
  iso_date now1 = iso_date now2
  \/ obj_get (fst (parseMetadata (str_of rawContent))) (lit "date") <> None ->
  related (parse now1 rawContent) (parse now2 rawContent).
Proof.
  intros H. unfold parse, parse_with.
  destruct (negb (truthy rawContent) || negb (is_string rawContent)).
  - apply related_throw.
  - apply related_try_catch; [apply related_parse_body, H | intros e].
    apply related_throw.
Qed.

(** Every instance a program can hold has its preview pattern at index 0. *)
Lemma reachable_preview_index (this : ColParser) :
  reachable this -> lastIndex this p_preview = 0.
Proof.
  induction 1 as [|this now rawContent _ IH]; [reflexivity|].
  apply (related_parse now now rawContent (or_introl eq_refl) this this).
  split; exact IH.
Qed.

(** C2, as the code has it.  Two calls of [parse] on the same input, on
    the same instance or on two instances, return the same completion (the
    same record, or the same error) when the clock shows the same calendar
    date at both calls or the front matter of the input has a [date] key:
    the result is a function of the input and, for an input without a
    date, of the current date. *)
Theorem parse_deterministic_up_to_date :
  forall (this1 this2 : ColParser) (now1 now2 : jstring) (rawContent : value),
    reachable this1 -> reachable this2 ->
    iso_date now1 = iso_date now2
    \/ obj_get (fst (parseMetadata (str_of rawContent))) (lit "date") <> None ->
    fst (parse now1 rawContent this1) = fst (parse now2 rawContent this2).
Proof.
  intros this1 this2 now1 now2 rawContent R1 R2 H.
  apply (related_parse now1 now2 rawContent H).
  split; apply reachable_preview_index; assumption.
Qed.

Lemma parse_deterministic_up_to_date_witness :
  fst (parse (lit "2026-11-02T08:00:00.000Z") (VStr (lit "# Hi\n<preview>p</preview>"))
         new_ColParser)
  = fst (parse (lit "2026-11-02T21:30:00.000Z") (VStr (lit "# Hi\n<preview>p</preview>"))
           (snd (parse (lit "2026-11-01T12:00:00.000Z") (VStr (lit "x")) new_ColParser))).
Proof.
  exact (parse_deterministic_up_to_date
           new_ColParser
           (snd (parse (lit "2026-11-01T12:00:00.000Z") (VStr (lit "x")) new_ColParser))
           (lit "2026-11-02T08:00:00.000Z") (lit "2026-11-02T21:30:00.000Z")
           (VStr (lit "# Hi\n<preview>p</preview>"))
           reach_new
           (@reach_parse new_ColParser _ _ reach_new)
           (or_introl eq_refl)).
Defined.

(** The claim C2 says the result is a function of the input alone.  The
    input [x] has no date of its own: parsed on the first and on the second
    of November it gives two records with two dates. *)
Lemma parse_depends_on_clock :
  fst (parse (lit "2026-11-01T12:00:00.000Z") (VStr (lit "x")) new_ColParser)
  <> fst (parse (lit "2026-11-02T12:00:00.000Z") (VStr (lit "x")) new_ColParser).
Proof. vm_compute. discriminate. Qed.

(** *** Errors *)

Lemma succeeds_ret (A : Type) (x : A) : succeeds (ret x).
Proof. intros this. exists x, this. reflexivity. Qed.

Lemma succeeds_bind (A B : Type) (c : M A) (f : A -> M B) :
  succeeds c -> (forall x, succeeds (f x)) -> succeeds (bind c f).
Proof.
  intros Hc Hf this. unfold bind.
  destruct (Hc this) as (x & this' & ->). apply Hf.
Qed.

Lemma succeeds_replace n f s : succeeds (replace_pattern n f s).
Proof. intros this. eexists _, _. reflexivity. Qed.

Lemma succeeds_matchAll n s : succeeds (matchAll_pattern n s).
Proof. intros this. eexists _, _. reflexivity. Qed.

Ltac succeeds_steps :=
  repeat first
    [ apply succeeds_ret
    | apply succeeds_replace
    | apply succeeds_matchAll
    | apply succeeds_bind; [|intros ?] ].

(** With the methods of the class no stage of [parse] throws. *)
Lemma parse_body_succeeds now (s : jstring) :
  succeeds (parse_body ColParser_methods now s).
Proof.
  unfold parse_body.
  cbn [m_parseMetadata m_extractPreview m_sanitizeHtml m_parseCode
       m_parseHeadings m_parseLinksAndImages m_parseFormatting m_parseLists
       m_parseBlockElements m_parseParagraphs m_countWords m_estimateReadTime
       ColParser_methods].
  apply succeeds_bind; [apply succeeds_ret | intros [md body]].
  apply succeeds_bind;
    [unfold extractPreview; succeeds_steps | intros [pv clean]].
  apply succeeds_bind; [apply succeeds_ret | intros c0].
  apply succeeds_bind; [unfold parseCode; succeeds_steps | intros c1].
  apply succeeds_bind; [unfold parseHeadings; succeeds_steps | intros c2].
  apply succeeds_bind; [unfold parseLinksAndImages; succeeds_steps | intros c3].
  apply succeeds_bind; [unfold parseFormatting; succeeds_steps | intros c4].
  apply succeeds_bind; [apply succeeds_ret | intros c5].
  apply succeeds_bind; [unfold parseBlockElements; succeeds_steps | intros c6].
  apply succeeds_bind; [apply succeeds_ret | intros c7].
  apply succeeds_bind.
  - destruct (nonempty pv); [|apply succeeds_ret].
    apply succeeds_bind; [apply succeeds_ret | intros x].
    apply succeeds_bind; [unfold parseFormatting; succeeds_steps | intros y].
    apply succeeds_bind; [unfold parseLinksAndImages; succeeds_steps | intros z].
    apply succeeds_ret.
  - intros pp. succeeds_steps.
Qed.

Lemma guard_valid_input (v : value) :
  negb (truthy v) || negb (is_string v) = negb (valid_input v).
Proof.
  destruct v as [| |b|n|s|l|]; cbn [truthy is_string valid_input negb];
    rewrite ?orb_true_r; try reflexivity.
  destruct s; reflexivity.
Qed.

(** *** [parse] on any receiver *)

Lemma calls_thread stages x this out this' :
  calls stages x this out this' <-> thread stages x this = (out, this').
Proof.
  split.
  - induction 1 as [x this|f stages x this t this' H|f stages x this y this1 out this' H _ IH];
      cbn [thread]; unfold bind_stage; [reflexivity | |]; rewrite H;
      [reflexivity | exact IH].
  - revert x this. induction stages as [|f stages IH]; intros x this H;
      cbn [thread] in H.
    + injection H as <- <-. constructor.
    + unfold bind_stage in H.
      destruct (f x this) as [[y|t] this1] eqn:E.
      * eapply calls_next; [exact E | apply IH, H].
      * injection H as <- <-. apply calls_throws, E.
Qed.

Ltac next_call :=
  match goal with
  | |- context [match ?f ?x ?th with _ => _ end] =>
      match type of (f x th) with
      | (raised _ * ColParser)%type => destruct (f x th) as [[?|?] ?]
      end
  end.

Lemma try_block_is_threaded r now s this :
  try_block r now s this = try_block_threaded r now s this.
Proof.
  unfold try_block, try_block_threaded, content_stages, preview_stages.
  cbn [thread]. unfold bind_stage, ret_stage.
  destruct (r_parseMetadata r s this) as [[[md body]|t] this1]; [|reflexivity].
  cbn [fst snd].
  destruct (r_extractPreview r body this1) as [[[pv clean]|t] this2]; [|reflexivity].
  cbn [fst snd].
  do 8 (next_call; [|reflexivity]).
  destruct (nonempty pv); [|reflexivity].
  do 3 (next_call; [|reflexivity]).
  reflexivity.
Qed.

Lemma preview_done_run r pv this3 this4 :
  preview_done r pv this3 this4 ->
  exists pp,
    (if nonempty pv
     then bind_stage (thread (preview_stages r) pv) (fun pp => ret_stage (trim pp))
     else ret_stage []) this3 = (Returns pp, this4).
Proof.
  unfold preview_done. destruct (nonempty pv).
  - intros (out & H). apply calls_thread in H. exists (trim out).
    unfold bind_stage. rewrite H. reflexivity.
  - intros ->. exists []. reflexivity.
Qed.

(** When a stage throws, the [try] block ends with the value thrown. *)
Lemma try_block_throws r now s this t this' :
  stage_throws r s this t this' ->
  try_block r now s this = (Raises t, this').
Proof.
  intros H. rewrite try_block_is_threaded. unfold try_block_threaded.
  destruct H as [t this1 H1
                |md body this1 t this2 H1 H2
                |md body this1 pv clean this2 t this3 H1 H2 H3
                |md body this1 pv clean this2 processed this3 t this4 H1 H2 H3 Hpv H4
                |md body this1 pv clean this2 processed this3 this4 t this5
                   H1 H2 H3 H4 H5
                |md body this1 pv clean this2 processed this3 this4 wc this5 t this6
                   H1 H2 H3 H4 H5 H6];
    unfold bind_stage at 1; rewrite H1; try reflexivity;
    unfold bind_stage at 1; cbn [fst snd]; rewrite H2; try reflexivity;
    apply calls_thread in H3;
    unfold bind_stage at 1; cbn [fst snd]; rewrite H3; try reflexivity.
  - apply calls_thread in H4. unfold bind_stage at 1. rewrite Hpv.
    unfold bind_stage at 1. rewrite H4. reflexivity.
  - destruct (preview_done_run _ _ _ _ H4) as (pp & E).
    unfold bind_stage at 1. rewrite E.
    unfold bind_stage at 1. rewrite H5. reflexivity.
  - destruct (preview_done_run _ _ _ _ H4) as (pp & E).
    unfold bind_stage at 1. rewrite E.
    unfold bind_stage at 1. rewrite H5.
    unfold bind_stage at 1. rewrite H6. reflexivity.
Qed.

(** The [try] block ends with a value thrown only when a stage throws
    it. *)
Lemma try_block_thrown r now s this t this' :
  try_block r now s this = (Raises t, this') ->
  stage_throws r s this t this'.
Proof.
  rewrite try_block_is_threaded. unfold try_block_threaded.
  unfold bind_stage at 1.
  destruct (r_parseMetadata r s this) as [[[md body]|t1] this1] eqn:H1;
    [|intros [= <- <-]; apply throws_parseMetadata, H1].
  unfold bind_stage at 1. cbn [fst snd].
  destruct (r_extractPreview r body this1) as [[[pv clean]|t2] this2] eqn:H2;
    [|intros [= <- <-]; eapply throws_extractPreview; eassumption].
  unfold bind_stage at 1. cbn [fst snd].
  destruct (thread (content_stages r) clean this2) as [[processed|t3] this3] eqn:H3;
    apply calls_thread in H3;
    [|intros [= <- <-]; eapply throws_content_stage; eassumption].
  unfold bind_stage at 1.
  assert (Hpv :
    (exists pp this4,
       (if nonempty pv
        then bind_stage (thread (preview_stages r) pv)
                        (fun pp => ret_stage (trim pp))
        else ret_stage []) this3 = (Returns pp, this4)
       /\ preview_done r pv this3 this4)
    \/ (exists t4 this4,
          (if nonempty pv
           then bind_stage (thread (preview_stages r) pv)
                           (fun pp => ret_stage (trim pp))
           else ret_stage []) this3 = (Raises t4, this4)
          /\ nonempty pv = true
          /\ calls (preview_stages r) pv this3 (Raises t4) this4)).
  { unfold preview_done. destruct (nonempty pv) eqn:N.
    - unfold bind_stage.
      destruct (thread (preview_stages r) pv this3) as [[out|t4] this4] eqn:H4;
        apply calls_thread in H4.
      + left. exists (trim out), this4. split; [reflexivity | eauto].
      + right. exists t4, this4. auto.
    - left. exists [], this3. split; reflexivity. }
  destruct Hpv as [(pp & this4 & -> & Hdone)|(t4 & this4 & -> & N & H4)];
    [|intros [= <- <-]; eapply throws_preview_stage; eassumption].
  unfold bind_stage at 1.
  destruct (r_countWords r processed this4) as [[wc|t5] this5] eqn:H5;
    [|intros [= <- <-]; eapply throws_countWords; eassumption].
  unfold bind_stage at 1.
  destruct (r_estimateReadTime r processed this5) as [[rt|t6] this6] eqn:H6;
    [discriminate|].
  intros [= <- <-]. eapply throws_estimateReadTime; eassumption.
Qed.

(** On a receiver whose methods throw [Error] objects only, the [try]
    block is the one of [parse_body]. *)
Ltac next_method :=
  match goal with
  | |- context [match ?f ?ms ?x ?th with _ => _ end] =>
      match type of (f ms x th) with
      | (completion _ * ColParser)%type => destruct (f ms x th) as [[?|?] ?]
      end
  end.

Lemma try_block_as_receiver ms now s this :
  try_block (as_receiver ms) now s this = as_stage (parse_body ms now s) this.
Proof.
  unfold try_block, parse_body, as_receiver, as_stage, bind_stage, bind,
    ret_stage, ret.
  cbn [r_parseMetadata r_extractPreview r_sanitizeHtml r_parseCode
       r_parseHeadings r_parseLinksAndImages r_parseFormatting r_parseLists
       r_parseBlockElements r_parseParagraphs r_countWords r_estimateReadTime].
  destruct (m_parseMetadata ms s this) as [[[md body]|e] this1]; [|reflexivity].
  destruct (m_extractPreview ms body this1) as [[[pv clean]|e] this2];
    [|reflexivity].
  do 8 (next_method; [|reflexivity]).
  destruct (nonempty pv).
  - do 3 (next_method; [|reflexivity]).
    do 2 (next_method; [|reflexivity]). reflexivity.
  - do 2 (next_method; [|reflexivity]). reflexivity.
Qed.

(** [parse_with] is [parse_on] for the receivers whose methods throw
    [Error] objects only. *)
Lemma parse_on_as_receiver ms now rawContent this :
  parse_on (as_receiver ms) now rawContent this = parse_with ms now rawContent this.
Proof.
  unfold parse_on, parse_with.
  destruct (negb (truthy rawContent) || negb (is_string rawContent));
    [reflexivity|].
  rewrite try_block_as_receiver. unfold as_stage, try_catch.
  destruct (parse_body ms now (str_of rawContent) this) as [[res|e] this'];
    reflexivity.
Qed.

Lemma caught_not_InvalidInput t : caught t <> InvalidInput.
Proof. destruct t as [e| | |]; discriminate. Qed.

Lemma parse_on_valid r now rawContent this :
  valid_input rawContent = true ->
  parse_on r now rawContent this
  = match try_block r now (str_of rawContent) this with
    | (Returns res, this') => (Normal res, this')
    | (Raises error, this') => (Throw (caught error), this')
    end.
Proof.
  intros H. unfold parse_on. rewrite guard_valid_input, H. reflexivity.
Qed.

(** C5, as the code has it.  On any receiver, [parse] throws the
    invalid-input error exactly when its argument is not a string that is
    not empty (it is undefined, null, of another type, or the empty
    string), and it does so before any stage runs: the instance is left as
    it was, whatever the stage methods of the receiver are.  On a valid
    argument, when a stage method throws an [Error] object, whichever
    stage it is, once the stages before it have returned, [parse] throws
    the one parse failure, whose message is the fixed prefix followed by
    the message of the error thrown, and no later stage runs: the instance
    is as the throwing stage left it.  For any value thrown, [parse] throws
    what its [catch] clause makes of the value: for [null] and [undefined]
    that is the [TypeError] of reading their [message], and for a value
    without a [message] the parse failure that says [undefined].  On a
    valid argument [parse] throws in no other way, and what the [try]
    block returns is what [parse] returns.  With the methods of the class
    itself no stage throws, so every valid argument gives a result. *)
Theorem parse_error_contract :
  forall (r : Receiver) (now : jstring) (rawContent : value) (this : ColParser),
    (fst (parse_on r now rawContent this) = Throw InvalidInput
       <-> valid_input rawContent = false)
    /\ (valid_input rawContent = false ->
        forall r' : Receiver,
          parse_on r' now rawContent this = (Throw InvalidInput, this))
    /\ (valid_input rawContent = true ->
        forall (e : JsError) (this' : ColParser),
          stage_throws r (str_of rawContent) this (ThrownError e) this' ->
          parse_on r now rawContent this
            = (Throw (ParseFailure (message e)), this'))
    /\ (valid_input rawContent = true ->
        forall (t : thrown) (this' : ColParser),
          stage_throws r (str_of rawContent) this t this' ->
          parse_on r now rawContent this = (Throw (caught t), this'))
    /\ (valid_input rawContent = true ->
        forall (e : JsError) (this' : ColParser),
          parse_on r now rawContent this = (Throw e, this') ->
          exists t : thrown,
            stage_throws r (str_of rawContent) this t this' /\ e = caught t)
    /\ (valid_input rawContent = true ->
        forall (res : ParseResult) (this' : ColParser),
          try_block r now (str_of rawContent) this = (Returns res, this') ->
          parse_on r now rawContent this = (Normal res, this'))
    /\ parse now rawContent this
       = parse_on (as_receiver ColParser_methods) now rawContent this
    /\ (valid_input rawContent = true ->
        exists (res : ParseResult) (this' : ColParser),
          parse now rawContent this = (Normal res, this')).
Proof.
  intros r now rawContent this.
  assert (Hinv : valid_input rawContent = false ->
            forall r', parse_on r' now rawContent this = (Throw InvalidInput, this)).
  { intros H r'. unfold parse_on. rewrite guard_valid_input, H. reflexivity. }
  assert (Hthrow : valid_input rawContent = true ->
            forall t this',
              stage_throws r (str_of rawContent) this t this' ->
              parse_on r now rawContent this = (Throw (caught t), this')).
  { intros H t this' Ht. rewrite (parse_on_valid _ _ _ _ H).
    rewrite (try_block_throws _ now _ _ _ _ Ht). reflexivity. }
  split; [|split; [exact Hinv | split; [|split; [exact Hthrow | split; [|split; [|split]]]]]].
  - split.
    + intros H. destruct (valid_input rawContent) eqn:V; [exfalso | reflexivity].
      rewrite (parse_on_valid _ _ _ _ V) in H.
      destruct (try_block r now (str_of rawContent) this) as [[res|t] this'].
      * discriminate.
      * cbn [fst] in H. injection H as H. exact (caught_not_InvalidInput _ H).
    + intros H. rewrite (Hinv H r). reflexivity.
  - intros H e this' Ht. exact (Hthrow H _ _ Ht).
  - intros H e this' Hp. rewrite (parse_on_valid _ _ _ _ H) in Hp.
    destruct (try_block r now (str_of rawContent) this) as [[res|t] this1] eqn:Hb.
    + discriminate.
    + injection Hp as <- <-. exists t. split; [|reflexivity].
      exact (try_block_thrown _ _ _ _ _ _ Hb).
  - intros H res this' Hb. rewrite (parse_on_valid _ _ _ _ H), Hb. reflexivity.
  - unfold parse. symmetry. apply parse_on_as_receiver.
  - intros H. unfold parse, parse_with.
    rewrite guard_valid_input, H. cbn [negb]. unfold try_catch.
    destruct (parse_body_succeeds now (str_of rawContent) this) as (res & this' & ->).
    eauto.
Qed.

Lemma parse_error_contract_witness :
  fst (parse_on (throwing_parseCode (ThrownError (MkError (lit "boom"))))
         (lit "2026-11-02T08:00:00.000Z") (VStr (lit "# Hi")) new_ColParser)
  = Throw (MkError (lit "Failed to parse .col content: boom")).
Proof.
  refine (f_equal fst
            (proj1 (proj2 (proj2
               (parse_error_contract
                  (throwing_parseCode (ThrownError (MkError (lit "boom"))))
                  (lit "2026-11-02T08:00:00.000Z") (VStr (lit "# Hi"))
                  new_ColParser)))
               eq_refl (MkError (lit "boom"))
               (snd (extractPreview (lit "# Hi") new_ColParser)) _)).
  eapply throws_content_stage.
  - reflexivity.
  - vm_compute. reflexivity.
  - eapply calls_next; [reflexivity|]. apply calls_throws. reflexivity.
Defined.

(** The claim C5 is about every exception of a stage.  When a stage
    throws [null], reading [error.message] in the [catch] clause throws a
    [TypeError], and what [parse] throws is no parse failure. *)
Lemma stage_throwing_null_not_wrapped :
  fst (parse_on (throwing_parseCode ThrownNull)
         (lit "2026-11-02T08:00:00.000Z") (VStr (lit "# Hi")) new_ColParser)
  = Throw (MkError (lit "Cannot read properties of null (reading 'message')"))
  /\ forall original : jstring,
       MkError (lit "Cannot read properties of null (reading 'message')")
       <> ParseFailure original.
Proof.
  split.
  - vm_compute. reflexivity.
  - intros original. discriminate.
Qed.

End Parse.

(** ** Texts a pattern does not touch *)

Section Untouched.

Lemma match_at_lang p before after st :
  match_at p before after = Some st ->
  exists x, after = x ++ rest st /\ lang (reflags p) (source p) x.
Proof.
  unfold match_at. intros H.
  destruct (rmatch_sound _ _ _ _ _ H) as (st1 & M & [= ->]).
  exact (Matches_lang _ _ _ _ M).
Qed.

(** Where a global pattern matches at no index, replacing leaves the
    text as it is and there is nothing to collect. *)
Lemma scan_no_match p f :
  forall after before,
    (forall k before', match_at p before' (skipn k after) = None) ->
    replace_scan p f 0 before after = after
    /\ collect_scan p 0 before after = []
    /\ exec_scan p before after = None.
Proof.
  induction after as [|c t IH]; intros before H.
  - pose proof (H 0 before) as H0. cbn [skipn] in H0.
    cbn [replace_scan collect_scan exec_scan]. rewrite H0. auto.
  - pose proof (H 0 before) as H0. cbn [skipn] in H0.
    cbn [replace_scan collect_scan exec_scan]. rewrite H0.
    destruct (IH (c :: before) (fun k b => H (S k) b)) as (R & C & E).
    rewrite R, C, E. auto.
Qed.

Lemma lacks_skipn c s k : lacks c s = true -> lacks c (skipn k s) = true.
Proof.
  revert k. induction s as [|x s IH]; intros [|k] H; cbn [skipn]; auto.
  cbn [lacks forallb] in H. apply andb_prop in H. apply IH. tauto.
Qed.

Lemma lacks_not_In c s : lacks c s = true -> ~ In c s.
Proof.
  induction s as [|x s IH]; cbn [lacks forallb In]; [tauto|].
  intros H. apply andb_prop in H. destruct H as [Hx Hs].
  intros [->|Hin]; [rewrite N.eqb_refl in Hx; discriminate | exact (IH Hs Hin)].
Qed.

(** A pattern whose every match holds the unit [c] leaves a text without
    [c] alone. *)
Lemma scan_needs_unit p f c :
  (forall before after st, match_at p before after = Some st -> In c after) ->
  forall s before,
    lacks c s = true ->
    replace_scan p f 0 before s = s
    /\ collect_scan p 0 before s = []
    /\ exec_scan p before s = None.
Proof.
  intros Hneed s before Hs. apply scan_no_match. intros k b.
  destruct (match_at p b (skipn k s)) eqn:E; [exfalso | reflexivity].
  exact (lacks_not_In _ _ (lacks_skipn c s k Hs) (Hneed _ _ _ E)).
Qed.

Lemma occurrences_skipn pat s k :
  pat <> [] -> occurrences pat s = 0 -> startsWith pat (skipn k s) = false.
Proof.
  intros Hp. revert k. induction s as [|x s IH]; intros k H.
  - destruct k; cbn [skipn]; destruct pat; [contradiction | reflexivity
                                          | contradiction | reflexivity].
  - cbn [occurrences] in H. destruct k as [|k]; cbn [skipn].
    + destruct (startsWith pat (x :: s)); [discriminate | reflexivity].
    + apply IH. lia.
Qed.

(** A pattern whose every match starts with the text [pat] leaves a text
    without [pat] alone. *)
Lemma scan_needs_prefix p f pat :
  pat <> [] ->
  (forall before after st,
     match_at p before after = Some st -> startsWith pat after = true) ->
  forall s before,
    occurrences pat s = 0 ->
    replace_scan p f 0 before s = s
    /\ collect_scan p 0 before s = []
    /\ exec_scan p before s = None.
Proof.
  intros Hp Hneed s before Hs. apply scan_no_match. intros k b.
  destruct (match_at p b (skipn k s)) eqn:E; [exfalso | reflexivity].
  pose proof (Hneed _ _ _ E) as Hst.
  rewrite (occurrences_skipn pat s k Hp Hs) in Hst. discriminate.
Qed.

(** The text of a literal. *)
Lemma lang_literal (l x : jstring) :
  l <> [] -> lang no_flags (rseq (map RChar l)) x -> x = l.
Proof.
  intros Hl. revert x. induction l as [|c [|c' t] IH]; intros x H;
    [contradiction | |].
  - cbn in H. destruct H as (y & -> & Hy). apply N.eqb_eq in Hy. congruence.
  - change (rseq (map RChar (c :: c' :: t)))
      with (RSeq (RChar c) (rseq (map RChar (c' :: t)))) in H.
    cbn [lang] in H. destruct H as (x1 & x2 & -> & (y & -> & Hy) & H2).
    cbn in Hy. apply N.eqb_eq in Hy. subst y.
    rewrite (IH ltac:(discriminate) x2 H2). reflexivity.
Qed.

Lemma startsWith_refl_app (l r : jstring) : startsWith l (l ++ r) = true.
Proof.
  induction l as [|c l IH]; [reflexivity|].
  cbn [app startsWith]. rewrite N.eqb_refl. exact IH.
Qed.

End Untouched.

(** ** More on [escapeHtml] *)

Section EscapeHtmlMore.

(** X1.  A text that holds none of the five units that [escapeHtml]
    replaces (ampersand, less-than, greater-than, double quote, single
    quote) comes back as it is. *)
Theorem escapeHtml_plain_unchanged :
  forall s : jstring,
    forallb (fun c => negb (is_html_special c)) s = true ->
    escapeHtml (VStr s) = s.
Proof.
  intros s H. rewrite escapeHtml_string.
  induction s as [|c t IH]; [reflexivity|].
  cbn [forallb] in H. apply andb_prop in H. destruct H as [Hc Ht].
  cbn [flat_map]. rewrite plain_escape_char by (apply negb_true_iff, Hc).
  rewrite IH by exact Ht. reflexivity.
Qed.

Lemma escapeHtml_plain_unchanged_witness :
  escapeHtml (VStr (lit "img/a.png?x=1;y=2")) = lit "img/a.png?x=1;y=2".
Proof.
  exact (escapeHtml_plain_unchanged (lit "img/a.png?x=1;y=2") eq_refl).
Defined.

(** X2.  Escaping goes unit by unit: the escape of two texts put together
    is the two escapes put together. *)
Theorem escapeHtml_app :
  forall a b : jstring,
    escapeHtml (VStr (a ++ b)) = escapeHtml (VStr a) ++ escapeHtml (VStr b).
Proof.
  intros a b. rewrite !escapeHtml_string. apply flat_map_app.
Qed.

Lemma escape_char_cases (c : char) :
  (is_html_special c = false /\ escape_char c = [c])
  \/ (c = 38%N /\ escape_char c = lit "&amp;")
  \/ (c = 60%N /\ escape_char c = lit "&lt;")
  \/ (c = 62%N /\ escape_char c = lit "&gt;")
  \/ (c = 34%N /\ escape_char c = lit "&quot;")
  \/ (c = 39%N /\ escape_char c = lit "&#39;").
Proof.
  destruct (is_html_special c) eqn:E.
  - right. unfold is_html_special in E. rewrite !orb_true_iff, !N.eqb_eq in E.
    destruct E as [[[[->| ->]| ->]| ->]| ->]; cbn; tauto.
  - left. split; [reflexivity | apply plain_escape_char, E].
Qed.

(** X3.  Escaping loses nothing: two texts with the same escape are the
    same text. *)
Theorem escapeHtml_injective :
  forall a b : jstring,
    escapeHtml (VStr a) = escapeHtml (VStr b) -> a = b.
Proof.
  intros a b. rewrite !escapeHtml_string. revert b.
  induction a as [|x a IH]; intros [|y b] H.
  - reflexivity.
  - exfalso. cbn [flat_map] in H.
    destruct (escape_char_cases y) as [[_ E]|[[_ E]|[[_ E]|[[_ E]|[[_ E]|[_ E]]]]]];
      rewrite E in H; discriminate.
  - exfalso. cbn [flat_map] in H.
    destruct (escape_char_cases x) as [[_ E]|[[_ E]|[[_ E]|[[_ E]|[[_ E]|[_ E]]]]]];
      rewrite E in H; discriminate.
  - cbn [flat_map] in H.
    destruct (escape_char_cases x) as [[Px Ex]|[[Px Ex]|[[Px Ex]|[[Px Ex]|[[Px Ex]|[Px Ex]]]]]];
    destruct (escape_char_cases y) as [[Py Ey]|[[Py Ey]|[[Py Ey]|[[Py Ey]|[[Py Ey]|[Py Ey]]]]]];
      rewrite Ex, Ey in H; subst; cbn in H;
      try discriminate;
      try (injection H as H; f_equal; apply IH; exact H);
      try (injection H as Hxy H; try subst x; try subst y;
           first [ discriminate Px | discriminate Py
                 | f_equal; apply IH; exact H ]).
Qed.

Lemma escapeHtml_injective_witness :
  lit "a<b" = lit "a<b".
Proof.
  exact (escapeHtml_injective (lit "a<b") (lit "a<b") eq_refl).
Defined.

End EscapeHtmlMore.

(** ** [sanitizeHtml] and [extractPreview] *)

Section Sanitize.

Lemma subseq_refl (s : jstring) : subseq s s.
Proof. induction s; constructor; assumption. Qed.

Lemma subseq_trans (a b c : jstring) : subseq a b -> subseq b c -> subseq a c.
Proof.
  intros Hab Hbc. revert a Hab.
  induction Hbc as [|x b c Hbc IH|x b c Hbc IH]; intros a Hab.
  - exact Hab.
  - inversion Hab; subst; constructor; auto.
  - constructor. auto.
Qed.

(** Replacing the matches of a pattern by nothing only takes units out. *)
Lemma replace_removed_subseq p :
  forall after skip before,
    subseq (replace_scan p removed skip before after) after.
Proof.
  induction after as [|c t IH]; intros skip before.
  - destruct skip; cbn [replace_scan]; [|constructor].
    destruct (match_at p before []); constructor.
  - destruct skip as [|n]; cbn [replace_scan].
    + destruct (match_at p before (c :: t)); cbn [removed app].
      * destruct (match_len (c :: t) m =? 0); constructor; apply IH.
      * constructor. apply IH.
    + constructor. apply IH.
Qed.

(** X4.  [sanitizeHtml] only deletes: its result is the argument with
    some units taken out, in the same order; it adds and changes none. *)
Theorem sanitizeHtml_only_deletes :
  forall s : jstring, subseq (sanitizeHtml (VStr s)) s.
Proof.
  intros s. destruct s as [|c t]; [constructor|].
  unfold sanitizeHtml. cbn [truthy is_string negb orb str_of].
  eapply subseq_trans; [apply replace_removed_subseq|].
  eapply subseq_trans; apply replace_removed_subseq.
Qed.

Lemma canon_rigid fl (c y : char) :
  (c < 65)%N -> (canon fl y =? canon fl c)%N = true -> y = c.
Proof.
  intros Hc H. apply N.eqb_eq in H. unfold canon in H.
  destruct (ignoreCase fl); cbn [andb] in H; [|exact H].
  destruct ((97 <=? c) && (c <=? 122))%N eqn:Ec.
  - apply andb_prop in Ec. destruct Ec as [E1 _]. apply N.leb_le in E1. lia.
  - destruct ((97 <=? y) && (y <=? 122))%N eqn:Ey; [|exact H].
    apply andb_prop in Ey. destruct Ey as [E1 E2].
    apply N.leb_le in E1, E2. lia.
Qed.

(** A literal under any flags holds each of its units below the letters. *)
Lemma lang_literal_In fl (l x : jstring) (c : char) :
  l <> [] -> (c < 65)%N -> In c l ->
  lang fl (rseq (map RChar l)) x -> In c x.
Proof.
  intros Hl Hc. revert x. induction l as [|a [|a' t] IH]; intros x Hin H;
    [contradiction | |].
  - destruct Hin as [->|[]]. cbn [map rseq lang] in H.
    destruct H as (y & -> & Hy). left. exact (canon_rigid _ _ _ Hc Hy).
  - change (rseq (map RChar (a :: a' :: t)))
      with (RSeq (RChar a) (rseq (map RChar (a' :: t)))) in H.
    cbn [lang] in H. destruct H as (x1 & x2 & -> & (y & -> & Hy) & H2).
    destruct Hin as [->|Hin].
    + left. exact (canon_rigid _ _ _ Hc Hy).
    + right. apply (IH ltac:(discriminate) x2 Hin H2).
Qed.

Lemma script_element_needs_lt before after st :
  match_at script_element before after = Some st -> In 60%N after.
Proof.
  intros H. destruct (match_at_lang _ _ _ _ H) as (x & -> & L).
  apply in_or_app. left.
  change (source script_element)
    with (RSeq (rlit "<script") (rseq [RWordB; star (none_of "<");
            star (rseq [RNegLook (rlit "</script>"); rlit "<"; star (none_of "<")]);
            rlit "</script>"])) in L.
  cbn [lang] in L. destruct L as (x1 & x2 & -> & L1 & _).
  apply in_or_app. left.
  apply (lang_literal_In (reflags script_element) (lit "<script") x1 60%N);
    [discriminate | reflexivity | cbn; tauto | exact L1].
Qed.

Lemma handler_attribute_needs_eq before after st :
  match_at handler_attribute before after = Some st -> In 61%N after.
Proof.
  intros H. destruct (match_at_lang _ _ _ _ H) as (x & -> & L).
  apply in_or_app. left.
  change (source handler_attribute)
    with (RSeq rspace (RSeq (rlit "on") (RSeq (plus rword) (RSeq (star rspace)
           (RSeq (RChar 61) (rseq [star rspace; one_of "\q'";
                                   star (none_of "\q'"); one_of "\q'"])))))) in L.
  cbn [lang] in L.
  destruct L as (x1 & r1 & -> & _ & x2 & r2 & -> & _ & x3 & r3 & -> & _
                 & x4 & r4 & -> & _ & x5 & r5 & -> & (y & -> & Hy) & _).
  rewrite !in_app_iff. do 4 right. left. left.
  apply (canon_rigid (reflags handler_attribute) 61%N y);
    [reflexivity | exact Hy].
Qed.

Lemma javascript_uri_needs_colon before after st :
  match_at javascript_uri before after = Some st -> In 58%N after.
Proof.
  intros H. destruct (match_at_lang _ _ _ _ H) as (x & -> & L).
  apply in_or_app. left.
  apply (lang_literal_In (reflags javascript_uri) (lit "javascript:") x 58%N);
    [discriminate | reflexivity | cbn; tauto | exact L].
Qed.

(** X5.  A text with no less-than sign, no equals sign and no colon has
    nothing [sanitizeHtml] removes: it comes back as it is. *)
Theorem sanitizeHtml_plain_unchanged :
  forall s : jstring,
    lacks (ch "<") s = true -> lacks (ch "=") s = true ->
    lacks (ch ":") s = true ->
    sanitizeHtml (VStr s) = s.
Proof.
  intros s H1 H2 H3. destruct s as [|c t]; [reflexivity|].
  unfold sanitizeHtml. cbn [truthy is_string negb orb str_of].
  unfold replace_all.
  rewrite (proj1 (scan_needs_unit script_element removed 60%N
                    script_element_needs_lt (c :: t) [] H1)).
  rewrite (proj1 (scan_needs_unit handler_attribute removed 61%N
                    handler_attribute_needs_eq (c :: t) [] H2)).
  apply (scan_needs_unit javascript_uri removed 58%N
           javascript_uri_needs_colon (c :: t) [] H3).
Qed.

Lemma sanitizeHtml_plain_unchanged_witness :
  sanitizeHtml (VStr (lit "on the script > javascript")) =
  lit "on the script > javascript".
Proof.
  exact (sanitizeHtml_plain_unchanged (lit "on the script > javascript")
           eq_refl eq_refl eq_refl).
Defined.

Lemma collect_scan_no_match p :
  forall after skip before,
    (forall k before', match_at p before' (skipn k after) = None) ->
    collect_scan p skip before after = [].
Proof.
  induction after as [|c t IH]; intros skip before H.
  - destruct skip; cbn [collect_scan]; [|reflexivity].
    pose proof (H 0 before) as H0. cbn [skipn] in H0. rewrite H0. reflexivity.
  - destruct skip as [|n]; cbn [collect_scan].
    + pose proof (H 0 before) as H0. cbn [skipn] in H0. rewrite H0.
      apply IH. intros k b. apply (H (S k) b).
    + apply IH. intros k b. apply (H (S k) b).
Qed.

Lemma preview_needs_open_tag before after st :
  match_at (pattern p_preview) before after = Some st ->
  startsWith (lit "<preview>") after = true.
Proof.
  intros H. destruct (match_at_lang _ _ _ _ H) as (x & -> & L).
  change (source (pattern p_preview))
    with (RSeq (rlit "<preview>")
            (RSeq (RGroup 1 (lazy_star rany)) (rlit "</preview>"))) in L.
  change (reflags (pattern p_preview)) with no_flags in L.
  cbn [lang] in L. destruct L as (x1 & x2 & -> & L1 & _).
  apply lang_literal in L1; [|discriminate]. subst x1.
  rewrite <- app_assoc. apply startsWith_refl_app.
Qed.

(** X6.  On a text in which the opening preview tag does not occur,
    [extractPreview] gives the empty preview and the text unchanged, in
    whatever state the instance is. *)
Theorem extractPreview_without_tag :
  forall (content : jstring) (this : ColParser),
    occurrences (lit "<preview>") content = 0 ->
    fst (extractPreview content this) = Normal ([], content).
Proof.
  intros content this H.
  assert (Hno : forall k b, match_at (pattern p_preview) b (skipn k content) = None).
  { intros k b.
    destruct (match_at (pattern p_preview) b (skipn k content)) eqn:E;
      [exfalso | reflexivity].
    pose proof (preview_needs_open_tag _ _ _ E) as S.
    rewrite (occurrences_skipn (lit "<preview>") content k
               ltac:(discriminate) H) in S.
    discriminate. }
  unfold extractPreview, bind, matchAll_pattern, replace_pattern, ret, replace_all.
  rewrite (collect_scan_no_match _ content _ [] Hno).
  rewrite (proj1 (scan_no_match _ removed content [] Hno)).
  reflexivity.
Qed.

Lemma extractPreview_without_tag_witness :
  fst (extractPreview (lit "# Hi\n<b>no preview here</b>") new_ColParser)
  = Normal ([], lit "# Hi\n<b>no preview here</b>").
Proof.
  exact (extractPreview_without_tag (lit "# Hi\n<b>no preview here</b>")
           new_ColParser eq_refl).
Defined.

End Sanitize.

(** ** More on [parseMetadata] *)

Section MetadataMore.

Lemma metadata_needs_hyphens before after st :
  match_at (pattern p_metadata) before after = Some st ->
  startsWith (lit "---") after = true.
Proof.
  intros H. destruct (match_at_lang _ _ _ _ H) as (x & -> & L).
  rewrite metadata_source in L.
  change (reflags (pattern p_metadata)) with no_flags in L.
  cbn [lang] in L.
  destruct L as (x0 & x1 & -> & -> & h & x2 & -> & Hh & _).
  destruct Hh as (d1 & y & -> & Hd1 & d2 & d3 & -> & Hd2 & Hd3).
  apply (lang_char 45%N d1) in Hd1. apply (lang_char 45%N d2) in Hd2.
  apply (lang_char 45%N d3) in Hd3. subst d1 d2 d3. reflexivity.
Qed.

(** X7.  Front matter is looked for at the very start of the text only:
    a text that does not start with three hyphens has no metadata, and the
    content is the whole text, trimmed. *)
Theorem parseMetadata_needs_leading_hyphens :
  forall content : jstring,
    startsWith (lit "---") content = false ->
    parseMetadata content = ([], trim content).
Proof.
  intros content H. unfold parseMetadata, match_pattern, match_first.
  assert (E : match_at (pattern p_metadata) [] content = None).
  { destruct (match_at (pattern p_metadata) [] content) eqn:E; [|reflexivity].
    rewrite (metadata_needs_hyphens _ _ _ E) in H. discriminate. }
  destruct content as [|c t]; cbn [exec_scan]; rewrite E.
  - reflexivity.
  - rewrite exec_scan_metadata_inside. reflexivity.
Qed.

Lemma parseMetadata_needs_leading_hyphens_witness :
  parseMetadata (lit "\n---\ntitle: x\n---\nbody ") =
  ([], lit "---\ntitle: x\n---\nbody").
Proof.
  exact (parseMetadata_needs_leading_hyphens
           (lit "\n---\ntitle: x\n---\nbody ") eq_refl).
Defined.

Lemma keys_obj_define (V : Type) (o : object V) k v :
  map fst (obj_define o k v) =
  match obj_get o k with
  | Some _ => map fst o
  | None => map fst o ++ [k]
  end.
Proof.
  induction o as [|[k0 v0] o IH]; cbn [obj_define obj_get map fst app].
  - reflexivity.
  - destruct (jstring_eqb k0 k); cbn [map fst]; [reflexivity|].
    rewrite IH. destruct (obj_get o k); reflexivity.
Qed.

Lemma obj_get_None_not_In (V : Type) (o : object V) k :
  obj_get o k = None -> ~ In k (map fst o).
Proof.
  induction o as [|[k0 v0] o IH]; cbn [obj_get map fst In]; [tauto|].
  destruct (jstring_eqb_spec k0 k) as [->|Hne]; [discriminate|].
  intros H [E|Hin]; [contradiction | exact (IH H Hin)].
Qed.

Lemma NoDup_snoc (A : Type) (l : list A) (x : A) :
  NoDup l -> ~ In x l -> NoDup (l ++ [x]).
Proof.
  intros Hl Hx. induction Hl as [|y l Hy Hl IH]; cbn [app].
  - constructor; [tauto | constructor].
  - constructor.
    + rewrite in_app_iff. cbn [In]. intros [H|[H|[]]]; [tauto|].
      subst. apply Hx. left. reflexivity.
    + apply IH. intros H. apply Hx. right. exact H.
Qed.

Lemma obj_define_NoDup (V : Type) (o : object V) k v :
  NoDup (map fst o) -> NoDup (map fst (obj_define o k v)).
Proof.
  intros H. rewrite keys_obj_define. destruct (obj_get o k) eqn:E; [exact H|].
  apply NoDup_snoc; [exact H | apply obj_get_None_not_In, E].
Qed.

Lemma metadata_line_NoDup md line :
  NoDup (map fst md) -> NoDup (map fst (metadata_line md line)).
Proof.
  intros H. unfold metadata_line.
  destruct (negb (nonempty (trim line))); [exact H|].
  destruct (indexOf (ch ":") (trim line)); [|exact H].
  destruct (nonempty _ && nonempty _); [|exact H].
  unfold obj_assign. destruct (jstring_eqb _ _); [exact H|].
  apply obj_define_NoDup, H.
Qed.

Lemma fold_metadata_line_NoDup lines :
  forall md, NoDup (map fst md) ->
             NoDup (map fst (fold_left metadata_line lines md)).
Proof.
  induction lines as [|l ls IH]; intros md H; [exact H|].
  apply IH, metadata_line_NoDup, H.
Qed.

(** X8.  The metadata [parseMetadata] returns has each key once, whatever
    the text: a key written on several lines of the front matter is one
    property of the object. *)
Theorem parseMetadata_keys_unique :
  forall content : jstring, NoDup (map fst (fst (parseMetadata content))).
Proof.
  intros content. unfold parseMetadata.
  destruct (match_pattern p_metadata content); cbn [fst].
  - apply fold_metadata_line_NoDup. constructor.
  - constructor.
Qed.

(** X9.  A front-matter line with a key and a value makes the key of the
    metadata hold the value (its outer quotes taken off), whatever the key
    held before, and leaves every other key as it was: of several lines
    with one key the last one wins.  The key [__proto__] is the exception
    the hypothesis names. *)
Theorem metadata_line_sets_key :
  forall (metadata : object jstring) (line : jstring) (colonIndex : nat),
    indexOf (ch ":") (trim line) = Some colonIndex ->
    nonempty (trim (firstn colonIndex (trim line))) = true ->
    nonempty (trim (skipn (colonIndex + 1) (trim line))) = true ->
    jstring_eqb (trim (firstn colonIndex (trim line))) (lit "__proto__") = false ->
    obj_get (metadata_line metadata line) (trim (firstn colonIndex (trim line)))
      = Some (strip_outer_quotes (trim (skipn (colonIndex + 1) (trim line))))
    /\ (forall k : jstring,
          jstring_eqb (trim (firstn colonIndex (trim line))) k = false ->
          obj_get (metadata_line metadata line) k = obj_get metadata k).
Proof.
  intros metadata line colonIndex Hcolon Hkey Hvalue Hproto.
  unfold metadata_line. rewrite Hcolon.
  destruct (trim line) as [|c t] eqn:Et; [destruct colonIndex; discriminate|].
  cbn [nonempty negb]. rewrite Hkey, Hvalue. cbn [andb].
  unfold obj_assign. rewrite Hproto, replace_outer_quotes. split.
  - apply obj_get_define_same.
  - intros k Hk. apply obj_get_define_other, Hk.
Qed.

Lemma metadata_line_sets_key_witness :
  obj_get (metadata_line [(lit "title", lit "Old")] (lit " title : 'New' "))
          (lit "title") = Some (lit "New").
Proof.
  exact (proj1 (metadata_line_sets_key [(lit "title", lit "Old")]
                  (lit " title : 'New' ") 6 eq_refl eq_refl eq_refl eq_refl)).
Defined.

End MetadataMore.

(** ** More on [parseLists] *)

Section ListsMore.

Lemma kind_eqb_true (a b : line_kind) : kind_eqb a b = true -> a = b.
Proof. destruct a, b; (reflexivity || discriminate). Qed.

Lemma fold_plain_lines lines :
  forall r,
    forallb (fun l => kind_eqb (kind_of l) Plain) lines = true ->
    fold_left list_step lines (ListState r false false)
    = ListState (r ++ lines) false false.
Proof.
  induction lines as [|l ls IH]; intros r H.
  - cbn. rewrite app_nil_r. reflexivity.
  - cbn [forallb] in H. apply andb_prop in H. destruct H as [Hl Hls].
    cbn [fold_left]. rewrite (list_step_plain _ _ (kind_eqb_true _ _ Hl)).
    cbn [inUnorderedList inOrderedList result].
    rewrite IH by exact Hls. rewrite <- app_assoc. reflexivity.
Qed.

(** X10.  A text none of whose lines is a list item goes through
    [parseLists] unchanged. *)
Theorem parseLists_without_items :
  forall content : jstring,
    forallb (fun l => kind_eqb (kind_of l) Plain) (split_char (ch "010") content)
      = true ->
    parseLists content = content.
Proof.
  intros content H. unfold parseLists, list_lines.
  rewrite fold_plain_lines by exact H. cbn [inUnorderedList inOrderedList result app].
  apply join_split_lines.
Qed.

Lemma parseLists_without_items_witness :
  parseLists (lit "# Title\n\n-no space\n1.5 is a number\n<p>x</p>") =
  lit "# Title\n\n-no space\n1.5 is a number\n<p>x</p>".
Proof.
  exact (parseLists_without_items
           (lit "# Title\n\n-no space\n1.5 is a number\n<p>x</p>") eq_refl).
Defined.

Lemma fold_unordered_lines lines :
  forall r,
    forallb (fun l => kind_eqb (kind_of l) Unordered) lines = true ->
    fold_left list_step lines (ListState r true false)
    = ListState (r ++ map item_line lines) true false.
Proof.
  induction lines as [|l ls IH]; intros r H.
  - cbn. rewrite app_nil_r. reflexivity.
  - cbn [forallb] in H. apply andb_prop in H. destruct H as [Hl Hls].
    cbn [fold_left]. rewrite (list_step_unordered _ _ (kind_eqb_true _ _ Hl)).
    unfold push. cbn [inUnorderedList inOrderedList result negb].
    rewrite IH by exact Hls. cbn [map]. rewrite <- app_assoc. reflexivity.
Qed.

Lemma fold_ordered_lines lines :
  forall r,
    forallb (fun l => kind_eqb (kind_of l) Ordered) lines = true ->
    fold_left list_step lines (ListState r false true)
    = ListState (r ++ map item_line lines) false true.
Proof.
  induction lines as [|l ls IH]; intros r H.
  - cbn. rewrite app_nil_r. reflexivity.
  - cbn [forallb] in H. apply andb_prop in H. destruct H as [Hl Hls].
    cbn [fold_left]. rewrite (list_step_ordered _ _ (kind_eqb_true _ _ Hl)).
    unfold push. cbn [inUnorderedList inOrderedList result negb].
    rewrite IH by exact Hls. cbn [map]. rewrite <- app_assoc. reflexivity.
Qed.

(** X11.  A text all of whose lines are items of one list type becomes one
    list: the opening tag of the type, one item line for each input line in
    order, and the closing tag, which the end of the input forces. *)
Theorem parseLists_one_run :
  forall (content : jstring) (k : line_kind),
    kind_eqb k Plain = false ->
    forallb (fun l => kind_eqb (kind_of l) k) (split_char (ch "010") content)
      = true ->
    parseLists content =
    join (lit "\n")
      (opening k :: map item_line (split_char (ch "010") content) ++ [closing k]).
Proof.
  intros content k Hk H. unfold parseLists, list_lines. f_equal.
  destruct (split_char_nonempty (ch "010") content) as (l & ls & E).
  rewrite E in *. cbn [forallb] in H. apply andb_prop in H.
  destruct H as [Hl Hls]. cbn [fold_left].
  destruct k; [| |discriminate].
  - rewrite (list_step_unordered _ _ (kind_eqb_true _ _ Hl)).
    unfold push. cbn [inUnorderedList inOrderedList result negb app].
    rewrite fold_unordered_lines by exact Hls.
    cbn [inUnorderedList inOrderedList result opening closing map app].
    reflexivity.
  - rewrite (list_step_ordered _ _ (kind_eqb_true _ _ Hl)).
    unfold push. cbn [inUnorderedList inOrderedList result negb app].
    rewrite fold_ordered_lines by exact Hls.
    cbn [inUnorderedList inOrderedList result opening closing map app].
    reflexivity.
Qed.

Lemma parseLists_one_run_witness :
  parseLists (lit "1. one\n  2. two\n10.  ten") =
  join (lit "\n")
    [ol_open; list_item (lit "one"); list_item (lit "two"); list_item (lit "ten");
     ol_close].
Proof.
  exact (parseLists_one_run (lit "1. one\n  2. two\n10.  ten") Ordered
           eq_refl eq_refl).
Defined.

End ListsMore.

(** ** The runs of [parseLists] *)

Section ListRuns.

Lemma list_step_continues st line :
  one_open st ->
  result (list_step st line)
  = result st
      ++ (if kind_eqb (open_kind st) (kind_of line) then []
          else closing_line (open_kind st) ++ opening_line (kind_of line))
      ++ [emitted line]
  /\ open_kind (list_step st line) = kind_of line.
Proof.
  unfold one_open, open_kind, emitted. intros H.
  destruct st as [r u o]. cbn [inUnorderedList inOrderedList result] in *.
  destruct (kind_of line) eqn:K.
  - rewrite (list_step_unordered _ _ K).
    destruct u, o; try discriminate; unfold push, item_line;
      cbn [inUnorderedList inOrderedList result negb kind_eqb closing_line
           opening_line opening closing app];
      rewrite <- ?app_assoc; split; reflexivity.
  - rewrite (list_step_ordered _ _ K).
    destruct u, o; try discriminate; unfold push, item_line;
      cbn [inUnorderedList inOrderedList result negb kind_eqb closing_line
           opening_line opening closing app];
      rewrite <- ?app_assoc; split; reflexivity.
  - rewrite (list_step_plain _ _ K).
    destruct u, o; try discriminate;
      cbn [inUnorderedList inOrderedList result negb kind_eqb closing_line
           opening_line opening closing app];
      rewrite <- ?app_assoc; split; reflexivity.
Qed.

(** From any turn of the loop on, what [parseLists] pushes depends on
    the lines left and on the list that is open. *)
Lemma fold_list_step_continues lines :
  forall st,
    one_open st ->
    (let st1 := fold_left list_step lines st in
     let st2 := if inUnorderedList st1 then push st1 ul_close else st1 in
     let st3 := if inOrderedList st2 then push st2 ol_close else st2 in
     result st3)
    = result st ++ continue (open_kind st) lines.
Proof.
  induction lines as [|l ls IH]; intros st H.
  - cbn [fold_left continue]. unfold one_open, open_kind in *.
    destruct st as [r u o]. cbn [inUnorderedList inOrderedList result] in *.
    destruct u, o; try discriminate; unfold push;
      cbn [inUnorderedList inOrderedList result closing_line closing];
      rewrite ?app_nil_r; reflexivity.
  - cbn [fold_left continue].
    pose proof (IH (list_step st l) (list_step_one_open _ _ H)) as E.
    cbn zeta in E |- *. rewrite E.
    destruct (list_step_continues st l H) as (-> & ->).
    rewrite <- !app_assoc. reflexivity.
Qed.

Lemma list_lines_continue lines : list_lines lines = continue Plain lines.
Proof.
  unfold list_lines.
  exact (fold_list_step_continues lines (ListState [] false false) eq_refl).
Qed.

(** The lines of the runs are the lines; no run is empty, and its lines
    are all taken for what goes with the run. *)
Lemma runs_concat lines : concat (map snd (runs lines)) = lines.
Proof.
  induction lines as [|l t IH]; [reflexivity|].
  cbn [runs]. destruct (runs t) as [|[k g] gs].
  - cbn in IH. subst t. reflexivity.
  - destruct (kind_eqb (kind_of l) k); cbn [map snd concat app] in *;
      rewrite IH; reflexivity.
Qed.

Lemma runs_kinds lines :
  Forall (fun run => snd run <> []
                     /\ Forall (fun l => kind_of l = fst run) (snd run))
         (runs lines).
Proof.
  induction lines as [|l t IH]; [constructor|].
  cbn [runs]. destruct (runs t) as [|[k g] gs].
  - constructor; [|constructor]. cbn [fst snd].
    split; [discriminate | constructor; [reflexivity | constructor]].
  - inversion IH as [|a b [Hne Hk] Hgs]; subst. cbn [fst snd] in *.
    destruct (kind_eqb (kind_of l) k) eqn:E.
    + constructor; [|exact Hgs]. cbn [fst snd].
      split; [discriminate | constructor; [apply kind_eqb_true, E | exact Hk]].
    + constructor; [|exact IH]. cbn [fst snd].
      split; [discriminate | constructor; [reflexivity | constructor]].
Qed.

(** A run ends where the next line is taken for something else. *)
Lemma runs_adjacent lines :
  forall before a b after,
    map fst (runs lines) = before ++ a :: b :: after -> a <> b.
Proof.
  induction lines as [|l t IH]; intros before a b after E.
  - destruct before; discriminate.
  - cbn [runs] in E. destruct (runs t) as [|[k g] gs] eqn:R.
    + destruct before as [|x [|y before]]; discriminate.
    + destruct (kind_eqb (kind_of l) k) eqn:K.
      * exact (IH before a b after E).
      * cbn [map fst] in E. destruct before as [|x before].
        -- injection E as <- <- _. apply kind_eqb_false, K.
        -- injection E as _ E. exact (IH before a b after E).
Qed.

Lemma render_emitted k g :
  Forall (fun l => kind_of l = k) g ->
  render (k, g) = opening_line k ++ map emitted g ++ closing_line k.
Proof.
  intros H.
  assert (E : map emitted g = match k with Plain => g | _ => map item_line g end).
  { induction H as [|l g Hl _ IH]; [destruct k; reflexivity|].
    cbn [map]. unfold emitted at 1. rewrite Hl.
    destruct k; rewrite IH; reflexivity. }
  rewrite E. unfold render. cbn [fst snd].
  destruct k; cbn [opening_line closing_line app]; rewrite ?app_nil_r; reflexivity.
Qed.

Lemma continue_runs lines :
  forall k0,
    continue k0 lines
    = match runs lines with
      | [] => closing_line k0
      | (k, g) :: gs =>
          (if kind_eqb k0 k then map emitted g ++ closing_line k
           else closing_line k0 ++ render (k, g))
          ++ concat (map render gs)
      end.
Proof.
  induction lines as [|l t IH]; intros k0; [reflexivity|].
  pose proof (runs_kinds (l :: t)) as F. revert F.
  cbn [continue runs]. rewrite (IH (kind_of l)).
  pose proof (runs_kinds t) as Ft.
  destruct (runs t) as [|[k g] gs].
  - intros F. apply Forall_inv in F. destruct F as [_ Hk]. cbn [fst snd] in Hk.
    rewrite (render_emitted _ _ Hk). cbn [map concat].
    destruct (kind_eqb k0 (kind_of l)); rewrite <- ?app_assoc, ?app_nil_r;
      reflexivity.
  - apply Forall_inv in Ft. destruct Ft as [_ Hg]. cbn [fst snd] in Hg.
    destruct (kind_eqb (kind_of l) k) eqn:K.
    + apply kind_eqb_true in K.
      intros F. apply Forall_inv in F. destruct F as [_ Hk]. cbn [fst snd] in Hk.
      rewrite (render_emitted _ _ Hk). rewrite K. cbn [map].
      destruct (kind_eqb k0 k); rewrite <- ?app_assoc; reflexivity.
    + intros _. rewrite (render_emitted (kind_of l) [l])
        by (constructor; [reflexivity | constructor]).
      cbn [map concat].
      destruct (kind_eqb k0 (kind_of l)); rewrite <- ?app_assoc; reflexivity.
Qed.

(** The lines [parseLists] pushes are the runs of its lines, each as a
    list or as it is. *)
Lemma list_lines_runs lines :
  list_lines lines = concat (map render (runs lines)).
Proof.
  rewrite list_lines_continue, continue_runs.
  pose proof (runs_kinds lines) as F.
  destruct (runs lines) as [|[k g] gs]; [reflexivity|].
  apply Forall_inv in F. destruct F as [_ Hk]. cbn [fst snd] in Hk.
  cbn [map concat]. destruct k; cbn [kind_eqb closing_line app]; try reflexivity.
  rewrite (render_emitted _ _ Hk). cbn [opening_line closing_line app].
  reflexivity.
Qed.

(** *** The list tags of an item line *)

Lemma match_first_at_start p line m :
  (forall b before after, match_at p (b :: before) after = None) ->
  match_first p line = Some m ->
  exists st', match_at p [] line = Some st' /\ m = result_of [] line st'.
Proof.
  intros H. unfold match_first. destruct line as [|c t]; cbn [exec_scan].
  - destruct (match_at p [] []) as [st'|]; [|discriminate].
    intros [= <-]. eauto.
  - destruct (match_at p [] (c :: t)) as [st'|].
    + intros [= <-]. eauto.
    + rewrite (exec_scan_anchored p H). discriminate.
Qed.

Lemma space_no_lt (x : jstring) : forallb is_space x = true -> no_lt x = true.
Proof.
  unfold no_lt. induction x as [|c x IH]; [reflexivity|].
  cbn [forallb]. intros H. apply andb_prop in H. destruct H as [Hc Hx].
  rewrite (IH Hx), andb_true_r.
  destruct (N.eqb_spec c 60) as [->|_]; [discriminate | reflexivity].
Qed.

Lemma digit_no_lt (x : jstring) : forallb is_digit x = true -> no_lt x = true.
Proof.
  unfold no_lt. induction x as [|c x IH]; [reflexivity|].
  cbn [forallb]. intros H. apply andb_prop in H. destruct H as [Hc Hx].
  rewrite (IH Hx), andb_true_r.
  destruct (N.eqb_spec c 60) as [->|_]; [discriminate | reflexivity].
Qed.

Lemma no_lt_app (a b : jstring) : no_lt (a ++ b) = no_lt a && no_lt b.
Proof. apply forallb_app. Qed.

(** The end of a match of a group and the end of the text: the group
    holds the text from where it starts. *)
Lemma group_to_end r st st' :
  Matches no_flags (RSeq (RGroup 1 r) REol) st st' ->
  lookup_cap 1 (caps st') = Some (rest st).
Proof.
  intros M. inversion M as [| | | |r1 r2 s1 s2 s3 Mg Me| | | | | | | | |]; subst.
  inversion Me as [| | | | | | | | | |s E|s E| |]; subst.
  inversion Mg as [| | | | | | | | |n r0 s s' Mr| | | |]; subst.
  destruct (Matches_extends _ _ _ _ Mr) as (x & R & _).
  rewrite (consumed_prefix _ _ _ R). cbn [set_cap caps lookup_cap Nat.eqb].
  unfold at_line_end in E. cbn [set_cap rest] in E.
  destruct (rest s') as [|c t]; [|discriminate].
  rewrite R, app_nil_r. reflexivity.
Qed.

Lemma unordered_item_text line st' :
  match_at unordered_item [] line = Some st' ->
  exists a, line = a ++ group (result_of [] line st') 1 /\ no_lt a = true.
Proof.
  unfold match_at. intros H.
  destruct (rmatch_sound _ _ _ _ _ H) as (st1 & M & [= ->]).
  change (reflags unordered_item) with no_flags in M.
  change (source unordered_item)
    with (RSeq RBol (RSeq (star rspace) (RSeq (one_of "-*+")
            (RSeq (plus rspace) (RSeq (RGroup 1 (plus RDot)) REol))))) in M.
  inversion M as [| | | |r1 r2 s1 s2 s3 M1 M2| | | | | | | | |]; subst.
  destruct (Matches_lang _ _ _ _ M1) as (x1 & R1 & L1). cbn [lang] in L1. subst x1.
  inversion M2 as [| | | |r1 r2 s1 s3 s4 M3 M4| | | | | | | | |]; subst.
  destruct (Matches_lang _ _ _ _ M3) as (x3 & R3 & L3).
  apply (lang_spaces true 0) in L3.
  inversion M4 as [| | | |r1 r2 s1 s5 s6 M5 M6| | | | | | | | |]; subst.
  destruct (Matches_lang _ _ _ _ M5) as (x5 & R5 & (m & -> & Hm)).
  inversion M6 as [| | | |r1 r2 s1 s7 s8 M7 M8| | | | | | | | |]; subst.
  destruct (Matches_lang _ _ _ _ M7) as (x7 & R7 & L7).
  apply (lang_spaces true 1) in L7.
  exists (x3 ++ [m] ++ x7). split.
  - unfold group, result_of. cbn [m_groups].
    rewrite (group_to_end _ _ _ M8).
    cbn [rest app] in R1. rewrite R1, R3, R5, R7, <- !app_assoc. reflexivity.
  - rewrite !no_lt_app, (space_no_lt _ L3), (space_no_lt _ L7).
    cbn in Hm. rewrite orb_false_r, !orb_true_iff, !N.eqb_eq in Hm.
    destruct Hm as [->|[->| ->]]; reflexivity.
Qed.

Lemma ordered_item_text line st' :
  match_at ordered_item [] line = Some st' ->
  exists a, line = a ++ group (result_of [] line st') 1 /\ no_lt a = true.
Proof.
  unfold match_at. intros H.
  destruct (rmatch_sound _ _ _ _ _ H) as (st1 & M & [= ->]).
  change (reflags ordered_item) with no_flags in M.
  change (source ordered_item)
    with (RSeq RBol (RSeq (star rspace) (RSeq (plus rdigit) (RSeq (RChar 46)
            (RSeq (plus rspace) (RSeq (RGroup 1 (plus RDot)) REol)))))) in M.
  inversion M as [| | | |r1 r2 s1 s2 s3 M1 M2| | | | | | | | |]; subst.
  destruct (Matches_lang _ _ _ _ M1) as (x1 & R1 & L1). cbn [lang] in L1. subst x1.
  inversion M2 as [| | | |r1 r2 s1 s3 s4 M3 M4| | | | | | | | |]; subst.
  destruct (Matches_lang _ _ _ _ M3) as (x3 & R3 & L3).
  apply (lang_spaces true 0) in L3.
  inversion M4 as [| | | |r1 r2 s1 s5 s6 M5 M6| | | | | | | | |]; subst.
  destruct (Matches_lang _ _ _ _ M5) as (x5 & R5 & L5).
  apply (lang_digits true 1) in L5.
  inversion M6 as [| | | |r1 r2 s1 s7 s8 M7 M8| | | | | | | | |]; subst.
  destruct (Matches_lang _ _ _ _ M7) as (x7 & R7 & L7).
  apply lang_char in L7. subst x7.
  inversion M8 as [| | | |r1 r2 s1 s9 s10 M9 M10| | | | | | | | |]; subst.
  destruct (Matches_lang _ _ _ _ M9) as (x9 & R9 & L9).
  apply (lang_spaces true 1) in L9.
  exists (x3 ++ x5 ++ [46%N] ++ x9). split.
  - unfold group, result_of. cbn [m_groups].
    rewrite (group_to_end _ _ _ M10).
    cbn [rest app] in R1. rewrite R1, R3, R5, R7, R9, <- !app_assoc. reflexivity.
  - rewrite !no_lt_app, (space_no_lt _ L3), (space_no_lt _ L9), (digit_no_lt _ L5).
    reflexivity.
Qed.

(** A list line is its marker, which holds no [<], and then the text of
    the item. *)
Lemma item_text_suffix (line : jstring) :
  kind_of line <> Plain ->
  exists a, line = a ++ item_text line /\ no_lt a = true.
Proof.
  unfold kind_of, item_text. intros K.
  destruct (match_first unordered_item line) as [um|] eqn:U.
  - destruct (match_first_at_start unordered_item _ _ (fun _ _ _ => eq_refl) U)
      as (st' & S & ->).
    exact (unordered_item_text _ _ S).
  - destruct (match_first ordered_item line) as [om|] eqn:O; [|contradiction].
    destruct (match_first_at_start ordered_item _ _ (fun _ _ _ => eq_refl) O)
      as (st' & S & ->).
    exact (ordered_item_text _ _ S).
Qed.

Lemma occurrences_after_marker pat a g :
  In pat [lit "<ul"; lit "</ul>"; lit "<ol"; lit "</ol>"] ->
  no_lt a = true ->
  occurrences pat (a ++ g) = occurrences pat g.
Proof.
  intros Hp. unfold no_lt. induction a as [|c a IH]; [reflexivity|].
  cbn [forallb]. intros H. apply andb_prop in H. destruct H as [Hc Ha].
  change ((c :: a) ++ g) with (c :: (a ++ g)). cbn [occurrences].
  rewrite (IH Ha).
  assert (E : startsWith pat (c :: a ++ g) = false).
  { apply negb_true_iff in Hc. rewrite N.eqb_sym in Hc.
    destruct Hp as [<-|[<-|[<-|[<-|[]]]]];
      cbn [lit startsWith]; cbn; cbn in Hc; rewrite Hc; reflexivity. }
  rewrite E. reflexivity.
Qed.

(** An item line holds each list tag as often as the line it is made
    of. *)
Lemma occurrences_item_line pat line :
  In pat [lit "<ul"; lit "</ul>"; lit "<ol"; lit "</ol>"] ->
  kind_of line <> Plain ->
  occurrences pat (item_line line) = occurrences pat line.
Proof.
  intros Hp K. unfold item_line. rewrite (occurrences_list_item pat _ Hp).
  destruct (item_text_suffix line K) as (a & E & Ha).
  rewrite E at 2. symmetry. apply occurrences_after_marker; assumption.
Qed.

Lemma tag_count_app pat a b :
  tag_count pat (a ++ b) = tag_count pat a + tag_count pat b.
Proof. unfold tag_count. rewrite map_app, list_sum_app. reflexivity. Qed.

Lemma tag_count_items pat g :
  In pat [lit "<ul"; lit "</ul>"; lit "<ol"; lit "</ol>"] ->
  Forall (fun l => kind_of l <> Plain) g ->
  tag_count pat (map item_line g) = tag_count pat g.
Proof.
  intros Hp F. induction F as [|l g Hl _ IH]; [reflexivity|].
  cbn [map]. change (tag_count pat (?x :: ?t))
    with (occurrences pat x + tag_count pat t).
  rewrite IH, (occurrences_item_line pat l Hp Hl). reflexivity.
Qed.

(** The rendered runs hold a list tag as often as the lines do, and
    once more for each list that the tag opens or closes. *)
Lemma tag_count_rendered pat k rs :
  In pat [lit "<ul"; lit "</ul>"; lit "<ol"; lit "</ol>"] ->
  (forall k', occurrences pat (opening k') + occurrences pat (closing k')
              = if kind_eqb k' k then 1 else 0) ->
  Forall (fun run => snd run <> []
                     /\ Forall (fun l => kind_of l = fst run) (snd run)) rs ->
  tag_count pat (concat (map render rs))
  = tag_count pat (concat (map snd rs))
    + length (filter (fun run => kind_eqb (fst run) k) rs).
Proof.
  intros Hp Hk F. induction F as [|[k' g] rs [_ Hg] _ IH]; [reflexivity|].
  cbn [map concat filter fst snd] in *. rewrite !tag_count_app, IH.
  specialize (Hk k').
  assert (E : tag_count pat (render (k', g))
              = tag_count pat g + (if kind_eqb k' k then 1 else 0)).
  { rewrite <- Hk. unfold render. cbn [fst snd].
    destruct k'.
    - change (tag_count pat (?x :: ?t))
        with (occurrences pat x + tag_count pat t).
      rewrite tag_count_snoc, tag_count_items; [lia | exact Hp|].
      eapply Forall_impl; [|exact Hg]. cbn. intros l ->. discriminate.
    - change (tag_count pat (?x :: ?t))
        with (occurrences pat x + tag_count pat t).
      rewrite tag_count_snoc, tag_count_items; [lia | exact Hp|].
      eapply Forall_impl; [|exact Hg]. cbn. intros l ->. discriminate.
    - cbn [opening closing occurrences]. lia. }
  rewrite E. destruct (kind_eqb k' k); cbn [length]; lia.
Qed.

(** [parseLists] adds to the list tags of its input one opening and one
    closing tag for each list it makes. *)
Lemma parseLists_adds pat k content :
  In pat [lit "<ul"; lit "</ul>"; lit "<ol"; lit "</ol>"] ->
  (forall k', occurrences pat (opening k') + occurrences pat (closing k')
              = if kind_eqb k' k then 1 else 0) ->
  occurrences pat (parseLists content)
  = occurrences pat content + lists_of k (split_char (ch "010") content).
Proof.
  intros Hp Hk.
  assert (Hne : pat <> [] /\ forallb not_lf pat = true)
    by (destruct Hp as [<-|[<-|[<-|[<-|[]]]]]; split; (discriminate || reflexivity)).
  destruct Hne as [Hne Hlf].
  unfold parseLists, lists_of. change (lit "\n") with [10%N].
  change (ch "010") with 10%N.
  rewrite (occurrences_join pat _ Hne Hlf), list_lines_runs.
  rewrite (tag_count_rendered pat k _ Hp Hk (runs_kinds _)), runs_concat.
  rewrite <- (occurrences_join pat _ Hne Hlf), join_split_lines. reflexivity.
Qed.

(** C10, as the code has it.  For every input, the lines that
    [parseLists] pushes are the runs of the input lines one after the
    other: a run of lines that are no list items as it is, and a run of
    item lines of one type as one list, that is the opening tag of the
    type, an item for each line, and the closing tag, so that every list
    opened is closed, the one still open at the end of the input too.
    The runs are the lines in their order, none is empty, and a run ends
    where the next line is taken for something else.  So the output holds
    each list tag as often as the input holds it, and once more for each
    list of its type: [parseLists] adds as many opening as closing tags,
    and the tags of the output are as many opening as closing ones exactly
    when those of the input are.  For an input that holds none of the
    texts of a list tag, the output holds as many opening as closing tags
    of each type, and in every prefix of the lines pushed the closing tags
    of a type are at most as many as the opening tags of the type. *)
Theorem parseLists_tags_balanced :
  forall content : jstring,
    (parseLists content
       = join (lit "\n")
           (concat (map render (runs (split_char (ch "010") content))))
     /\ concat (map snd (runs (split_char (ch "010") content)))
        = split_char (ch "010") content
     /\ Forall (fun run => snd run <> []
                           /\ Forall (fun l => kind_of l = fst run) (snd run))
               (runs (split_char (ch "010") content))
     /\ (forall before a b after,
           map fst (runs (split_char (ch "010") content))
             = before ++ a :: b :: after -> a <> b))
    /\ (occurrences (lit "<ul") (parseLists content)
          = occurrences (lit "<ul") content
            + lists_of Unordered (split_char (ch "010") content)
        /\ occurrences (lit "</ul>") (parseLists content)
           = occurrences (lit "</ul>") content
             + lists_of Unordered (split_char (ch "010") content)
        /\ occurrences (lit "<ol") (parseLists content)
           = occurrences (lit "<ol") content
             + lists_of Ordered (split_char (ch "010") content)
        /\ occurrences (lit "</ol>") (parseLists content)
           = occurrences (lit "</ol>") content
             + lists_of Ordered (split_char (ch "010") content))
    /\ ((occurrences (lit "<ul") (parseLists content)
           = occurrences (lit "</ul>") (parseLists content)
         <-> occurrences (lit "<ul") content = occurrences (lit "</ul>") content)
        /\ (occurrences (lit "<ol") (parseLists content)
              = occurrences (lit "</ol>") (parseLists content)
            <-> occurrences (lit "<ol") content = occurrences (lit "</ol>") content))
    /\ (no_list_tags content = true ->
        occurrences (lit "<ul") (parseLists content)
          = occurrences (lit "</ul>") (parseLists content)
        /\ occurrences (lit "<ol") (parseLists content)
          = occurrences (lit "</ol>") (parseLists content)
        /\ (forall k,
             tag_count (lit "</ul>") (firstn k (list_lines (split_char (ch "010") content)))
             <= tag_count (lit "<ul") (firstn k (list_lines (split_char (ch "010") content))))
        /\ (forall k,
             tag_count (lit "</ol>") (firstn k (list_lines (split_char (ch "010") content)))
             <= tag_count (lit "<ol") (firstn k (list_lines (split_char (ch "010") content))))).
Proof.
  intros content.
  assert (Hadds :
    occurrences (lit "<ul") (parseLists content)
      = occurrences (lit "<ul") content
        + lists_of Unordered (split_char (ch "010") content)
    /\ occurrences (lit "</ul>") (parseLists content)
       = occurrences (lit "</ul>") content
         + lists_of Unordered (split_char (ch "010") content)
    /\ occurrences (lit "<ol") (parseLists content)
       = occurrences (lit "<ol") content
         + lists_of Ordered (split_char (ch "010") content)
    /\ occurrences (lit "</ol>") (parseLists content)
       = occurrences (lit "</ol>") content
         + lists_of Ordered (split_char (ch "010") content)).
  { split; [|split; [|split]];
      apply parseLists_adds; cbn [In]; auto; intros [| |]; reflexivity. }
  split; [|split; [exact Hadds | split]].
  - split; [unfold parseLists; rewrite list_lines_runs; reflexivity|].
    split; [apply runs_concat|].
    split; [apply runs_kinds | apply runs_adjacent].
  - destruct Hadds as (A1 & A2 & A3 & A4). split; split; lia.
  - intros H.
    pose proof (list_lines_balanced _ (no_list_tags_lines content H))
      as (Bu & Bo & Pu & Po).
    unfold parseLists. change (lit "\n") with [10%N].
    rewrite !occurrences_join by (reflexivity || discriminate).
    cbn [b2n] in Bu, Bo. rewrite Nat.add_0_r in Bu, Bo.
    repeat split; assumption.
Qed.

Lemma parseLists_tags_balanced_witness :
  (occurrences (lit "<ul") (parseLists (lit "<ul>\n<li>x</li>\n</ul>\n- a")) = 2
   /\ occurrences (lit "</ul>") (parseLists (lit "<ul>\n<li>x</li>\n</ul>\n- a")) = 2)
  /\ occurrences (lit "<ul") (parseLists (lit "- a\n- b\n1. c\ntext\n2. d"))
     = occurrences (lit "</ul>") (parseLists (lit "- a\n- b\n1. c\ntext\n2. d")).
Proof.
  exact (conj
           (conj
              (proj1 (proj1 (proj2
                 (parseLists_tags_balanced (lit "<ul>\n<li>x</li>\n</ul>\n- a")))))
              (proj1 (proj2 (proj1 (proj2
                 (parseLists_tags_balanced (lit "<ul>\n<li>x</li>\n</ul>\n- a")))))))
           (proj1 (proj2 (proj2 (proj2
              (parseLists_tags_balanced (lit "- a\n- b\n1. c\ntext\n2. d"))))
              eq_refl))).
Defined.

(** The claim C10 is about every input.  A line that is no list item goes
    to the output as it is, so the closing tag of an unordered list written
    in the input is in the output with no opening tag before it. *)
Lemma passed_through_tag_unbalanced :
  parseLists (lit "</ul>") = lit "</ul>"
  /\ occurrences (lit "<ul") (parseLists (lit "</ul>"))
     <> occurrences (lit "</ul>") (parseLists (lit "</ul>")).
Proof. split; [reflexivity | discriminate]. Qed.

End ListRuns.

(** ** Trimming *)

Section Trim.

Lemma trimStart_split (s : jstring) :
  exists a, s = a ++ trimStart s /\ forallb is_space a = true.
Proof.
  induction s as [|c t (a & E & Ha)]; cbn [trimStart].
  - exists []. auto.
  - destruct (is_space c) eqn:Sc.
    + exists (c :: a). cbn [app forallb]. rewrite Sc, Ha, <- E. auto.
    + exists []. auto.
Qed.

Lemma forallb_rev (A : Type) (f : A -> bool) (l : list A) :
  forallb f (rev l) = forallb f l.
Proof.
  induction l as [|x l IH]; [reflexivity|].
  cbn [rev forallb]. rewrite forallb_app, IH. cbn [forallb].
  rewrite andb_true_r. apply andb_comm.
Qed.

Lemma trimEnd_split (s : jstring) :
  exists b, s = trimEnd s ++ b /\ forallb is_space b = true.
Proof.
  unfold trimEnd. destruct (trimStart_split (rev s)) as (a & E & Ha).
  exists (rev a). split.
  - rewrite <- rev_app_distr, <- E, rev_involutive. reflexivity.
  - rewrite forallb_rev. exact Ha.
Qed.

(** A text is its trimmed form between two runs of white space. *)
Lemma trim_split (s : jstring) :
  exists a b, s = a ++ trim s ++ b
              /\ forallb is_space a = true /\ forallb is_space b = true.
Proof.
  destruct (trimStart_split s) as (a & Ea & Ha).
  destruct (trimEnd_split (trimStart s)) as (b & Eb & Hb).
  exists a, b. unfold trim. rewrite <- Eb. auto.
Qed.

Lemma trim_substring (s : jstring) : substring (trim s) s.
Proof. destruct (trim_split s) as (a & b & E & _). exists a, b. exact E. Qed.

Lemma trimStart_spaces (a s : jstring) :
  forallb is_space a = true -> trimStart (a ++ s) = trimStart s.
Proof.
  induction a as [|c a IH]; intros H; [reflexivity|].
  cbn [forallb] in H. apply andb_prop in H. destruct H as [Hc Ha].
  cbn [app trimStart]. rewrite Hc. apply IH, Ha.
Qed.

Lemma trimStart_all_spaces (a : jstring) :
  forallb is_space a = true -> trimStart a = [].
Proof.
  intros H. rewrite <- (app_nil_r a). rewrite trimStart_spaces by exact H.
  reflexivity.
Qed.

Lemma trimStart_app (x b : jstring) :
  trimStart (x ++ b) =
  if forallb is_space x then trimStart b else trimStart x ++ b.
Proof.
  induction x as [|c x IH]; [reflexivity|].
  cbn [app trimStart forallb]. destruct (is_space c); [exact IH | reflexivity].
Qed.

Lemma trimEnd_spaces (s b : jstring) :
  forallb is_space b = true -> trimEnd (s ++ b) = trimEnd s.
Proof.
  intros H. unfold trimEnd. rewrite rev_app_distr.
  rewrite trimStart_spaces by (rewrite forallb_rev; exact H). reflexivity.
Qed.

(** White space around a text does not change its trimmed form. *)
Lemma trim_spaces (a x b : jstring) :
  forallb is_space a = true -> forallb is_space b = true ->
  trim (a ++ x ++ b) = trim x.
Proof.
  intros Ha Hb. unfold trim. rewrite trimStart_spaces by exact Ha.
  rewrite trimStart_app. destruct (forallb is_space x) eqn:Hx.
  - rewrite (trimStart_all_spaces b Hb), (trimStart_all_spaces x Hx).
    reflexivity.
  - apply trimEnd_spaces, Hb.
Qed.

(** Trimming a trimmed text changes nothing. *)
Lemma trim_idempotent (s : jstring) : trim (trim s) = trim s.
Proof.
  destruct (trim s) as [|c t] eqn:E; [reflexivity|].
  pose proof (trim_head _ _ _ E) as Hc.
  pose proof (trim_last _ _ _ E) as Hl.
  unfold trim. cbn [trimStart]. rewrite Hc. unfold trimEnd.
  assert (Hr : rev (c :: t) = last (c :: t) 32%N :: rev (removelast (c :: t))).
  { rewrite (app_removelast_last 32%N (l := c :: t)) at 1 by discriminate.
    rewrite rev_app_distr. reflexivity. }
  rewrite Hr. cbn [trimStart]. rewrite Hl, <- Hr. apply rev_involutive.
Qed.

Lemma space_not_angle (c : char) :
  is_space c = true -> (c =? 60)%N = false /\ (c =? 62)%N = false.
Proof.
  intros H. split.
  - destruct (N.eqb_spec c 60) as [->|]; [discriminate | reflexivity].
  - destruct (N.eqb_spec c 62) as [->|]; [discriminate | reflexivity].
Qed.

Lemma strip_tags_leading_spaces (a s : jstring) :
  forallb is_space a = true ->
  strip_tags_from false (a ++ s) = a ++ strip_tags_from false s.
Proof.
  induction a as [|c a IH]; intros H; [reflexivity|].
  cbn [forallb] in H. apply andb_prop in H. destruct H as [Hc Ha].
  cbn [app strip_tags_from]. unfold ch. simpl N_of_ascii.
  rewrite (proj1 (space_not_angle c Hc)). cbn [andb].
  rewrite IH by exact Ha. reflexivity.
Qed.

Lemma existsb_gt_spaces (s b : jstring) :
  forallb is_space b = true ->
  existsb (fun x => (x =? ch ">")%N) (s ++ b)
  = existsb (fun x => (x =? ch ">")%N) s.
Proof.
  intros H. rewrite existsb_app.
  assert (E : existsb (fun x => (x =? ch ">")%N) b = false).
  { induction b as [|c b IH]; [reflexivity|].
    cbn [forallb] in H. apply andb_prop in H. destruct H as [Hc Hb].
    cbn [existsb]. unfold ch at 1. simpl N_of_ascii.
    rewrite (proj2 (space_not_angle c Hc)). apply IH, Hb. }
  etransitivity; [apply f_equal; exact E | apply orb_false_r].
Qed.

Lemma strip_tags_trailing_spaces (b : jstring) :
  forallb is_space b = true ->
  forall s,
    strip_tags_from false (s ++ b) = strip_tags_from false s ++ b
    /\ (existsb (fun x => (x =? ch ">")%N) s = true ->
        strip_tags_from true (s ++ b) = strip_tags_from true s ++ b).
Proof.
  intros Hb. induction s as [|c t [IH1 IH2]].
  - split.
    + cbn [app]. rewrite <- (app_nil_r b) at 1.
      rewrite strip_tags_leading_spaces by exact Hb.
      cbn [strip_tags_from app]. apply app_nil_r.
    + discriminate.
  - split.
    + cbn [app strip_tags_from]. rewrite existsb_gt_spaces by exact Hb.
      destruct ((c =? ch "<")%N && existsb (fun x => (x =? ch ">")%N) t) eqn:E.
      * apply andb_prop in E. apply IH2, E.
      * rewrite IH1. reflexivity.
    + cbn [app strip_tags_from existsb].
      destruct (c =? ch ">")%N; cbn [orb]; [intros _; exact IH1 | exact IH2].
Qed.

(** White space around a text does not change what is left of it after
    the tags are taken out and the result is trimmed. *)
Lemma trim_strip_tags_spaces (a x b : jstring) :
  forallb is_space a = true -> forallb is_space b = true ->
  trim (strip_tags (a ++ x ++ b)) = trim (strip_tags x).
Proof.
  intros Ha Hb. unfold strip_tags.
  rewrite strip_tags_leading_spaces by exact Ha.
  rewrite (proj1 (strip_tags_trailing_spaces b Hb x)).
  apply trim_spaces; assumption.
Qed.

Lemma countWords_trim (s : jstring) : countWords (trim s) = countWords s.
Proof.
  destruct (trim_split s) as (a & b & E & Ha & Hb).
  assert (X : trim (strip_tags s) = trim (strip_tags (trim s))).
  { rewrite E at 1. apply trim_strip_tags_spaces; assumption. }
  unfold countWords. rewrite !replace_any_tag, X. reflexivity.
Qed.

End Trim.

(** ** The record [parse] returns *)

Section ParseResult.

Lemma returns_ret (A : Type) (x : A) (P : A -> Prop) : P x -> returns (ret x) P.
Proof. intros H this y this' [= <- _]. exact H. Qed.

Lemma returns_bind (A B : Type) (c : M A) (f : A -> M B)
    (P : A -> Prop) (Q : B -> Prop) :
  returns c P -> (forall x, P x -> returns (f x) Q) -> returns (bind c f) Q.
Proof.
  intros Hc Hf this y this' H. unfold bind in H.
  destruct (c this) as [[x|e] this1] eqn:E; [|discriminate].
  exact (Hf x (Hc _ _ _ E) _ _ _ H).
Qed.

Lemma returns_any (A : Type) (c : M A) : returns c (fun _ => True).
Proof. intros this x this' _. exact I. Qed.

Lemma returns_weaken (A : Type) (c : M A) (P Q : A -> Prop) :
  (forall x, P x -> Q x) -> returns c P -> returns c Q.
Proof. intros H Hc this x this' E. exact (H _ (Hc _ _ _ E)). Qed.

(** What [parse] of the class returns for a text: the metadata of the
    front matter completed, a trimmed preview, and the content, the word
    count and the read time of one and the same processed text. *)
Lemma parse_body_returns now (s : jstring) :
  returns (parse_body ColParser_methods now s)
    (fun r =>
       metadata r = result_metadata now (fst (parseMetadata s))
       /\ (exists p, preview r = trim p)
       /\ exists processed,
            content r = trim processed
            /\ wordCount r = countWords processed
            /\ estimatedReadTime r = estimateReadTime processed).
Proof.
  unfold parse_body.
  cbn [m_parseMetadata m_extractPreview m_sanitizeHtml m_parseCode
       m_parseHeadings m_parseLinksAndImages m_parseFormatting m_parseLists
       m_parseBlockElements m_parseParagraphs m_countWords m_estimateReadTime
       ColParser_methods].
  apply (returns_bind _ _ _ _ (fun x => x = parseMetadata s));
    [apply returns_ret; reflexivity|].
  intros [md body] Emd.
  apply (returns_bind _ _ _ _ (fun _ => True));
    [apply returns_any | intros [pv clean] _].
  do 7 (apply (returns_bind _ _ _ _ (fun _ => True));
        [apply returns_any | intros ? _]).
  apply (returns_bind _ _ _ _ (fun _ => True));
    [apply returns_any | intros processed _].
  apply (returns_bind _ _ _ _ (fun pp => exists p, pp = trim p)).
  { destruct (nonempty pv).
    - do 3 (apply (returns_bind _ _ _ _ (fun _ => True));
            [apply returns_any | intros ? _]).
      apply returns_ret. eexists. reflexivity.
    - apply returns_ret. exists []. reflexivity. }
  intros pp Hpp.
  apply (returns_bind _ _ _ _ (fun x => x = countWords processed));
    [apply returns_ret; reflexivity|].
  intros wc ->.
  apply (returns_bind _ _ _ _ (fun x => x = estimateReadTime processed));
    [apply returns_ret; reflexivity|].
  intros rt ->.
  apply returns_ret. cbn [metadata preview content wordCount estimatedReadTime].
  rewrite <- Emd. split; [reflexivity|]. split; [exact Hpp|].
  exists processed. auto.
Qed.

Lemma parseMetadata_content_substring (s : jstring) :
  substring (snd (parseMetadata s)) s.
Proof.
  unfold parseMetadata. destruct (match_pattern p_metadata s) as [m|]; cbn [snd].
  - destruct (trim_substring (skipn (length (m_text m)) s)) as (a & b & E).
    exists (firstn (length (m_text m)) s ++ a), b.
    rewrite <- app_assoc, <- E. symmetry. apply firstn_skipn.
  - apply trim_substring.
Qed.

Lemma extractPreview_no_tag (content : jstring) :
  occurrences (lit "<preview>") content = 0 ->
  forall this, fst (extractPreview content this) = Normal ([], content).
Proof.
  intros H this.
  assert (Hno : forall k b, match_at (pattern p_preview) b (skipn k content) = None).
  { intros k b.
    destruct (match_at (pattern p_preview) b (skipn k content)) eqn:E;
      [exfalso | reflexivity].
    pose proof (preview_needs_open_tag _ _ _ E) as S.
    rewrite (occurrences_skipn (lit "<preview>") content k
               ltac:(discriminate) H) in S.
    discriminate. }
  unfold extractPreview, bind, matchAll_pattern, replace_pattern, ret, replace_all.
  rewrite (collect_scan_no_match _ content _ [] Hno).
  rewrite (proj1 (scan_no_match _ removed content [] Hno)).
  reflexivity.
Qed.

Lemma parse_body_no_preview now (s : jstring) :
  occurrences (lit "<preview>") s = 0 ->
  returns (parse_body ColParser_methods now s) (fun r => preview r = []).
Proof.
  intros H. unfold parse_body.
  cbn [m_parseMetadata m_extractPreview m_sanitizeHtml m_parseCode
       m_parseHeadings m_parseLinksAndImages m_parseFormatting m_parseLists
       m_parseBlockElements m_parseParagraphs m_countWords m_estimateReadTime
       ColParser_methods].
  apply (returns_bind _ _ _ _ (fun x => x = parseMetadata s));
    [apply returns_ret; reflexivity|].
  intros [md body] Emd.
  assert (Hb : occurrences (lit "<preview>") body = 0).
  { pose proof (parseMetadata_content_substring s) as S.
    rewrite <- Emd in S. cbn [snd] in S.
    pose proof (occurrences_substring (lit "<preview>") _ _ S). lia. }
  apply (returns_bind _ _ _ _ (fun x => fst x = [])).
  { intros this x this' E.
    pose proof (extractPreview_no_tag body Hb this) as F.
    rewrite E in F. cbn [fst] in F. injection F as ->. reflexivity. }
  intros [pv clean] Hpv. cbn [fst] in Hpv. subst pv.
  do 8 (apply (returns_bind _ _ _ _ (fun _ => True));
        [apply returns_any | intros ? _]).
  cbn [nonempty].
  apply (returns_bind _ _ _ _ (fun pp => pp = []));
    [apply returns_ret; reflexivity|].
  intros pp ->.
  do 2 (apply (returns_bind _ _ _ _ (fun _ => True));
        [apply returns_any | intros ? _]).
  apply returns_ret. reflexivity.
Qed.

Lemma parse_returns now (rawContent : value) (P : ParseResult -> Prop) :
  returns (parse_body ColParser_methods now (str_of rawContent)) P ->
  returns (parse now rawContent) P.
Proof.
  intros H this r this' E. unfold parse, parse_with in E.
  destruct (negb (truthy rawContent) || negb (is_string rawContent));
    [discriminate|].
  unfold try_catch in E.
  destruct (parse_body ColParser_methods now (str_of rawContent) this)
    as [[x|e] this1] eqn:Eb; [|discriminate].
  injection E as <- <-. exact (H _ _ _ Eb).
Qed.

Lemma returns_fst (A : Type) (c : M A) (P : A -> Prop) this x :
  returns c P -> fst (c this) = Normal x -> P x.
Proof.
  intros H E. destruct (c this) as [y this'] eqn:Ec. cbn [fst] in E. subst y.
  exact (H _ _ _ Ec).
Qed.

Lemma obj_get_not_In (V : Type) (o : object V) k :
  ~ In k (map fst o) -> obj_get o k = None.
Proof.
  induction o as [|[k0 v0] o IH]; cbn [obj_get map fst In]; [reflexivity|].
  intros H. destruct (jstring_eqb_spec k0 k) as [->|Hne]; [tauto|].
  apply IH. tauto.
Qed.

(** The spread of an object with each key once: a key of the source has
    the source's value, any other key the target's. *)
Lemma spread_get (src : object jstring) :
  NoDup (map fst src) ->
  forall (target : object value) k,
    obj_get (obj_spread VStr target src) k =
    match obj_get src k with
    | Some v => Some (VStr v)
    | None => obj_get target k
    end.
Proof.
  unfold obj_spread. induction src as [|[k' v'] src IH]; intros ND target k;
    [reflexivity|].
  cbn [map fst] in ND. inversion ND as [|? ? Hnot ND']; subst.
  cbn [fold_left fst snd obj_get]. rewrite (IH ND').
  destruct (jstring_eqb_spec k' k) as [->|Hne].
  - rewrite (obj_get_not_In _ _ _ Hnot). apply obj_get_define_same.
  - destruct (obj_get src k); [reflexivity|].
    apply obj_get_define_other.
    destruct (jstring_eqb_spec k' k); [contradiction | reflexivity].
Qed.

(** X12.  The record a successful [parse] returns is consistent in itself:
    its content and its preview are trimmed, its word count is the word
    count of its content, and its read time is the greater of 1 and the
    word count divided by 200 and rounded up. *)
Theorem parse_result_consistent :
  forall (now : jstring) (rawContent : value) (this : ColParser)
         (r : ParseResult),
    fst (parse now rawContent this) = Normal r ->
    trim (content r) = content r
    /\ trim (preview r) = preview r
    /\ wordCount r = countWords (content r)
    /\ estimatedReadTime r = Nat.max 1 ((wordCount r + 199) / 200).
Proof.
  intros now rawContent this r E.
  pose proof (returns_fst _ _ _ this r
                (parse_returns now rawContent _
                   (parse_body_returns now (str_of rawContent))) E)
    as (_ & (p & Hp) & processed & Hc & Hw & Ht).
  rewrite Hc, Hp, Hw, Ht, !trim_idempotent, countWords_trim.
  unfold estimateReadTime. rewrite ceil_div_200. auto.
Qed.

Lemma parse_result_consistent_witness :
  exists r,
    fst (parse (lit "2026-11-02T08:00:00.000Z")
           (VStr (lit "# Hi\n<preview> two words </preview>\n\nsome <b>more</b> text here\n"))
           new_ColParser) = Normal r
    /\ (trim (content r) = content r
        /\ trim (preview r) = preview r
        /\ wordCount r = countWords (content r)
        /\ estimatedReadTime r = Nat.max 1 ((wordCount r + 199) / 200)).
Proof.
  eexists. split; [vm_compute; reflexivity|].
  exact (parse_result_consistent
           (lit "2026-11-02T08:00:00.000Z")
           (VStr (lit "# Hi\n<preview> two words </preview>\n\nsome <b>more</b> text here\n"))
           new_ColParser _ eq_refl).
Defined.

(** X13.  The metadata of the result holds every key of the front matter
    with the front matter's text, and for a key the front matter does not
    set, it holds the default: the title [Untitled], the author
    [Anonymous], the date part of the time of the call, and no tags. *)
Theorem parse_metadata_front_matter_and_defaults :
  forall (now : jstring) (s : jstring) (this : ColParser) (r : ParseResult),
    fst (parse now (VStr s) this) = Normal r ->
    (forall k v, obj_get (fst (parseMetadata s)) k = Some v ->
                 obj_get (metadata r) k = Some (VStr v))
    /\ (obj_get (fst (parseMetadata s)) (lit "title") = None ->
        obj_get (metadata r) (lit "title") = Some (VStr (lit "Untitled")))
    /\ (obj_get (fst (parseMetadata s)) (lit "author") = None ->
        obj_get (metadata r) (lit "author") = Some (VStr (lit "Anonymous")))
    /\ (obj_get (fst (parseMetadata s)) (lit "date") = None ->
        obj_get (metadata r) (lit "date") = Some (VStr (iso_date now)))
    /\ (obj_get (fst (parseMetadata s)) (lit "tags") = None ->
        obj_get (metadata r) (lit "tags") = Some (VArr [])).
Proof.
  intros now s this r E.
  pose proof (returns_fst _ _ _ this r
                (parse_returns now (VStr s) _ (parse_body_returns now s)) E)
    as (Hm & _).
  assert (ND : NoDup (map fst (fst (parseMetadata s)))).
  { unfold parseMetadata.
    destruct (match_pattern p_metadata s); cbn [fst];
      [apply fold_metadata_line_NoDup|]; constructor. }
  rewrite Hm. unfold result_metadata.
  repeat split; intros; rewrite (spread_get _ ND).
  - rewrite H. reflexivity.
  - rewrite H. reflexivity.
  - rewrite H. reflexivity.
  - rewrite H. reflexivity.
  - rewrite H. reflexivity.
Qed.

Lemma parse_metadata_front_matter_and_defaults_witness :
  exists r,
    fst (parse (lit "2026-11-02T08:00:00.000Z")
           (VStr (lit "---\ntitle: 'A day'\nmood: calm\n---\ntext"))
           new_ColParser) = Normal r
    /\ obj_get (metadata r) (lit "title") = Some (VStr (lit "A day"))
    /\ obj_get (metadata r) (lit "mood") = Some (VStr (lit "calm"))
    /\ obj_get (metadata r) (lit "author") = Some (VStr (lit "Anonymous"))
    /\ obj_get (metadata r) (lit "date") = Some (VStr (lit "2026-11-02"))
    /\ obj_get (metadata r) (lit "tags") = Some (VArr []).
Proof.
  eexists. split; [vm_compute; reflexivity|].
  match goal with
  | |- obj_get (metadata ?r) _ = _ /\ _ =>
      pose proof (parse_metadata_front_matter_and_defaults
                    (lit "2026-11-02T08:00:00.000Z")
                    (lit "---\ntitle: 'A day'\nmood: calm\n---\ntext")
                    new_ColParser r eq_refl) as (Hk & _ & Ha & Hd & Ht)
  end.
  exact (conj (Hk (lit "title") (lit "A day") eq_refl)
         (conj (Hk (lit "mood") (lit "calm") eq_refl)
         (conj (Ha eq_refl) (conj (Hd eq_refl) (Ht eq_refl))))).
Defined.

(** X14.  A text without the opening tag of a preview has the empty
    preview: [parse] makes no preview of its own from the content. *)
Theorem parse_without_preview_tag :
  forall (now : jstring) (s : jstring) (this : ColParser) (r : ParseResult),
    occurrences (lit "<preview>") s = 0 ->
    fst (parse now (VStr s) this) = Normal r ->
    preview r = [].
Proof.
  intros now s this r H E.
  exact (returns_fst _ _ _ this r
           (parse_returns now (VStr s) _ (parse_body_no_preview now s H)) E).
Qed.

Lemma parse_without_preview_tag_witness :
  exists r,
    fst (parse (lit "2026-11-02T08:00:00.000Z")
           (VStr (lit "# Hi\n</preview> and <Preview>x"))
           new_ColParser) = Normal r
    /\ preview r = [].
Proof.
  eexists. split; [vm_compute; reflexivity|].
  exact (parse_without_preview_tag
           (lit "2026-11-02T08:00:00.000Z")
           (lit "# Hi\n</preview> and <Preview>x")
           new_ColParser _ eq_refl eq_refl).
Defined.

End ParseResult.

(** ** Texts without the units a stage starts from *)

Section Markers.

Lemma canon_rigid_unit fl x c :
  rigid fl c = true -> (canon fl x =? canon fl c)%N = true -> x = c.
Proof.
  unfold rigid. intros H E. destruct (ignoreCase fl) eqn:Ei.
  - cbn [negb orb] in H. apply N.ltb_lt in H. exact (canon_rigid fl c x H E).
  - unfold canon in E. rewrite Ei in E. apply N.eqb_eq, E.
Qed.

Lemma existsb_eqb_In (c : char) (cs : jstring) :
  existsb (N.eqb c) cs = true -> In c cs.
Proof.
  intros H. apply existsb_exists in H. destruct H as (y & Hy & E).
  apply N.eqb_eq in E. subst. exact Hy.
Qed.

Lemma Matches_needs fl cs r st st' :
  Matches fl r st st' -> needs fl r cs = true ->
  exists x c, rest st = x ++ rest st' /\ In c cs /\ In c x.
Proof.
  induction 1; cbn [needs]; intros Hn; try discriminate.
  - apply andb_prop in Hn. destruct Hn as [Hi Hc].
    rewrite (canon_rigid_unit _ _ _ Hi H).
    exists [c], c. cbn. auto using existsb_eqb_In.
  - destruct neg; [discriminate|].
    cbn [xorb] in H.
    unfold in_items in H. apply existsb_exists in H.
    destruct H as (i & Hin & Hx).
    rewrite forallb_forall in Hn. specialize (Hn i Hin).
    destruct i; try discriminate. cbn [in_item] in Hx.
    apply andb_prop in Hn. destruct Hn as [Hi Hc].
    rewrite (canon_rigid_unit _ _ _ Hi Hx).
    exists [c], c. cbn. auto using existsb_eqb_In.
  - apply orb_prop in Hn. destruct Hn as [Hn|Hn].
    + destruct (IHMatches1 Hn) as (x1 & c & R1 & Hc & Hx).
      destruct (Matches_extends _ _ _ _ H0) as (x2 & R2 & _).
      exists (x1 ++ x2), c. rewrite R1, R2, app_assoc.
      rewrite in_app_iff. auto.
    + destruct (IHMatches2 Hn) as (x2 & c & R2 & Hc & Hx).
      destruct (Matches_extends _ _ _ _ H) as (x1 & R1 & _).
      exists (x1 ++ x2), c. rewrite R1, R2, app_assoc.
      rewrite in_app_iff. auto.
  - apply andb_prop in Hn. apply IHMatches, Hn.
  - apply andb_prop in Hn. apply IHMatches, Hn.
  - apply andb_prop in Hn. destruct Hn as [Hn _].
    apply andb_prop in Hn. destruct Hn as [Hmin Hmax].
    apply Nat.leb_le in Hmin.
    destruct H as [->| ->]; [lia | discriminate].
  - apply andb_prop in Hn. destruct Hn as [_ Hn].
    destruct (IHMatches1 Hn) as (x1 & c & R1 & Hc & Hx).
    destruct (Matches_extends _ _ _ _ H0) as (x2 & R2 & _).
    exists (x1 ++ x2), c. rewrite R1, R2, app_assoc.
    rewrite in_app_iff. auto.
  - destruct (IHMatches Hn) as (x & c & R & Hc & Hx).
    exists x, c. auto.
Qed.

Lemma match_at_needs p cs before after st :
  needs (reflags p) (source p) cs = true ->
  match_at p before after = Some st ->
  exists c, In c cs /\ In c after.
Proof.
  intros Hn H. unfold match_at in H.
  destruct (rmatch_sound _ _ _ _ _ H) as (st1 & M & _).
  destruct (Matches_needs _ cs _ _ _ M Hn) as (x & c & R & Hc & Hx).
  exists c. split; [exact Hc|]. cbn [rest] in R. rewrite R.
  apply in_or_app. auto.
Qed.

Lemma free_of_skipn cs s k : free_of cs s = true -> free_of cs (skipn k s) = true.
Proof.
  revert k. induction s as [|x s IH]; intros [|k] H; cbn [skipn]; auto.
  cbn [free_of forallb] in H. apply andb_prop in H. apply IH. tauto.
Qed.

Lemma free_of_not_In cs s c : free_of cs s = true -> In c cs -> ~ In c s.
Proof.
  intros H Hc Hs. unfold free_of in H. rewrite forallb_forall in H.
  specialize (H c Hs). apply negb_true_iff in H.
  assert (E : existsb (N.eqb c) cs = true).
  { apply existsb_exists. exists c. split; [exact Hc | apply N.eqb_refl]. }
  congruence.
Qed.

Lemma free_of_app cs a b :
  free_of cs (a ++ b) = free_of cs a && free_of cs b.
Proof. apply forallb_app. Qed.

Lemma free_of_substring cs s w :
  substring s w -> free_of cs w = true -> free_of cs s = true.
Proof.
  intros (a & b & ->) H. rewrite !free_of_app in H.
  apply andb_prop in H. destruct H as [_ H].
  apply andb_prop in H. tauto.
Qed.

(** A text free of the units [big] is free of the units [small] among
    them. *)
Lemma free_of_fewer small big s :
  forallb (fun c => existsb (N.eqb c) big) small = true ->
  free_of big s = true -> free_of small s = true.
Proof.
  intros Hs H. unfold free_of in *. rewrite forallb_forall in *.
  intros x Hx. specialize (H x Hx). apply negb_true_iff in H.
  apply negb_true_iff. destruct (existsb (N.eqb x) small) eqn:E; [|reflexivity].
  apply existsb_eqb_In in E. specialize (Hs x E). congruence.
Qed.

(** A pattern that needs one of the units [cs] finds nothing in a text
    free of them. *)
Lemma needs_no_match p cs s :
  needs (reflags p) (source p) cs = true -> free_of cs s = true ->
  forall k before, match_at p before (skipn k s) = None.
Proof.
  intros Hn Hs k b.
  destruct (match_at p b (skipn k s)) eqn:E; [exfalso | reflexivity].
  destruct (match_at_needs _ _ _ _ _ Hn E) as (c & Hc & Hin).
  exact (free_of_not_In _ _ _ (free_of_skipn cs s k Hs) Hc Hin).
Qed.

Lemma replace_all_untouched p f cs s :
  needs (reflags p) (source p) cs = true -> free_of cs s = true ->
  replace_all p f s = s.
Proof.
  intros Hn Hs. apply scan_no_match, (needs_no_match p cs s Hn Hs).
Qed.

Lemma match_first_untouched p cs s :
  needs (reflags p) (source p) cs = true -> free_of cs s = true ->
  match_first p s = None.
Proof.
  intros Hn Hs. apply (scan_no_match p removed), (needs_no_match p cs s Hn Hs).
Qed.

Lemma split_scan_no_match p :
  forall after cur before,
    (forall k before', match_at p before' (skipn k after) = None) ->
    split_scan p 0 cur before after = [rev cur ++ after].
Proof.
  induction after as [|c t IH]; intros cur before H.
  - cbn [split_scan]. rewrite app_nil_r. reflexivity.
  - pose proof (H 0 before) as H0. cbn [skipn] in H0.
    cbn [split_scan]. rewrite H0.
    rewrite (IH (c :: cur) (c :: before) (fun k b => H (S k) b)).
    cbn [rev]. rewrite <- app_assoc. reflexivity.
Qed.

Lemma split_re_untouched p cs s :
  needs (reflags p) (source p) cs = true -> free_of cs s = true ->
  s <> [] -> split_re p s = [s].
Proof.
  intros Hn Hs Hne. destruct s as [|c t]; [contradiction|].
  unfold split_re.
  apply (split_scan_no_match p (c :: t) [] []), (needs_no_match p cs _ Hn Hs).
Qed.

(** *** The methods on a text without their markers *)

Lemma parseCode_untouched s this :
  free_of (lit "`") s = true -> fst (parseCode s this) = Normal s.
Proof.
  intros H. unfold parseCode, bind, replace_pattern, ret. cbn [fst].
  rewrite (replace_all_untouched (pattern p_codeBlock) _ (lit "`") s eq_refl H).
  rewrite (replace_all_untouched (pattern p_code) _ (lit "`") s eq_refl H).
  reflexivity.
Qed.

Lemma parseHeadings_untouched s this :
  free_of (lit "#") s = true -> fst (parseHeadings s this) = Normal s.
Proof.
  intros H. unfold parseHeadings, replace_pattern. cbn [fst].
  rewrite (replace_all_untouched (pattern p_heading) _ (lit "#") s eq_refl H).
  reflexivity.
Qed.

Lemma parseLinksAndImages_untouched s this :
  free_of (lit "[") s = true -> fst (parseLinksAndImages s this) = Normal s.
Proof.
  intros H. unfold parseLinksAndImages, bind, replace_pattern, ret. cbn [fst].
  rewrite (replace_all_untouched (pattern p_image) _ (lit "[") s eq_refl H).
  rewrite (replace_all_untouched (pattern p_link) _ (lit "[") s eq_refl H).
  reflexivity.
Qed.

Lemma parseFormatting_untouched s this :
  free_of (lit "*") s = true -> fst (parseFormatting s this) = Normal s.
Proof.
  intros H. unfold parseFormatting, bind, replace_pattern, ret. cbn [fst].
  rewrite (replace_all_untouched (pattern p_bold) _ (lit "*") s eq_refl H).
  rewrite (replace_all_untouched (pattern p_italic) _ (lit "*") s eq_refl H).
  reflexivity.
Qed.

Lemma parseBlockElements_untouched s this :
  free_of (lit ">-") s = true -> fst (parseBlockElements s this) = Normal s.
Proof.
  intros H. unfold parseBlockElements, bind, replace_pattern, ret. cbn [fst].
  rewrite (replace_all_untouched (pattern p_blockquote) _ (lit ">-") s eq_refl H).
  rewrite (replace_all_untouched (pattern p_horizontalRule) _ (lit ">-") s eq_refl H).
  reflexivity.
Qed.

Lemma kind_of_untouched line :
  free_of (lit "-*+.") line = true -> kind_of line = Plain.
Proof.
  intros H. unfold kind_of.
  rewrite (match_first_untouched unordered_item (lit "-*+.") line eq_refl H).
  rewrite (match_first_untouched ordered_item (lit "-*+.") line eq_refl H).
  reflexivity.
Qed.

Lemma split_char_free cs sep s :
  free_of cs s = true -> forallb (free_of cs) (split_char sep s) = true.
Proof.
  induction s as [|c t IH]; intros H; [reflexivity|].
  cbn [free_of forallb] in H. apply andb_prop in H. destruct H as [Hc Ht].
  specialize (IH Ht). cbn [split_char].
  destruct (c =? sep)%N; [exact IH|].
  destruct (split_char sep t) as [|l ls]; cbn [forallb free_of] in *.
  - rewrite Hc. reflexivity.
  - apply andb_prop in IH. destruct IH as [Hl Hls].
    fold (free_of cs l). rewrite Hc, Hl, Hls. reflexivity.
Qed.

Lemma parseLists_untouched s :
  free_of (lit "-*+.") s = true -> parseLists s = s.
Proof.
  intros H. unfold parseLists, list_lines.
  rewrite fold_plain_lines.
  - cbn [inUnorderedList inOrderedList result app]. apply join_split_lines.
  - pose proof (split_char_free _ 10%N s H) as F.
    rewrite forallb_forall in *. intros l Hl.
    rewrite (kind_of_untouched l (F l Hl)). reflexivity.
Qed.

Lemma trim_nonempty_source s : nonempty (trim s) = true -> s <> [].
Proof. intros H ->. discriminate. Qed.

Lemma parseParagraphs_one s :
  free_of (lit "\n<>#-*+.`") s = true -> nonempty (trim s) = true ->
  parseParagraphs s = lit "<p class=\qblog-paragraph\q>" ++ trim s ++ lit "</p>".
Proof.
  intros H Hne. unfold parseParagraphs.
  rewrite (split_re_untouched blank_lines (lit "\n<>#-*+.`") s eq_refl H
             (trim_nonempty_source s Hne)).
  cbn [fold_left]. rewrite Hne. cbn [negb].
  pose proof (free_of_substring _ _ _ (trim_substring s) H) as Ht.
  unfold matches.
  rewrite (match_first_untouched starts_with_tag (lit "\n<>#-*+.`") _ eq_refl Ht).
  rewrite (match_first_untouched starts_with_heading (lit "\n<>#-*+.`") _ eq_refl Ht).
  rewrite (match_first_untouched starts_with_bullet (lit "\n<>#-*+.`") _ eq_refl Ht).
  rewrite (match_first_untouched starts_with_number (lit "\n<>#-*+.`") _ eq_refl Ht).
  rewrite (match_first_untouched starts_with_quote (lit "\n<>#-*+.`") _ eq_refl Ht).
  rewrite (match_first_untouched starts_with_fence (lit "\n<>#-*+.`") _ eq_refl Ht).
  reflexivity.
Qed.

Lemma sanitizeHtml_untouched s :
  free_of (lit "<=:") s = true -> sanitizeHtml (VStr s) = s.
Proof.
  intros H. destruct s as [|c t]; [reflexivity|].
  unfold sanitizeHtml. cbn [truthy is_string negb orb str_of].
  rewrite (replace_all_untouched script_element _ (lit "<=:") _ eq_refl H).
  rewrite (replace_all_untouched handler_attribute _ (lit "<=:") _ eq_refl H).
  apply (replace_all_untouched javascript_uri _ (lit "<=:") _ eq_refl H).
Qed.

Lemma parseMetadata_untouched s :
  free_of (lit "-") s = true -> parseMetadata s = ([], trim s).
Proof.
  intros H. unfold parseMetadata, match_pattern.
  rewrite (match_first_untouched (pattern p_metadata) (lit "-") s eq_refl H).
  reflexivity.
Qed.

Lemma extractPreview_untouched s this :
  free_of (lit "<") s = true -> fst (extractPreview s this) = Normal ([], s).
Proof.
  intros H.
  pose proof (needs_no_match (pattern p_preview) (lit "<") s eq_refl H) as Hno.
  unfold extractPreview, bind, matchAll_pattern, replace_pattern, ret, replace_all.
  rewrite (collect_scan_no_match _ s _ [] Hno).
  rewrite (proj1 (scan_no_match _ removed s [] Hno)).
  reflexivity.
Qed.

Lemma returns_fst_eq (A : Type) (c : M A) (v : A) :
  (forall this, fst (c this) = Normal v) -> returns c (fun x => x = v).
Proof.
  intros H this x this' E. specialize (H this). rewrite E in H.
  cbn [fst] in H. congruence.
Qed.

Lemma trim_fixed (c d : char) (m : jstring) :
  is_space c = false -> is_space d = false ->
  trim (c :: m ++ [d]) = c :: m ++ [d].
Proof.
  intros Hc Hd. unfold trim. cbn [trimStart]. rewrite Hc.
  unfold trimEnd. change (c :: m ++ [d]) with ((c :: m) ++ [d]).
  rewrite rev_app_distr. cbn [rev app trimStart]. rewrite Hd.
  change (d :: rev m ++ [c]) with ([d] ++ rev (c :: m)).
  rewrite rev_app_distr, rev_involutive. reflexivity.
Qed.

Lemma strip_tags_from_free (b t : jstring) :
  free_of (lit "<") b = true ->
  strip_tags_from false (b ++ t) = b ++ strip_tags_from false t.
Proof.
  induction b as [|c b IH]; intros H; [reflexivity|].
  cbn [free_of forallb] in H. apply andb_prop in H. destruct H as [Hc Hb].
  apply negb_true_iff in Hc.
  assert (E : (c =? ch "<")%N = false).
  { etransitivity; [symmetry; apply orb_false_r | exact Hc]. }
  cbn [app strip_tags_from]. rewrite E. cbn [andb]. rewrite (IH Hb). reflexivity.
Qed.

Lemma strip_tags_paragraph (b : jstring) :
  free_of (lit "<") b = true -> strip_tags (paragraph b) = b.
Proof.
  intros H. unfold strip_tags, paragraph.
  change (strip_tags_from false (lit "<p class=\qblog-paragraph\q>" ++ b ++ lit "</p>"))
    with (strip_tags_from false (b ++ lit "</p>")).
  rewrite (strip_tags_from_free b _ H). apply app_nil_r.
Qed.

Lemma strip_tags_free (b : jstring) :
  free_of (lit "<") b = true -> strip_tags b = b.
Proof.
  intros H. unfold strip_tags.
  rewrite <- (app_nil_r b) at 1. rewrite (strip_tags_from_free b [] H).
  apply app_nil_r.
Qed.

Lemma countWords_paragraph (b : jstring) :
  free_of (lit "<") b = true -> countWords (paragraph b) = countWords b.
Proof.
  intros H. unfold countWords.
  rewrite !replace_any_tag, (strip_tags_paragraph b H), (strip_tags_free b H).
  reflexivity.
Qed.

Lemma trim_paragraph (b : jstring) : trim (paragraph b) = paragraph b.
Proof.
  unfold paragraph.
  change (lit "<p class=\qblog-paragraph\q>" ++ b ++ lit "</p>")
    with (60%N :: (lit "p class=\qblog-paragraph\q>" ++ b ++ lit "</p>")).
  replace (lit "p class=\qblog-paragraph\q>" ++ b ++ lit "</p>")
    with ((lit "p class=\qblog-paragraph\q>" ++ b ++ lit "</p") ++ [62%N]).
  - apply trim_fixed; reflexivity.
  - rewrite <- !app_assoc. reflexivity.
Qed.

(** What [parse] of the class does with a text in which no stage before
    [parseParagraphs] finds anything. *)
Lemma parse_body_untouched now (s : jstring) :
  free_of (lit "-") s = true -> free_of markup_units (trim s) = true ->
  returns (parse_body ColParser_methods now s)
    (fun r => r = MkParseResult (result_metadata now []) []
                    (trim (parseParagraphs (trim s)))
                    (countWords (parseParagraphs (trim s)))
                    (estimateReadTime (parseParagraphs (trim s)))).
Proof.
  intros H Hb.
  assert (F : forall small,
             forallb (fun c => existsb (N.eqb c) markup_units) small = true ->
             free_of small (trim s) = true).
  { intros small Hs. exact (free_of_fewer small _ _ Hs Hb). }
  unfold parse_body.
  cbn [m_parseMetadata m_extractPreview m_sanitizeHtml m_parseCode
       m_parseHeadings m_parseLinksAndImages m_parseFormatting m_parseLists
       m_parseBlockElements m_parseParagraphs m_countWords m_estimateReadTime
       ColParser_methods].
  apply (returns_bind _ _ _ _ (fun x => x = ([], trim s))).
  { apply returns_ret, parseMetadata_untouched, H. }
  intros ? ->.
  apply (returns_bind _ _ _ _ (fun x => x = ([], trim s))).
  { apply returns_fst_eq. intros this.
    apply extractPreview_untouched, F. reflexivity. }
  intros ? ->.
  apply (returns_bind _ _ _ _ (fun x => x = trim s)).
  { apply returns_ret, sanitizeHtml_untouched, F. reflexivity. }
  intros ? ->.
  apply (returns_bind _ _ _ _ (fun x => x = trim s)).
  { apply returns_fst_eq. intros this.
    apply parseCode_untouched, F. reflexivity. }
  intros ? ->.
  apply (returns_bind _ _ _ _ (fun x => x = trim s)).
  { apply returns_fst_eq. intros this.
    apply parseHeadings_untouched, F. reflexivity. }
  intros ? ->.
  apply (returns_bind _ _ _ _ (fun x => x = trim s)).
  { apply returns_fst_eq. intros this.
    apply parseLinksAndImages_untouched, F. reflexivity. }
  intros ? ->.
  apply (returns_bind _ _ _ _ (fun x => x = trim s)).
  { apply returns_fst_eq. intros this.
    apply parseFormatting_untouched, F. reflexivity. }
  intros ? ->.
  apply (returns_bind _ _ _ _ (fun x => x = trim s)).
  { apply returns_ret, parseLists_untouched, F. reflexivity. }
  intros ? ->.
  apply (returns_bind _ _ _ _ (fun x => x = trim s)).
  { apply returns_fst_eq. intros this.
    apply parseBlockElements_untouched, F. reflexivity. }
  intros ? ->.
  apply (returns_bind _ _ _ _ (fun x => x = parseParagraphs (trim s)));
    [apply returns_ret; reflexivity | intros ? ->].
  cbn [nonempty].
  apply (returns_bind _ _ _ _ (fun x => x = []));
    [apply returns_ret; reflexivity | intros ? ->].
  apply (returns_bind _ _ _ _ (fun x => x = countWords (parseParagraphs (trim s))));
    [apply returns_ret; reflexivity | intros ? ->].
  apply (returns_bind _ _ _ _
           (fun x => x = estimateReadTime (parseParagraphs (trim s))));
    [apply returns_ret; reflexivity | intros ? ->].
  apply returns_ret. reflexivity.
Qed.

Lemma parse_nonempty_returns now (s : jstring) this :
  s <> [] ->
  exists r, fst (parse now (VStr s) this) = Normal r.
Proof.
  intros Hne. destruct s as [|c t]; [contradiction|].
  destruct (parse_body_succeeds now (c :: t) this) as (r & this' & E).
  exists r. unfold parse, parse_with.
  cbn [truthy is_string negb orb str_of]. unfold try_catch. rewrite E.
  reflexivity.
Qed.

(** X15.  A one-line text with no markup in it (none of the units line
    feed, [<], [>], [=], [:], backtick, [#], the opening bracket, [*], [-], [+]
    and the full stop) comes out of [parse] as one paragraph around the
    trimmed text; the preview is empty, the metadata is the default one
    and the paragraph tag adds no word to the count. *)
Theorem parse_plain_line :
  forall (now : jstring) (s : jstring) (this : ColParser),
    free_of markup_units s = true ->
    nonempty (trim s) = true ->
    fst (parse now (VStr s) this) =
    Normal {| metadata := [ (lit "title", VStr (lit "Untitled"));
                            (lit "date", VStr (iso_date now));
                            (lit "author", VStr (lit "Anonymous"));
                            (lit "tags", VArr []) ];
              preview := [];
              content := lit "<p class=\qblog-paragraph\q>" ++ trim s ++ lit "</p>";
              wordCount := countWords s;
              estimatedReadTime := estimateReadTime s |}.
Proof.
  intros now s this H Hne.
  destruct (parse_nonempty_returns now s this (trim_nonempty_source s Hne))
    as (r & E).
  rewrite E. f_equal.
  pose proof (free_of_substring _ _ _ (trim_substring s) H) as Hb.
  rewrite (returns_fst _ _ _ this r
             (parse_returns now (VStr s) _
                (parse_body_untouched now s
                   (free_of_fewer (lit "-") markup_units _ eq_refl H) Hb)) E).
  assert (P : parseParagraphs (trim s) = paragraph (trim s)).
  { rewrite parseParagraphs_one.
    - rewrite trim_idempotent. reflexivity.
    - exact (free_of_fewer (lit "\n<>#-*+.`") markup_units _ eq_refl Hb).
    - rewrite trim_idempotent. exact Hne. }
  assert (W : countWords (paragraph (trim s)) = countWords s).
  { rewrite countWords_paragraph
      by exact (free_of_fewer (lit "<") markup_units _ eq_refl Hb).
    apply countWords_trim. }
  rewrite P, trim_paragraph. unfold estimateReadTime. rewrite W. reflexivity.
Qed.

Lemma parse_plain_line_witness :
  fst (parse (lit "2026-11-02T08:00:00.000Z") (VStr (lit "  a quiet day at home "))
         new_ColParser) =
  Normal {| metadata := [ (lit "title", VStr (lit "Untitled"));
                          (lit "date", VStr (lit "2026-11-02"));
                          (lit "author", VStr (lit "Anonymous"));
                          (lit "tags", VArr []) ];
            preview := [];
            content := lit "<p class=\qblog-paragraph\q>a quiet day at home</p>";
            wordCount := 5;
            estimatedReadTime := 1 |}.
Proof.
  exact (parse_plain_line (lit "2026-11-02T08:00:00.000Z")
           (lit "  a quiet day at home ") new_ColParser eq_refl eq_refl).
Defined.

Lemma spaces_free_of (cs s : jstring) :
  forallb (fun c => negb (is_space c)) cs = true ->
  forallb is_space s = true -> free_of cs s = true.
Proof.
  intros Hcs Hs. unfold free_of. rewrite forallb_forall in *.
  intros x Hx. specialize (Hs x Hx). apply negb_true_iff.
  destruct (existsb (N.eqb x) cs) eqn:E; [|reflexivity].
  apply existsb_eqb_In in E. specialize (Hcs x E).
  rewrite Hs in Hcs. discriminate.
Qed.

(** X16.  A text of white space only is not refused: [parse] returns the
    default metadata with an empty preview and an empty content of no
    words, read in one minute. *)
Theorem parse_blank_text :
  forall (now : jstring) (s : jstring) (this : ColParser),
    nonempty s = true ->
    forallb is_space s = true ->
    fst (parse now (VStr s) this) =
    Normal {| metadata := [ (lit "title", VStr (lit "Untitled"));
                            (lit "date", VStr (iso_date now));
                            (lit "author", VStr (lit "Anonymous"));
                            (lit "tags", VArr []) ];
              preview := [];
              content := [];
              wordCount := 0;
              estimatedReadTime := 1 |}.
Proof.
  intros now s this Hne Hs.
  assert (Hs' : s <> []) by (intros ->; discriminate).
  destruct (parse_nonempty_returns now s this Hs') as (r & E).
  rewrite E. f_equal.
  assert (T : trim s = []).
  { unfold trim. rewrite (trimStart_all_spaces s Hs). reflexivity. }
  rewrite (returns_fst _ _ _ this r
             (parse_returns now (VStr s) _
                (parse_body_untouched now s
                   (spaces_free_of (lit "-") s eq_refl Hs)
                   ltac:(rewrite T; reflexivity))) E).
  rewrite T. reflexivity.
Qed.

Lemma parse_blank_text_witness :
  fst (parse (lit "2026-11-02T08:00:00.000Z") (VStr (lit " \n  \n")) new_ColParser) =
  Normal {| metadata := [ (lit "title", VStr (lit "Untitled"));
                          (lit "date", VStr (lit "2026-11-02"));
                          (lit "author", VStr (lit "Anonymous"));
                          (lit "tags", VArr []) ];
            preview := [];
            content := [];
            wordCount := 0;
            estimatedReadTime := 1 |}.
Proof.
  exact (parse_blank_text (lit "2026-11-02T08:00:00.000Z") (lit " \n  \n")
           new_ColParser eq_refl eq_refl).
Defined.

(** X17.  Each markdown stage leaves alone a text in which the units its
    patterns start from do not occur: [parseCode] without a backtick,
    [parseHeadings] without [#], [parseLinksAndImages] without an opening
    bracket, [parseFormatting] without [*], [parseLists] without [-], [*],
    [+] and the full stop, [parseBlockElements] without [>] and [-]. *)
Theorem markdown_stages_without_markers :
  forall (s : jstring) (this : ColParser),
    (free_of (lit "`") s = true -> fst (parseCode s this) = Normal s)
    /\ (free_of (lit "#") s = true -> fst (parseHeadings s this) = Normal s)
    /\ (free_of (lit "[") s = true ->
        fst (parseLinksAndImages s this) = Normal s)
    /\ (free_of (lit "*") s = true -> fst (parseFormatting s this) = Normal s)
    /\ (free_of (lit "-*+.") s = true -> parseLists s = s)
    /\ (free_of (lit ">-") s = true ->
        fst (parseBlockElements s this) = Normal s).
Proof.
  intros s this. repeat split; intros H.
  - apply parseCode_untouched, H.
  - apply parseHeadings_untouched, H.
  - apply parseLinksAndImages_untouched, H.
  - apply parseFormatting_untouched, H.
  - apply parseLists_untouched, H.
  - apply parseBlockElements_untouched, H.
Qed.

Lemma markdown_stages_without_markers_witness :
  fst (parseFormatting (lit "# a [link](u) and `code`\n- item") new_ColParser)
  = Normal (lit "# a [link](u) and `code`\n- item").
Proof.
  exact (proj1 (proj2 (proj2 (proj2
           (markdown_stages_without_markers
              (lit "# a [link](u) and `code`\n- item") new_ColParser))))
           eq_refl).
Defined.

End Markers.

(** ** [loadFile] *)

Section LoadFile.

Lemma parse_throws now (v : value) this e :
  fst (parse now v this) = Throw e -> valid_input v = false /\ e = InvalidInput.
Proof.
  unfold parse, parse_with. rewrite guard_valid_input.
  destruct (valid_input v) eqn:V; cbn [negb].
  - unfold try_catch.
    destruct (parse_body_succeeds now (str_of v) this) as (r & this' & ->).
    discriminate.
  - unfold throw. cbn [fst]. intros [= <-]. auto.
Qed.

(** X18.  [loadFile] on a response that is ok and has a text that is not
    empty returns what [parse] returns for the text; it does not fail. *)
Theorem loadFile_returns_parse_result :
  forall (now url : jstring) (status : nat) (statusText : jstring)
         (content : jstring) (this : ColParser),
    nonempty content = true ->
    exists r,
      fst (loadFile now url (Response true status statusText (Normal content)) this)
        = Normal r
      /\ fst (parse now (VStr content) this) = Normal r.
Proof.
  intros now url status statusText content this Hne.
  assert (Hc : content <> []) by (intros ->; discriminate).
  destruct (parse_nonempty_returns now content this Hc) as (r & E).
  exists r. split; [|exact E].
  unfold loadFile, try_catch. cbn [negb].
  destruct (parse now (VStr content) this) as [[x|e] this']; cbn [fst] in *;
    [exact E | discriminate].
Qed.

Lemma loadFile_returns_parse_result_witness :
  exists r,
    fst (loadFile (lit "2026-11-02T08:00:00.000Z") (lit "posts/a.col")
           (Response true 200 (lit "OK") (Normal (lit "# Hi"))) new_ColParser)
      = Normal r
    /\ fst (parse (lit "2026-11-02T08:00:00.000Z") (VStr (lit "# Hi")) new_ColParser)
       = Normal r.
Proof.
  exact (loadFile_returns_parse_result (lit "2026-11-02T08:00:00.000Z")
           (lit "posts/a.col") 200 (lit "OK") (lit "# Hi") new_ColParser eq_refl).
Defined.

(** X19.  Whatever makes [loadFile] fail, it throws one kind of error:
    the message names the url and then the reason, which is the message of
    the network error, [HTTP status: statusText] for a response that is not
    ok, or the message of [parse] for an empty text.  No other text makes
    it fail. *)
Theorem loadFile_failure_message :
  forall (now url : jstring) (network : fetched) (this : ColParser)
         (e : JsError),
    fst (loadFile now url network this) = Throw e ->
    exists reason,
      message e = lit "Failed to load .col file from " ++ url ++ lit ": " ++ reason
      /\ match network with
         | Rejected error => reason = message error
         | Response false status statusText _ =>
             reason = lit "HTTP " ++ dec status ++ lit ": " ++ statusText
         | Response true _ _ (Throw error) => reason = message error
         | Response true _ _ (Normal content) =>
             content = []
             /\ reason = lit "Invalid input: content must be a non-empty string"
         end.
Proof.
  intros now url network this e H. unfold loadFile, try_catch in H.
  destruct network as [error | [|] status statusText [content|error]];
    cbn [negb throw fst] in H.
  - injection H as <-. eexists. split; reflexivity.
  - destruct (parse now (VStr content) this) as [[x|e0] this'] eqn:E;
      cbn [fst] in H; [discriminate|].
    injection H as <-.
    destruct (parse_throws now (VStr content) this e0
                ltac:(rewrite E; reflexivity)) as [V ->].
    eexists. split; [reflexivity|]. split; [|reflexivity].
    destruct content; [reflexivity | discriminate].
  - injection H as <-. eexists. split; reflexivity.
  - injection H as <-. eexists. split; reflexivity.
  - injection H as <-. eexists. split; reflexivity.
Qed.

Lemma loadFile_failure_message_witness :
  exists reason,
    lit "Failed to load .col file from posts/a.col: HTTP 404: Not Found"
    = lit "Failed to load .col file from " ++ lit "posts/a.col" ++ lit ": " ++ reason
    /\ reason = lit "HTTP " ++ dec 404 ++ lit ": " ++ lit "Not Found".
Proof.
  exact (loadFile_failure_message (lit "2026-11-02T08:00:00.000Z")
           (lit "posts/a.col") (Response false 404 (lit "Not Found") (Normal []))
           new_ColParser
           (MkError (lit "Failed to load .col file from posts/a.col: HTTP 404: Not Found"))
           eq_refl).
Defined.

End LoadFile.

(** ** The ends of what [parseParagraphs] returns *)

Section Paragraphs.

Lemma tight_ends (x : jstring) :
  tight x ->
  exists c m d, (x = [c] /\ m = [] /\ d = c \/ x = c :: m ++ [d])
                /\ is_space c = false /\ is_space d = false.
Proof.
  intros [Hne Ht]. destruct x as [|c t]; [contradiction|].
  pose proof (trim_head _ _ _ Ht) as Hc.
  pose proof (trim_last _ _ _ Ht) as Hd.
  destruct t as [|c' t'].
  - exists c, [], c. auto.
  - exists c, (removelast (c' :: t')), (last (c' :: t') 32%N).
    split; [right | split; [exact Hc | exact Hd]].
    rewrite <- app_removelast_last by discriminate. reflexivity.
Qed.

Lemma tight_app (a m b : jstring) : tight a -> tight b -> tight (a ++ m ++ b).
Proof.
  intros Ha Hb.
  destruct (tight_ends a Ha) as (c & a' & c' & Ea & Hc & _).
  destruct (tight_ends b Hb) as (d' & b' & d & Eb & _ & Hd).
  assert (Xa : exists u, a = c :: u)
    by (destruct Ea as [(-> & _)| ->]; eauto).
  assert (Xb : exists v, b = v ++ [d]).
  { destruct Eb as [(-> & _ & ->)| ->]; [exists []; reflexivity|].
    exists (d' :: b'). reflexivity. }
  destruct Xa as (u & ->), Xb as (v & ->).
  split; [discriminate|].
  replace ((c :: u) ++ m ++ v ++ [d]) with (c :: (u ++ m ++ v) ++ [d])
    by (cbn [app]; rewrite <- !app_assoc; reflexivity).
  apply trim_fixed; assumption.
Qed.

Lemma join_tight (sep : jstring) (l : list jstring) :
  Forall tight l -> l <> [] -> tight (join sep l).
Proof.
  induction 1 as [|x l Hx Hl IH]; intros Hne; [contradiction|].
  destruct l as [|y t]; [exact Hx|].
  change (join sep (x :: y :: t)) with (x ++ sep ++ join sep (y :: t)).
  apply tight_app; [exact Hx | apply IH; discriminate].
Qed.

Lemma tight_paragraph (b : jstring) : tight (paragraph b).
Proof.
  split; [|apply trim_paragraph].
  unfold paragraph. discriminate.
Qed.

(** X20.  What [parseParagraphs] returns has no white space at its ends:
    the [trim] that [parse] applies to it afterwards changes nothing. *)
Theorem parseParagraphs_trimmed :
  forall content : jstring,
    trim (parseParagraphs content) = parseParagraphs content.
Proof.
  intros content. unfold parseParagraphs.
  set (step := fun (result : list jstring) (section : jstring) => _).
  assert (Inv : forall sections acc,
             Forall tight acc -> Forall tight (fold_left step sections acc)).
  { induction sections as [|x xs IH]; intros acc Hacc; [exact Hacc|].
    cbn [fold_left]. apply IH. unfold step.
    destruct (nonempty (trim x)) eqn:Hne; cbn [negb]; [|exact Hacc].
    assert (Tx : tight (trim x)).
    { split; [intros E; rewrite E in Hne; discriminate | apply trim_idempotent]. }
    destruct (matches starts_with_tag (trim x) || matches starts_with_heading (trim x)
              || matches starts_with_bullet (trim x)
              || matches starts_with_number (trim x)
              || matches starts_with_quote (trim x)
              || matches starts_with_fence (trim x));
      (apply Forall_app; split; [exact Hacc|]; constructor; [|constructor]);
      [exact Tx | apply (tight_paragraph (trim x))]. }
  specialize (Inv (split_re blank_lines content) [] (Forall_nil _)).
  destruct (fold_left step (split_re blank_lines content) []) as [|x l] eqn:E;
    [reflexivity|].
  apply (join_tight (lit "\n\n") (x :: l) Inv). discriminate.
Qed.

End Paragraphs.

(** ** Spans: inline code, links, bold and italic *)

Section Spans.

(** *** A span between two delimiters *)

Lemma greedy_try_run (p : char -> bool) (k : cont) z :
  forall after before cs,
    k (MState (rev (run p after) ++ before) (after_run p after) cs) = Some z ->
    greedy_try p k before after cs = Some z.
Proof.
  induction after as [|c t IH]; intros before cs H; cbn [greedy_try run after_run] in *.
  - exact H.
  - destruct (p c); [|exact H].
    rewrite (IH (c :: before) cs); [reflexivity|].
    cbn [rev] in H. rewrite <- app_assoc in H. exact H.
Qed.

Lemma run_stop (p : char -> bool) (a : jstring) (x : char) (r : jstring) :
  forallb p a = true -> p x = false ->
  run p (a ++ x :: r) = a /\ after_run p (a ++ x :: r) = x :: r.
Proof.
  intros Ha Hx. induction a as [|c a IH]; cbn [app run after_run].
  - rewrite Hx. auto.
  - cbn [forallb] in Ha. apply andb_prop in Ha. destruct Ha as [Hc Ha].
    rewrite Hc. destruct (IH Ha) as [-> ->]. auto.
Qed.

Lemma consumed_app (before before' a r : jstring) cs cs' :
  consumed (MState before (a ++ r) cs) (MState before' r cs') = a.
Proof.
  unfold consumed. cbn [rest]. rewrite length_app.
  replace (length a + length r - length r) with (length a) by lia.
  rewrite firstn_app, Nat.sub_diag, firstn_all. cbn [firstn]. apply app_nil_r.
Qed.

(** A group of one or more units of a class, up to the first unit that is
    not of the class: when what follows the group accepts there, so does
    the group. *)
Lemma match_group_plus fl n neg items (k : cont) z
    (a : jstring) (x : char) (r before : jstring) cs :
  a <> [] ->
  forallb (fun y => xorb neg (in_items fl items y)) a = true ->
  xorb neg (in_items fl items x) = false ->
  k (MState (rev a ++ before) (x :: r) ((n, a) :: cs)) = Some z ->
  rmatch fl (RGroup n (plus (RSet neg items))) (MState before (a ++ x :: r) cs) k
  = Some z.
Proof.
  intros Hne Ha Hx Hk. destruct a as [|c a']; [contradiction|].
  unfold plus. cbn [rmatch rest].
  rewrite rep_loop_plus_class by (cbn [length app]; lia).
  cbn [app]. cbn [forallb] in Ha. apply andb_prop in Ha. destruct Ha as [Hc Ha'].
  rewrite Hc. apply greedy_try_run.
  destruct (run_stop _ a' x r Ha' Hx) as [-> ->].
  change (c :: a' ++ x :: r) with ((c :: a') ++ x :: r).
  rewrite consumed_app. unfold set_cap. cbn [pre rest caps].
  cbn [rev] in Hk. rewrite <- app_assoc in Hk. exact Hk.
Qed.

Lemma match_unit (c : char) (k : cont) before t cs :
  rmatch no_flags (RChar c) (MState before (c :: t) cs) k
  = k (MState (c :: before) t cs).
Proof.
  cbn [rmatch]. rewrite step_char_cons. cbn. rewrite N.eqb_refl. reflexivity.
Qed.

(** *** Passing over a text in a replacement *)

Lemma replace_scan_skip p f :
  forall a before r,
    replace_scan p f (length a) before (a ++ r)
    = replace_scan p f 0 (rev a ++ before) r.
Proof.
  induction a as [|c a IH]; intros before r; [reflexivity|].
  cbn [length app replace_scan rev]. rewrite IH, <- app_assoc. reflexivity.
Qed.

(** A pattern whose every match starts with the unit [c0] passes over a
    text without [c0]. *)
Lemma replace_scan_prefix p f (c0 : char) :
  (forall before after st,
     match_at p before after = Some st -> exists t, after = c0 :: t) ->
  forall a before r,
    free_of [c0] a = true ->
    replace_scan p f 0 before (a ++ r)
    = a ++ replace_scan p f 0 (rev a ++ before) r.
Proof.
  intros Hfirst. induction a as [|c a IH]; intros before r H; [reflexivity|].
  cbn [free_of forallb] in H. apply andb_prop in H. destruct H as [Hc Ha].
  cbn [app replace_scan].
  destruct (match_at p before (c :: a ++ r)) eqn:E.
  - destruct (Hfirst _ _ _ E) as (t & [= -> _]).
    cbn [existsb] in Hc. rewrite N.eqb_refl in Hc. discriminate.
  - rewrite (IH (c :: before) r Ha). cbn [rev]. rewrite <- app_assoc.
    reflexivity.
Qed.

(** After a match that is not empty the replacement goes on where the
    match ended. *)
Lemma replace_scan_at p f before (c : char) (m r : jstring) st' :
  match_at p before (c :: m ++ r) = Some st' -> rest st' = r ->
  replace_scan p f 0 before (c :: m ++ r)
  = f (MkMatch (c :: m) (length before) (caps st'))
      ++ replace_scan p f 0 (rev m ++ c :: before) r.
Proof.
  intros H Hr. cbn [replace_scan]. rewrite H.
  unfold match_len, result_of. rewrite Hr.
  assert (L : length (c :: m ++ r) - length r = S (length m))
    by (cbn [length]; rewrite length_app; lia).
  rewrite L. cbn [Nat.eqb]. rewrite Nat.sub_succ, Nat.sub_0_r.
  rewrite replace_scan_skip. f_equal. f_equal.
  change (c :: m ++ r) with ((c :: m) ++ r).
  rewrite <- L. change (c :: m ++ r) with ((c :: m) ++ r).
  rewrite length_app, Nat.add_sub, firstn_app, Nat.sub_diag, firstn_all.
  cbn [firstn]. rewrite app_nil_r. reflexivity.
Qed.

Lemma first_unit_of p (c0 : char) r' :
  reflags p = no_flags -> source p = RSeq (RChar c0) r' ->
  forall before after st,
    match_at p before after = Some st -> exists t, after = c0 :: t.
Proof.
  intros Hf Hs before after st H.
  destruct (match_at_lang _ _ _ _ H) as (x & -> & L).
  rewrite Hf, Hs in L. cbn [lang] in L.
  destruct L as (x1 & x2 & -> & L1 & _).
  apply lang_char in L1. subst x1. eexists. reflexivity.
Qed.

Lemma not_of_unit (c0 : char) (a : jstring) :
  free_of [c0] a = true ->
  forallb (fun y => xorb true (in_items no_flags [CChar c0] y)) a = true.
Proof. intros H. exact H. Qed.

(** *** Inline code *)

Lemma match_at_code before (code post : jstring) :
  nonempty code = true -> free_of (lit "`") code = true ->
  match_at (pattern p_code) before (96%N :: code ++ 96%N :: post)
  = Some (MState (96%N :: rev code ++ 96%N :: before) post [(1, code)]).
Proof.
  intros Hne Hc. unfold match_at.
  change (source (pattern p_code))
    with (RSeq (RChar 96) (RSeq (RGroup 1 (plus (RSet true [CChar 96]))) (RChar 96))).
  change (reflags (pattern p_code)) with no_flags.
  change (rmatch no_flags (RSeq ?a ?b) ?st ?k)
    with (rmatch no_flags a st (fun st' => rmatch no_flags b st' k)).
  rewrite match_unit.
  change (rmatch no_flags (RSeq ?a ?b) ?st ?k)
    with (rmatch no_flags a st (fun st' => rmatch no_flags b st' k)).
  apply match_group_plus.
  - intros ->. discriminate.
  - exact Hc.
  - reflexivity.
  - apply match_unit.
Qed.

Lemma count_unit_app c a b : count_unit c (a ++ b) = count_unit c a + count_unit c b.
Proof. unfold count_unit. rewrite filter_app. apply length_app. Qed.

Lemma count_unit_free c a : free_of [c] a = true -> count_unit c a = 0.
Proof.
  induction a as [|x a IH]; intros H; [reflexivity|].
  cbn [free_of forallb] in H. apply andb_prop in H. destruct H as [Hx Ha].
  cbn [existsb] in Hx. rewrite orb_false_r in Hx. apply negb_true_iff in Hx.
  unfold count_unit. cbn [filter]. rewrite N.eqb_sym, Hx. apply IH, Ha.
Qed.

Lemma count_unit_skipn c s k : count_unit c (skipn k s) <= count_unit c s.
Proof.
  rewrite <- (firstn_skipn k s) at 2. rewrite count_unit_app. lia.
Qed.

Lemma codeBlock_needs_fence before after st :
  match_at (pattern p_codeBlock) before after = Some st ->
  3 <= count_unit 96 after.
Proof.
  intros H. destruct (match_at_lang _ _ _ _ H) as (x & -> & L).
  change (source (pattern p_codeBlock))
    with (RSeq (rlit "```")
            (rseq [RGroup 1 (star rword); rlit "\n"; RGroup 2 (lazy_star rany);
                   rlit "```"])) in L.
  change (reflags (pattern p_codeBlock)) with no_flags in L.
  cbn [lang] in L. destruct L as (x1 & x2 & -> & L1 & _).
  apply lang_literal in L1; [|discriminate]. subst x1.
  rewrite !count_unit_app. change (count_unit 96 (lit "```")) with 3. lia.
Qed.

Lemma replace_all_no_match p f s :
  (forall k before, match_at p before (skipn k s) = None) ->
  replace_all p f s = s.
Proof. intros H. apply scan_no_match, H. Qed.

(** X21.  An inline code span between two texts without a backtick: the
    span becomes a [code] element around the escaped code, and the texts
    around it stay as they are. *)
Theorem parseCode_inline_span :
  forall (before code after : jstring) (this : ColParser),
    free_of (lit "`") before = true ->
    free_of (lit "`") code = true ->
    nonempty code = true ->
    free_of (lit "`") after = true ->
    fst (parseCode (before ++ lit "`" ++ code ++ lit "`" ++ after) this)
    = Normal (before ++ lit "<code class=\qblog-inline-code\q>"
                ++ escapeHtml (VStr code) ++ lit "</code>" ++ after).
Proof.
  intros pre code post this Hpre Hcode Hne Hpost.
  unfold parseCode, bind, replace_pattern, ret. cbn [fst]. f_equal.
  set (s := pre ++ lit "`" ++ code ++ lit "`" ++ post).
  assert (Hcount : count_unit 96 s = 2).
  { unfold s. rewrite !count_unit_app.
    rewrite (count_unit_free 96%N pre Hpre), (count_unit_free 96%N code Hcode),
      (count_unit_free 96%N post Hpost). reflexivity. }
  rewrite (replace_all_no_match (pattern p_codeBlock) _ s).
  2:{ intros k b.
      destruct (match_at (pattern p_codeBlock) b (skipn k s)) eqn:E;
        [exfalso | reflexivity].
      pose proof (codeBlock_needs_fence _ _ _ E) as C.
      pose proof (count_unit_skipn 96%N s k). lia. }
  unfold s, replace_all.
  rewrite (replace_scan_prefix (pattern p_code) _ 96%N
             (first_unit_of (pattern p_code) 96%N _ eq_refl eq_refl) pre [] _ Hpre).
  f_equal.
  rewrite (app_assoc code (lit "`") post).
  change (lit "`" ++ (code ++ lit "`") ++ post)
    with (96%N :: (code ++ lit "`") ++ post).
  rewrite (replace_scan_at (pattern p_code) _ _ 96%N (code ++ lit "`") post
             (MState (96%N :: rev code ++ 96%N :: rev pre ++ []) post [(1, code)])).
  - rewrite (proj1 (scan_no_match (pattern p_code) _ post _
                      (needs_no_match (pattern p_code) (lit "`") post eq_refl Hpost))).
    unfold group. cbn [m_groups caps lookup_cap Nat.eqb].
    rewrite <- !app_assoc. reflexivity.
  - rewrite <- app_assoc. apply (match_at_code _ code post Hne Hcode).
  - reflexivity.
Qed.

Lemma parseCode_inline_span_witness :
  fst (parseCode (lit "use `a < b` here") new_ColParser)
  = Normal (lit "use <code class=\qblog-inline-code\q>a &lt; b</code> here").
Proof.
  exact (parseCode_inline_span (lit "use ") (lit "a < b") (lit " here")
           new_ColParser eq_refl eq_refl eq_refl eq_refl).
Defined.

(** *** Links *)

Lemma match_at_link before (text url post : jstring) :
  nonempty text = true -> free_of (lit "]") text = true ->
  nonempty url = true -> free_of (lit ")") url = true ->
  match_at (pattern p_link) before
           (91%N :: text ++ 93%N :: 40%N :: url ++ 41%N :: post)
  = Some (MState (41%N :: rev url ++ 40%N :: 93%N :: rev text ++ 91%N :: before)
                 post [(2, url); (1, text)]).
Proof.
  intros Ht Ft Hu Fu. unfold match_at.
  change (source (pattern p_link))
    with (RSeq (RChar 91)
            (RSeq (RGroup 1 (plus (RSet true [CChar 93])))
               (RSeq (RChar 93)
                  (RSeq (RChar 40)
                     (RSeq (RGroup 2 (plus (RSet true [CChar 41]))) (RChar 41)))))).
  change (reflags (pattern p_link)) with no_flags.
  change (rmatch no_flags (RSeq ?a ?b) ?st ?k)
    with (rmatch no_flags a st (fun st' => rmatch no_flags b st' k)).
  rewrite match_unit.
  change (rmatch no_flags (RSeq ?a ?b) ?st ?k)
    with (rmatch no_flags a st (fun st' => rmatch no_flags b st' k)).
  apply match_group_plus;
    [intros ->; discriminate | exact Ft | reflexivity |].
  change (rmatch no_flags (RSeq ?a ?b) ?st ?k)
    with (rmatch no_flags a st (fun st' => rmatch no_flags b st' k)).
  rewrite match_unit.
  change (rmatch no_flags (RSeq ?a ?b) ?st ?k)
    with (rmatch no_flags a st (fun st' => rmatch no_flags b st' k)).
  rewrite match_unit.
  change (rmatch no_flags (RSeq ?a ?b) ?st ?k)
    with (rmatch no_flags a st (fun st' => rmatch no_flags b st' k)).
  apply match_group_plus;
    [intros ->; discriminate | exact Fu | reflexivity |].
  apply match_unit.
Qed.

Lemma image_needs_mark before after st :
  match_at (pattern p_image) before after = Some st ->
  startsWith (lit "![") after = true.
Proof.
  intros H. destruct (match_at_lang _ _ _ _ H) as (x & -> & L).
  change (source (pattern p_image))
    with (RSeq (rlit "![")
            (rseq [RGroup 1 (star (none_of "]")); rlit "]"; rlit "(";
                   RGroup 2 (plus (none_of ")")); rlit ")"])) in L.
  change (reflags (pattern p_image)) with no_flags in L.
  cbn [lang] in L. destruct L as (x1 & x2 & -> & L1 & _).
  apply lang_literal in L1; [|discriminate]. subst x1.
  rewrite <- app_assoc. apply startsWith_refl_app.
Qed.

Lemma no_mark_without_bracket (x : jstring) :
  free_of (lit "[") x = true -> startsWith (lit "![") x = false.
Proof.
  intros H. destruct x as [|c [|d t]]; [reflexivity | apply andb_false_r |].
  cbn [free_of forallb] in H. apply andb_prop in H. destruct H as [_ H].
  apply andb_prop in H. destruct H as [Hd _].
  apply negb_true_iff in Hd.
  assert (E : (91 =? d)%N = false).
  { rewrite N.eqb_sym. etransitivity; [symmetry; apply orb_false_r | exact Hd]. }
  change (startsWith (lit "![") (c :: d :: t))
    with ((33 =? c)%N && ((91 =? d)%N && true)).
  rewrite E. apply andb_false_r.
Qed.

Lemma no_mark_before_bracket (pre rest : jstring) :
  free_of (lit "![") pre = true -> free_of (lit "[") rest = true ->
  forall k, startsWith (lit "![") (skipn k (pre ++ 91%N :: rest)) = false.
Proof.
  intros Hpre Hrest. induction pre as [|c pre IH]; intros k.
  - destruct k as [|k]; cbn [app skipn]; [reflexivity|].
    apply no_mark_without_bracket, free_of_skipn, Hrest.
  - cbn [free_of forallb] in Hpre. apply andb_prop in Hpre.
    destruct Hpre as [Hc Hpre].
    destruct k as [|k]; cbn [app skipn]; [|apply IH, Hpre].
    apply negb_true_iff in Hc.
    assert (E : (33 =? c)%N = false).
    { rewrite N.eqb_sym. apply orb_false_elim in Hc. tauto. }
    destruct (pre ++ 91%N :: rest);
      cbn [startsWith lit]; change (N_of_ascii "!") with 33%N; rewrite E;
      reflexivity.
Qed.

(** X22.  A link whose text holds no bracket and whose address holds no
    opening bracket and no closing parenthesis, after a text without an
    opening bracket or an exclamation mark and before a text without an
    opening bracket: it becomes an [a] element whose address and text are
    escaped, and which opens in a new window when the address starts with
    [http]; the texts around it stay as they are. *)
Theorem parseLinksAndImages_link :
  forall (before text url after : jstring) (this : ColParser),
    free_of (lit "![") before = true ->
    nonempty text = true -> free_of (lit "[]") text = true ->
    nonempty url = true -> free_of (lit "[)") url = true ->
    free_of (lit "[") after = true ->
    fst (parseLinksAndImages
           (before ++ lit "[" ++ text ++ lit "](" ++ url ++ lit ")" ++ after) this)
    = Normal (before ++ lit "<a href=\q" ++ escapeHtml (VStr url)
                ++ lit "\q class=\qblog-link\q"
                ++ (if startsWith (lit "http") url
                    then lit " target=\q_blank\q rel=\qnoopener noreferrer\q"
                    else [])
                ++ lit ">" ++ escapeHtml (VStr text) ++ lit "</a>" ++ after).
Proof.
  intros pre text url post this Hpre Ht Ft Hu Fu Hpost.
  unfold parseLinksAndImages, bind, replace_pattern, ret. cbn [fst]. f_equal.
  set (middle := text ++ lit "](" ++ url ++ lit ")").
  assert (Fm : free_of (lit "[") (middle ++ post) = true).
  { unfold middle. rewrite !free_of_app.
    rewrite (free_of_fewer (lit "[") (lit "[]") text eq_refl Ft),
      (free_of_fewer (lit "[") (lit "[)") url eq_refl Fu), Hpost. reflexivity. }
  replace (pre ++ lit "[" ++ text ++ lit "](" ++ url ++ lit ")" ++ post)
    with (pre ++ 91%N :: middle ++ post)
    by (unfold middle; rewrite <- !app_assoc; reflexivity).
  rewrite (replace_all_no_match (pattern p_image) _ (pre ++ 91%N :: middle ++ post)).
  2:{ intros k b.
      destruct (match_at (pattern p_image) b
                  (skipn k (pre ++ 91%N :: middle ++ post))) eqn:E;
        [exfalso | reflexivity].
      pose proof (image_needs_mark _ _ _ E) as S.
      rewrite (no_mark_before_bracket pre (middle ++ post) Hpre Fm) in S.
      discriminate. }
  unfold replace_all.
  rewrite (replace_scan_prefix (pattern p_link) _ 91%N
             (first_unit_of (pattern p_link) 91%N _ eq_refl eq_refl) pre [] _
             (free_of_fewer (lit "[") (lit "![") pre eq_refl Hpre)).
  f_equal.
  rewrite (replace_scan_at (pattern p_link) _ _ 91%N middle post
             (MState (41%N :: rev url ++ 40%N :: 93%N :: rev text
                        ++ 91%N :: rev pre ++ [])
                     post [(2, url); (1, text)])).
  - rewrite (proj1 (scan_no_match (pattern p_link) _ post _
                      (needs_no_match (pattern p_link) (lit "[") post eq_refl Hpost))).
    unfold group. cbn [m_groups caps lookup_cap Nat.eqb].
    rewrite <- !app_assoc. reflexivity.
  - unfold middle. rewrite <- !app_assoc.
    apply (match_at_link _ text url post Ht
             (free_of_fewer (lit "]") (lit "[]") text eq_refl Ft) Hu
             (free_of_fewer (lit ")") (lit "[)") url eq_refl Fu)).
  - reflexivity.
Qed.

Lemma parseLinksAndImages_link_witness :
  fst (parseLinksAndImages (lit "see [the docs](https://a.b/?x=1&y=2)!") new_ColParser)
  = Normal (lit "see <a href=\qhttps://a.b/?x=1&amp;y=2\q class=\qblog-link\q target=\q_blank\q rel=\qnoopener noreferrer\q>the docs</a>!").
Proof.
  exact (parseLinksAndImages_link (lit "see ") (lit "the docs")
           (lit "https://a.b/?x=1&y=2") (lit "!") new_ColParser
           eq_refl eq_refl eq_refl eq_refl eq_refl eq_refl).
Defined.

(** *** Bold and italic *)

Lemma lazy_try_first (p : char -> bool) (k : cont) z (r : jstring) cs :
  forall a before,
    forallb p a = true ->
    (forall a1 c a2, a = a1 ++ c :: a2 ->
       k (MState (rev a1 ++ before) (c :: a2 ++ r) cs) = None) ->
    k (MState (rev a ++ before) r cs) = Some z ->
    lazy_try p k before (a ++ r) cs = Some z.
Proof.
  induction a as [|c a IH]; intros before Ha Hfail Hk.
  - cbn [app rev] in *. destruct r; cbn [lazy_try]; rewrite Hk; reflexivity.
  - cbn [forallb] in Ha. apply andb_prop in Ha. destruct Ha as [Hc Ha].
    cbn [app lazy_try].
    pose proof (Hfail [] c a eq_refl) as F0. cbn [rev app] in F0.
    rewrite F0, Hc.
    apply IH; [exact Ha | |].
    + intros a1 c' a2 E.
      pose proof (Hfail (c :: a1) c' a2 ltac:(rewrite E; reflexivity)) as F.
      cbn [rev] in F. rewrite <- app_assoc in F. exact F.
    + cbn [rev] in Hk. rewrite <- app_assoc in Hk. exact Hk.
Qed.

(** A lazy group of units of a line, up to the first place where what
    follows the group accepts. *)
Lemma match_group_lazy_dot fl n (k : cont) z (a r before : jstring) cs :
  forallb (fun y => negb (is_line_terminator y)) a = true ->
  (forall a1 c a2 cs', a = a1 ++ c :: a2 ->
     k (MState (rev a1 ++ before) (c :: a2 ++ r) cs') = None) ->
  k (MState (rev a ++ before) r ((n, a) :: cs)) = Some z ->
  rmatch fl (RGroup n (lazy_star RDot)) (MState before (a ++ r) cs) k = Some z.
Proof.
  intros Ha Hfail Hk. unfold lazy_star. cbn [rmatch rest].
  rewrite rep_loop_lazy_class by (cbn; lia).
  apply lazy_try_first; [exact Ha | |].
  - intros a1 c a2 E. unfold set_cap. cbn [pre rest caps]. apply Hfail, E.
  - rewrite consumed_app. exact Hk.
Qed.

Lemma match_unit_other (c x : char) (k : cont) before t cs :
  (x =? c)%N = false ->
  rmatch no_flags (RChar c) (MState before (x :: t) cs) k = None.
Proof.
  intros H. cbn [rmatch]. rewrite step_char_cons. cbn. rewrite H. reflexivity.
Qed.

Lemma free_of_unit_at (c0 : char) (a a1 a2 : jstring) (c : char) :
  free_of [c0] a = true -> a = a1 ++ c :: a2 -> (c =? c0)%N = false.
Proof.
  intros H ->. rewrite free_of_app in H. apply andb_prop in H.
  destruct H as [_ H]. cbn [free_of forallb] in H. apply andb_prop in H.
  destruct H as [H _]. apply negb_true_iff in H.
  etransitivity; [symmetry; apply orb_false_r | exact H].
Qed.

Lemma match_at_bold before (text post : jstring) :
  free_of (lit "*") text = true ->
  forallb (fun y => negb (is_line_terminator y)) text = true ->
  match_at (pattern p_bold) before (42%N :: 42%N :: text ++ 42%N :: 42%N :: post)
  = Some (MState (42%N :: 42%N :: rev text ++ 42%N :: 42%N :: before)
                 post [(1, text)]).
Proof.
  intros Ft Lt. unfold match_at.
  change (source (pattern p_bold))
    with (RSeq (RSeq (RChar 42) (RChar 42))
            (RSeq (RGroup 1 (lazy_star RDot)) (RSeq (RChar 42) (RChar 42)))).
  change (reflags (pattern p_bold)) with no_flags.
  change (rmatch no_flags (RSeq ?a ?b) ?st ?k)
    with (rmatch no_flags a st (fun st' => rmatch no_flags b st' k)).
  change (rmatch no_flags (RSeq ?a ?b) ?st ?k)
    with (rmatch no_flags a st (fun st' => rmatch no_flags b st' k)).
  rewrite !match_unit.
  change (rmatch no_flags (RSeq ?a ?b) ?st ?k)
    with (rmatch no_flags a st (fun st' => rmatch no_flags b st' k)).
  apply match_group_lazy_dot; [exact Lt | |].
  - intros a1 c a2 cs' E.
    change (rmatch no_flags (RSeq ?a ?b) ?st ?k)
      with (rmatch no_flags a st (fun st' => rmatch no_flags b st' k)).
    apply match_unit_other, (free_of_unit_at 42%N text a1 a2 c Ft E).
  - change (rmatch no_flags (RSeq ?a ?b) ?st ?k)
      with (rmatch no_flags a st (fun st' => rmatch no_flags b st' k)).
    rewrite !match_unit. reflexivity.
Qed.

Lemma match_at_italic before (text post : jstring) :
  free_of (lit "*") text = true ->
  forallb (fun y => negb (is_line_terminator y)) text = true ->
  match_at (pattern p_italic) before (42%N :: text ++ 42%N :: post)
  = Some (MState (42%N :: rev text ++ 42%N :: before) post [(1, text)]).
Proof.
  intros Ft Lt. unfold match_at.
  change (source (pattern p_italic))
    with (RSeq (RChar 42) (RSeq (RGroup 1 (lazy_star RDot)) (RChar 42))).
  change (reflags (pattern p_italic)) with no_flags.
  change (rmatch no_flags (RSeq ?a ?b) ?st ?k)
    with (rmatch no_flags a st (fun st' => rmatch no_flags b st' k)).
  rewrite match_unit.
  change (rmatch no_flags (RSeq ?a ?b) ?st ?k)
    with (rmatch no_flags a st (fun st' => rmatch no_flags b st' k)).
  apply match_group_lazy_dot; [exact Lt | |].
  - intros a1 c a2 cs' E.
    apply match_unit_other, (free_of_unit_at 42%N text a1 a2 c Ft E).
  - apply match_unit.
Qed.

Lemma bold_first_unit before after st :
  match_at (pattern p_bold) before after = Some st ->
  exists t, after = 42%N :: t.
Proof.
  intros H. destruct (match_at_lang _ _ _ _ H) as (x & -> & L).
  change (source (pattern p_bold))
    with (RSeq (rlit "**") (RSeq (RGroup 1 (lazy_star RDot)) (rlit "**"))) in L.
  change (reflags (pattern p_bold)) with no_flags in L.
  cbn [lang] in L. destruct L as (x1 & x2 & -> & L1 & _).
  apply lang_literal in L1; [|discriminate]. subst x1. eexists. reflexivity.
Qed.

Lemma bold_needs_four before after st :
  match_at (pattern p_bold) before after = Some st ->
  4 <= count_unit 42 after.
Proof.
  intros H. destruct (match_at_lang _ _ _ _ H) as (x & -> & L).
  change (source (pattern p_bold))
    with (RSeq (rlit "**") (RSeq (RGroup 1 (lazy_star RDot)) (rlit "**"))) in L.
  change (reflags (pattern p_bold)) with no_flags in L.
  cbn [lang] in L.
  destruct L as (x1 & x2 & -> & L1 & x3 & x4 & -> & _ & L4).
  apply lang_literal in L1; [|discriminate].
  apply lang_literal in L4; [|discriminate]. subst x1 x4.
  rewrite !count_unit_app. change (count_unit 42 (lit "**")) with 2. lia.
Qed.

(** X23.  A bold span of one line between two texts, none of the three
    with an asterisk in it, becomes a [strong] element around its text,
    and the texts around it stay as they are. *)
Theorem parseFormatting_bold :
  forall (before text after : jstring) (this : ColParser),
    free_of (lit "*") before = true ->
    free_of (lit "*") text = true ->
    forallb (fun c => negb (is_line_terminator c)) text = true ->
    free_of (lit "*") after = true ->
    fst (parseFormatting (before ++ lit "**" ++ text ++ lit "**" ++ after) this)
    = Normal (before ++ lit "<strong class=\qblog-bold\q>" ++ text
                ++ lit "</strong>" ++ after).
Proof.
  intros pre text post this Hpre Ft Lt Hpost.
  unfold parseFormatting, bind, replace_pattern, ret. cbn [fst]. f_equal.
  assert (B : replace_all (pattern p_bold)
                (fun m => lit "<strong class=\qblog-bold\q>" ++ group m 1
                            ++ lit "</strong>")
                (pre ++ lit "**" ++ text ++ lit "**" ++ post)
              = pre ++ lit "<strong class=\qblog-bold\q>" ++ text
                  ++ lit "</strong>" ++ post).
  { unfold replace_all.
    rewrite (replace_scan_prefix (pattern p_bold) _ 42%N bold_first_unit pre [] _ Hpre).
    f_equal.
    rewrite (app_assoc text (lit "**") post).
    change (lit "**" ++ (text ++ lit "**") ++ post)
      with (42%N :: (42%N :: text ++ lit "**") ++ post).
    rewrite (replace_scan_at (pattern p_bold) _ _ 42%N (42%N :: text ++ lit "**") post
               (MState (42%N :: 42%N :: rev text ++ 42%N :: 42%N :: rev pre ++ [])
                       post [(1, text)])).
    - rewrite (proj1 (scan_no_match (pattern p_bold) _ post _
                        (needs_no_match (pattern p_bold) (lit "*") post eq_refl Hpost))).
      unfold group. cbn [m_groups caps lookup_cap Nat.eqb].
      rewrite <- !app_assoc. reflexivity.
    - cbn [app]. rewrite <- app_assoc. apply (match_at_bold _ text post Ft Lt).
    - reflexivity. }
  rewrite B.
  apply (replace_all_untouched (pattern p_italic) _ (lit "*") _ eq_refl).
  rewrite !free_of_app, Hpre, Ft, Hpost. reflexivity.
Qed.

Lemma parseFormatting_bold_witness :
  fst (parseFormatting (lit "a **very good** day") new_ColParser)
  = Normal (lit "a <strong class=\qblog-bold\q>very good</strong> day").
Proof.
  exact (parseFormatting_bold (lit "a ") (lit "very good") (lit " day")
           new_ColParser eq_refl eq_refl eq_refl eq_refl).
Defined.

(** X24.  An italic span of one line between two texts, none of the
    three with an asterisk in it, becomes an [em] element around its text,
    whatever the count of bold tags before it says, and the texts around
    it stay as they are. *)
Theorem parseFormatting_italic :
  forall (before text after : jstring) (this : ColParser),
    free_of (lit "*") before = true ->
    free_of (lit "*") text = true ->
    forallb (fun c => negb (is_line_terminator c)) text = true ->
    free_of (lit "*") after = true ->
    fst (parseFormatting (before ++ lit "*" ++ text ++ lit "*" ++ after) this)
    = Normal (before ++ lit "<em class=\qblog-italic\q>" ++ text
                ++ lit "</em>" ++ after).
Proof.
  intros pre text post this Hpre Ft Lt Hpost.
  unfold parseFormatting, bind, replace_pattern, ret. cbn [fst]. f_equal.
  set (s := pre ++ lit "*" ++ text ++ lit "*" ++ post).
  assert (Hcount : count_unit 42 s = 2).
  { unfold s. rewrite !count_unit_app.
    rewrite (count_unit_free 42%N pre Hpre), (count_unit_free 42%N text Ft),
      (count_unit_free 42%N post Hpost). reflexivity. }
  rewrite (replace_all_no_match (pattern p_bold) _ s).
  2:{ intros k b.
      destruct (match_at (pattern p_bold) b (skipn k s)) eqn:E;
        [exfalso | reflexivity].
      pose proof (bold_needs_four _ _ _ E) as C.
      pose proof (count_unit_skipn 42%N s k). lia. }
  unfold s, replace_all.
  rewrite (replace_scan_prefix (pattern p_italic) _ 42%N
             (first_unit_of (pattern p_italic) 42%N _ eq_refl eq_refl) pre [] _ Hpre).
  f_equal.
  rewrite (app_assoc text (lit "*") post).
  change (lit "*" ++ (text ++ lit "*") ++ post)
    with (42%N :: (text ++ lit "*") ++ post).
  rewrite (replace_scan_at (pattern p_italic) _ _ 42%N (text ++ lit "*") post
             (MState (42%N :: rev text ++ 42%N :: rev pre ++ []) post [(1, text)])).
  - rewrite (proj1 (scan_no_match (pattern p_italic) _ post _
                      (needs_no_match (pattern p_italic) (lit "*") post eq_refl Hpost))).
    unfold group. cbn [m_groups caps lookup_cap Nat.eqb m_index].
    match goal with |- context [if ?b then _ else _] => destruct b end;
      rewrite <- !app_assoc; reflexivity.
  - rewrite <- app_assoc. apply (match_at_italic _ text post Ft Lt).
  - reflexivity.
Qed.

Lemma parseFormatting_italic_witness :
  fst (parseFormatting (lit "a *very good* day") new_ColParser)
  = Normal (lit "a <em class=\qblog-italic\q>very good</em> day").
Proof.
  exact (parseFormatting_italic (lit "a ") (lit "very good") (lit " day")
           new_ColParser eq_refl eq_refl eq_refl eq_refl).
Defined.

End Spans.

(** ** The id of a heading *)

Section HeadingId.

Lemma match_at_not_alnum_run before c t :
  match_at not_alnum_run before (c :: t) =
  if not_alnum c
  then Some (MState (rev (run not_alnum t) ++ c :: before) (after_run not_alnum t) [])
  else None.
Proof.
  unfold match_at. cbn.
  rewrite rep_loop_plus_class by (simpl; lia).
  set (cls := fun x : char =>
                if (((97 <=? x)%N && (x <=? 122)%N || false)
                    || (((48 <=? x)%N && (x <=? 57)%N || false) || false))
                then false else true).
  assert (E : forall x, cls x = not_alnum x).
  { intros x. unfold cls, not_alnum. rewrite !orb_false_r. reflexivity. }
  change (if (((97 <=? c)%N && (c <=? 122)%N || false)
              || (((48 <=? c)%N && (c <=? 57)%N || false) || false))
          then false else true) with (cls c).
  rewrite E. destruct (not_alnum c); [|reflexivity].
  rewrite greedy_try_accept.
  rewrite (after_run_ext _ not_alnum), (run_ext _ not_alnum) by exact E.
  reflexivity.
Qed.

Lemma hyphenated_units :
  forall after skip before,
    forallb is_slug_unit
      (replace_scan not_alnum_run (fun _ => lit "-") skip before after) = true.
Proof.
  induction after as [|c t IH]; intros skip before.
  - destruct skip; reflexivity.
  - destruct skip as [|n]; cbn [replace_scan]; [|apply IH].
    rewrite match_at_not_alnum_run. destruct (not_alnum c) eqn:Hc.
    + unfold match_len. cbn [rest].
      pose proof (length_after_run not_alnum t) as L.
      replace (length (c :: t) - length (after_run not_alnum t) =? 0) with false
        by (symmetry; apply Nat.eqb_neq; cbn [length]; lia).
      change (lit "-" ++ ?x) with (45%N :: x). cbn [forallb]. apply IH.
    + cbn [forallb]. rewrite IH, andb_true_r.
      unfold not_alnum in Hc. apply negb_false_iff in Hc.
      unfold is_slug_unit. rewrite Hc. reflexivity.
Qed.

Lemma subseq_forallb (f : char -> bool) (a b : jstring) :
  subseq a b -> forallb f b = true -> forallb f a = true.
Proof.
  induction 1 as [|c a b _ IH|c a b _ IH]; cbn [forallb]; intros H;
    [reflexivity | |]; apply andb_prop in H; destruct H as [Hc Hb].
  - rewrite Hc. apply IH, Hb.
  - apply IH, Hb.
Qed.

(** X25.  The id [parseHeadings] writes into a heading is made of
    lower-case ASCII letters, digits and hyphens only, whatever the text
    of the heading is: no text can close the attribute it stands in. *)
Theorem heading_id_units :
  (forall content : jstring,
     parseHeadings content =
     replace_pattern p_heading (fun m =>
       lit "<h" ++ dec (length (group m 1)) ++ lit " id=\q"
         ++ heading_id (group m 2) ++ lit "\q class=\qblog-heading\q>"
         ++ trim (group m 2) ++ lit "</h" ++ dec (length (group m 1)) ++ lit ">")
       content)
  /\ forall text : jstring, forallb is_slug_unit (heading_id text) = true.
Proof.
  split; [reflexivity|].
  intros text. unfold heading_id.
  apply (subseq_forallb _ _ _ (replace_removed_subseq outer_hyphen _ 0 [])).
  apply hyphenated_units.
Qed.

End HeadingId.

(** ** Tags that [sanitizeHtml] keeps *)

Section SanitizeTags.

(** X26.  [sanitizeHtml] keeps every text that has no slash, no equals
    sign and no colon in it, whatever tags it opens: the set of allowed
    tags of the constructor is not consulted. *)
Theorem sanitizeHtml_keeps_opening_tags :
  forall s : jstring,
    free_of (lit "/=:") s = true -> sanitizeHtml (VStr s) = s.
Proof.
  intros s H. destruct s as [|c t]; [reflexivity|].
  unfold sanitizeHtml. cbn [truthy is_string negb orb str_of].
  rewrite (replace_all_untouched script_element _ (lit "/=:") _ eq_refl H).
  rewrite (replace_all_untouched handler_attribute _ (lit "/=:") _ eq_refl H).
  apply (replace_all_untouched javascript_uri _ (lit "/=:") _ eq_refl H).
Qed.

Lemma sanitizeHtml_keeps_opening_tags_witness :
  sanitizeHtml (VStr (lit "<iframe src> and <script> and <object onload>"))
  = lit "<iframe src> and <script> and <object onload>".
Proof.
  exact (sanitizeHtml_keeps_opening_tags
           (lit "<iframe src> and <script> and <object onload>") eq_refl).
Defined.

End SanitizeTags.

(** ** Code blocks and images *)

Section Blocks.

Lemma run_to (p : char -> bool) (a r : jstring) :
  forallb p a = true ->
  match r with [] => true | x :: _ => negb (p x) end = true ->
  run p (a ++ r) = a /\ after_run p (a ++ r) = r.
Proof.
  intros Ha Hr. induction a as [|c a IH]; cbn [app].
  - destruct r as [|x r]; [auto|]. apply negb_true_iff in Hr.
    cbn [run after_run]. rewrite Hr. auto.
  - cbn [forallb] in Ha. apply andb_prop in Ha. destruct Ha as [Hc Ha].
    cbn [run after_run]. rewrite Hc. destruct (IH Ha) as [-> ->]. auto.
Qed.

(** A group of any number of units of a class, up to the first unit that
    is not of the class. *)
Lemma match_group_star fl n neg items (k : cont) z
    (a : jstring) (x : char) (r before : jstring) cs :
  forallb (fun y => xorb neg (in_items fl items y)) a = true ->
  xorb neg (in_items fl items x) = false ->
  k (MState (rev a ++ before) (x :: r) ((n, a) :: cs)) = Some z ->
  rmatch fl (RGroup n (star (RSet neg items))) (MState before (a ++ x :: r) cs) k
  = Some z.
Proof.
  intros Ha Hx Hk. unfold star. cbn [rmatch rest].
  rewrite rep_loop_star_class by (cbn; lia).
  apply greedy_try_run.
  destruct (run_stop _ a x r Ha Hx) as [-> ->].
  rewrite consumed_app. exact Hk.
Qed.

(** A lazy group of units of a class, up to the first place where what
    follows the group accepts. *)
Lemma match_group_lazy fl n (r' : regex) (p : char -> bool) (k : cont) z
    (a r before : jstring) cs :
  rmatch fl r' = step_char p ->
  forallb p a = true ->
  (forall a1 c a2 cs', a = a1 ++ c :: a2 ->
     k (MState (rev a1 ++ before) (c :: a2 ++ r) cs') = None) ->
  k (MState (rev a ++ before) r ((n, a) :: cs)) = Some z ->
  rmatch fl (RGroup n (lazy_star r')) (MState before (a ++ r) cs) k = Some z.
Proof.
  intros Hr Ha Hfail Hk. unfold lazy_star. cbn [rmatch rest]. rewrite Hr.
  rewrite rep_loop_lazy_class by (cbn; lia).
  apply lazy_try_first; [exact Ha | |].
  - intros a1 c a2 E. unfold set_cap. cbn [pre rest caps]. apply Hfail, E.
  - rewrite consumed_app. exact Hk.
Qed.

Lemma class_free_of (p : char -> bool) (cs s : jstring) :
  forallb (fun c => negb (p c)) cs = true ->
  forallb p s = true -> free_of cs s = true.
Proof.
  intros Hcs Hs. unfold free_of. rewrite forallb_forall in *.
  intros x Hx. specialize (Hs x Hx). apply negb_true_iff.
  destruct (existsb (N.eqb x) cs) eqn:E; [|reflexivity].
  apply existsb_eqb_In in E. specialize (Hcs x E).
  rewrite Hs in Hcs. discriminate.
Qed.

(** Escaping brings in no unit that the entities do not hold. *)
Lemma escapeHtml_free (cs x : jstring) :
  free_of cs (lit "&amp;&lt;&gt;&quot;&#39;") = true ->
  free_of cs x = true -> free_of cs (escapeHtml (VStr x)) = true.
Proof.
  intros He Hx. rewrite escapeHtml_string.
  induction x as [|c x IH]; [reflexivity|].
  cbn [free_of forallb] in Hx. apply andb_prop in Hx. destruct Hx as [Hc Hx].
  cbn [flat_map]. rewrite free_of_app, (IH Hx), andb_true_r.
  destruct (escape_char_cases c)
    as [[_ ->]|[[_ ->]|[[_ ->]|[[_ ->]|[[_ ->]|[_ ->]]]]]].
  - cbn [free_of forallb]. rewrite Hc. reflexivity.
  - apply (free_of_substring cs _ (lit "&amp;&lt;&gt;&quot;&#39;"));
      [exists [], (lit "&lt;&gt;&quot;&#39;"); reflexivity | exact He].
  - apply (free_of_substring cs _ (lit "&amp;&lt;&gt;&quot;&#39;"));
      [exists (lit "&amp;"), (lit "&gt;&quot;&#39;"); reflexivity | exact He].
  - apply (free_of_substring cs _ (lit "&amp;&lt;&gt;&quot;&#39;"));
      [exists (lit "&amp;&lt;"), (lit "&quot;&#39;"); reflexivity | exact He].
  - apply (free_of_substring cs _ (lit "&amp;&lt;&gt;&quot;&#39;"));
      [exists (lit "&amp;&lt;&gt;"), (lit "&#39;"); reflexivity | exact He].
  - apply (free_of_substring cs _ (lit "&amp;&lt;&gt;&quot;&#39;"));
      [exists (lit "&amp;&lt;&gt;&quot;"), []; reflexivity | exact He].
Qed.

Lemma forallb_same (f g : char -> bool) (l : jstring) :
  (forall x, f x = g x) -> forallb f l = forallb g l.
Proof.
  intros H. induction l as [|c l IH]; [reflexivity|].
  cbn [forallb]. rewrite H, IH. reflexivity.
Qed.

Lemma any_unit (a : jstring) :
  forallb (fun y => xorb false (in_items no_flags [CSpace; CNotSpace] y)) a = true.
Proof.
  apply forallb_forall. intros x _. cbn. destruct (is_space x); reflexivity.
Qed.

Lemma codeBlock_first_unit before after st :
  match_at (pattern p_codeBlock) before after = Some st ->
  exists t, after = 96%N :: t.
Proof.
  intros H. destruct (match_at_lang _ _ _ _ H) as (x & -> & L).
  change (source (pattern p_codeBlock))
    with (RSeq (rlit "```")
            (rseq [RGroup 1 (star rword); rlit "\n"; RGroup 2 (lazy_star rany);
                   rlit "```"])) in L.
  change (reflags (pattern p_codeBlock)) with no_flags in L.
  cbn [lang] in L. destruct L as (x1 & x2 & -> & L1 & _).
  apply lang_literal in L1; [|discriminate]. subst x1. eexists. reflexivity.
Qed.

Lemma match_at_codeBlock before (language code post : jstring) :
  forallb is_word language = true ->
  free_of (lit "`") code = true ->
  match_at (pattern p_codeBlock) before
    (96%N :: 96%N :: 96%N :: language ++ 10%N :: code
       ++ 96%N :: 96%N :: 96%N :: post)
  = Some (MState (96%N :: 96%N :: 96%N :: rev code ++ 10%N :: rev language
                    ++ 96%N :: 96%N :: 96%N :: before)
                 post [(2, code); (1, language)]).
Proof.
  intros Hl Fc. unfold match_at.
  change (source (pattern p_codeBlock))
    with (RSeq (RSeq (RChar 96) (RSeq (RChar 96) (RChar 96)))
            (RSeq (RGroup 1 (star (RSet false [CWord])))
               (RSeq (RChar 10)
                  (RSeq (RGroup 2 (lazy_star (RSet false [CSpace; CNotSpace])))
                     (RSeq (RChar 96) (RSeq (RChar 96) (RChar 96))))))).
  change (reflags (pattern p_codeBlock)) with no_flags.
  repeat change (rmatch no_flags (RSeq ?a ?b) ?st ?k)
    with (rmatch no_flags a st (fun st' => rmatch no_flags b st' k)).
  rewrite !match_unit.
  apply match_group_star.
  - rewrite <- Hl. apply forallb_same. intros x. cbn. apply orb_false_r.
  - reflexivity.
  - rewrite match_unit.
    apply (match_group_lazy no_flags 2 (RSet false [CSpace; CNotSpace])
             (fun y => xorb false (in_items no_flags [CSpace; CNotSpace] y))
             _ _ code _ _ _ eq_refl (any_unit code)).
    + intros a1 c a2 cs' E.
      apply match_unit_other, (free_of_unit_at 96%N code a1 a2 c Fc E).
    + rewrite !match_unit. reflexivity.
Qed.

(** X27.  A fenced code block between two texts without a backtick: it
    becomes a [pre] element with a [code] element around the trimmed and
    escaped code, with the class of the language when one is named, and
    the texts around it stay as they are. *)
Theorem parseCode_fenced_block :
  forall (before language code after : jstring) (this : ColParser),
    free_of (lit "`") before = true ->
    forallb is_word language = true ->
    free_of (lit "`") code = true ->
    free_of (lit "`") after = true ->
    fst (parseCode (before ++ lit "```" ++ language ++ lit "\n" ++ code
                      ++ lit "```" ++ after) this)
    = Normal (before ++ lit "<pre class=\qblog-code-block\q><code class=\qblog-code"
                ++ (if nonempty language then lit " language-" ++ language else [])
                ++ lit "\q>" ++ escapeHtml (VStr (trim code))
                ++ lit "</code></pre>" ++ after).
Proof.
  intros front language code back this Hfront Hl Fc Hback.
  unfold parseCode, bind, replace_pattern, ret. cbn [fst]. f_equal.
  set (middle := lit "``" ++ language ++ lit "\n" ++ code ++ lit "```").
  assert (B : replace_all (pattern p_codeBlock)
                (fun m =>
                   lit "<pre class=\qblog-code-block\q><code class=\qblog-code"
                     ++ (if nonempty (group m 1)
                         then lit " language-" ++ group m 1 else [])
                     ++ lit "\q>" ++ escapeHtml (VStr (trim (group m 2)))
                     ++ lit "</code></pre>")
                (front ++ 96%N :: middle ++ back)
              = front ++ lit "<pre class=\qblog-code-block\q><code class=\qblog-code"
                  ++ (if nonempty language then lit " language-" ++ language else [])
                  ++ lit "\q>" ++ escapeHtml (VStr (trim code))
                  ++ lit "</code></pre>" ++ back).
  { unfold replace_all.
    rewrite (replace_scan_prefix (pattern p_codeBlock) _ 96%N codeBlock_first_unit
               front [] _ Hfront).
    f_equal.
    rewrite (replace_scan_at (pattern p_codeBlock) _ _ 96%N middle back
               (MState (96%N :: 96%N :: 96%N :: rev code ++ 10%N :: rev language
                          ++ 96%N :: 96%N :: 96%N :: rev front ++ [])
                       back [(2, code); (1, language)])).
    - rewrite (proj1 (scan_no_match (pattern p_codeBlock) _ back _
                        (needs_no_match (pattern p_codeBlock) (lit "`") back
                           eq_refl Hback))).
      unfold group. cbn [m_groups caps lookup_cap Nat.eqb].
      rewrite <- !app_assoc. reflexivity.
    - unfold middle. rewrite <- !app_assoc.
      apply (match_at_codeBlock _ language code back Hl Fc).
    - reflexivity. }
  replace (front ++ lit "```" ++ language ++ lit "\n" ++ code ++ lit "```" ++ back)
    with (front ++ 96%N :: middle ++ back)
    by (unfold middle; rewrite <- !app_assoc; reflexivity).
  rewrite B.
  apply (replace_all_untouched (pattern p_code) _ (lit "`") _ eq_refl).
  assert (Fl : free_of (lit "`") language = true)
    by (apply (class_free_of is_word); [reflexivity | exact Hl]).
  rewrite !free_of_app, Hfront, Hback.
  rewrite (escapeHtml_free (lit "`") (trim code) eq_refl
             (free_of_substring _ _ _ (trim_substring code) Fc)).
  destruct (nonempty language); [rewrite free_of_app, Fl|]; reflexivity.
Qed.

Lemma parseCode_fenced_block_witness :
  fst (parseCode (lit "see:\n```js\n  if (a < b) {}\n```\ndone") new_ColParser)
  = Normal (lit "see:\n<pre class=\qblog-code-block\q><code class=\qblog-code language-js\q>if (a &lt; b) {}</code></pre>\ndone").
Proof.
  exact (parseCode_fenced_block (lit "see:\n") (lit "js") (lit "  if (a < b) {}\n")
           (lit "\ndone") new_ColParser eq_refl eq_refl eq_refl eq_refl).
Defined.

Lemma image_first_unit before after st :
  match_at (pattern p_image) before after = Some st ->
  exists t, after = 33%N :: t.
Proof.
  intros H. destruct (match_at_lang _ _ _ _ H) as (x & -> & L).
  change (source (pattern p_image))
    with (RSeq (rlit "![")
            (rseq [RGroup 1 (star (none_of "]")); rlit "]"; rlit "(";
                   RGroup 2 (plus (none_of ")")); rlit ")"])) in L.
  change (reflags (pattern p_image)) with no_flags in L.
  cbn [lang] in L. destruct L as (x1 & x2 & -> & L1 & _).
  apply lang_literal in L1; [|discriminate]. subst x1. eexists. reflexivity.
Qed.

Lemma match_at_image before (alt src post : jstring) :
  free_of (lit "]") alt = true ->
  nonempty src = true -> free_of (lit ")") src = true ->
  match_at (pattern p_image) before
           (33%N :: 91%N :: alt ++ 93%N :: 40%N :: src ++ 41%N :: post)
  = Some (MState (41%N :: rev src ++ 40%N :: 93%N :: rev alt
                    ++ 91%N :: 33%N :: before)
                 post [(2, src); (1, alt)]).
Proof.
  intros Fa Hs Fs. unfold match_at.
  change (source (pattern p_image))
    with (RSeq (RSeq (RChar 33) (RChar 91))
            (RSeq (RGroup 1 (star (RSet true [CChar 93])))
               (RSeq (RChar 93)
                  (RSeq (RChar 40)
                     (RSeq (RGroup 2 (plus (RSet true [CChar 41]))) (RChar 41)))))).
  change (reflags (pattern p_image)) with no_flags.
  repeat change (rmatch no_flags (RSeq ?a ?b) ?st ?k)
    with (rmatch no_flags a st (fun st' => rmatch no_flags b st' k)).
  rewrite !match_unit.
  apply match_group_star; [exact Fa | reflexivity |].
  rewrite !match_unit.
  apply match_group_plus;
    [intros ->; discriminate | exact Fs | reflexivity |].
  apply match_unit.
Qed.

(** X28.  An image whose alternative text holds no bracket and whose
    address holds no opening bracket and no closing parenthesis, after a
    text without an opening bracket or an exclamation mark and before a
    text without an opening bracket: it becomes an [img] element with the
    address and the alternative text escaped, no link is made of it, and
    the texts around it stay as they are. *)
Theorem parseLinksAndImages_image :
  forall (before alt src after : jstring) (this : ColParser),
    free_of (lit "![") before = true ->
    free_of (lit "[]") alt = true ->
    nonempty src = true -> free_of (lit "[)") src = true ->
    free_of (lit "[") after = true ->
    fst (parseLinksAndImages
           (before ++ lit "![" ++ alt ++ lit "](" ++ src ++ lit ")" ++ after) this)
    = Normal (before ++ lit "<img src=\q" ++ escapeHtml (VStr src)
                ++ lit "\q alt=\q" ++ escapeHtml (VStr alt)
                ++ lit "\q class=\qblog-image\q loading=\qlazy\q>" ++ after).
Proof.
  intros front alt src back this Hfront Fa Hs Fs Hback.
  unfold parseLinksAndImages, bind, replace_pattern, ret. cbn [fst]. f_equal.
  set (middle := lit "[" ++ alt ++ lit "](" ++ src ++ lit ")").
  assert (B : replace_all (pattern p_image)
                (fun m =>
                   lit "<img src=\q" ++ escapeHtml (VStr (group m 2))
                     ++ lit "\q alt=\q" ++ escapeHtml (VStr (group m 1))
                     ++ lit "\q class=\qblog-image\q loading=\qlazy\q>")
                (front ++ 33%N :: middle ++ back)
              = front ++ lit "<img src=\q" ++ escapeHtml (VStr src)
                  ++ lit "\q alt=\q" ++ escapeHtml (VStr alt)
                  ++ lit "\q class=\qblog-image\q loading=\qlazy\q>" ++ back).
  { unfold replace_all.
    rewrite (replace_scan_prefix (pattern p_image) _ 33%N image_first_unit
               front [] _ (free_of_fewer (lit "!") (lit "![") front eq_refl Hfront)).
    f_equal.
    rewrite (replace_scan_at (pattern p_image) _ _ 33%N middle back
               (MState (41%N :: rev src ++ 40%N :: 93%N :: rev alt
                          ++ 91%N :: 33%N :: rev front ++ [])
                       back [(2, src); (1, alt)])).
    - rewrite (proj1 (scan_no_match (pattern p_image) _ back _
                        (needs_no_match (pattern p_image) (lit "[") back
                           eq_refl Hback))).
      unfold group. cbn [m_groups caps lookup_cap Nat.eqb].
      rewrite <- !app_assoc. reflexivity.
    - unfold middle. rewrite <- !app_assoc.
      apply (match_at_image _ alt src back
               (free_of_fewer (lit "]") (lit "[]") alt eq_refl Fa) Hs
               (free_of_fewer (lit ")") (lit "[)") src eq_refl Fs)).
    - reflexivity. }
  replace (front ++ lit "![" ++ alt ++ lit "](" ++ src ++ lit ")" ++ back)
    with (front ++ 33%N :: middle ++ back)
    by (unfold middle; rewrite <- !app_assoc; reflexivity).
  rewrite B.
  apply (replace_all_untouched (pattern p_link) _ (lit "[") _ eq_refl).
  rewrite !free_of_app, Hback.
  rewrite (free_of_fewer (lit "[") (lit "![") front eq_refl Hfront).
  rewrite (escapeHtml_free (lit "[") src eq_refl
             (free_of_fewer (lit "[") (lit "[)") src eq_refl Fs)).
  rewrite (escapeHtml_free (lit "[") alt eq_refl
             (free_of_fewer (lit "[") (lit "[]") alt eq_refl Fa)).
  reflexivity.
Qed.

Lemma parseLinksAndImages_image_witness :
  fst (parseLinksAndImages (lit "a cat: ![Tom & Jerry](img/cat.png) (1940)") new_ColParser)
  = Normal (lit "a cat: <img src=\qimg/cat.png\q alt=\qTom &amp; Jerry\q class=\qblog-image\q loading=\qlazy\q> (1940)").
Proof.
  exact (parseLinksAndImages_image (lit "a cat: ") (lit "Tom & Jerry")
           (lit "img/cat.png") (lit " (1940)") new_ColParser
           eq_refl eq_refl eq_refl eq_refl eq_refl).
Defined.

End Blocks.

(** ** Headings and block quotes *)

Section Lines.

(** A greedy repetition of a class between two bounds, over a run of the
    class that the bounds allow. *)
Lemma rep_loop_bounded (p : char -> bool) (k : cont) z (r : jstring) cs :
  match r with [] => true | x :: _ => negb (p x) end = true ->
  forall a fuel min mx before,
    forallb p a = true ->
    min <= length a -> length a <= mx -> length a < fuel ->
    k (MState (rev a ++ before) r cs) = Some z ->
    rep_loop (step_char p) true fuel min (Some mx) (MState before (a ++ r) cs) k
    = Some z.
Proof.
  intros Hr. induction a as [|c a IH]; intros fuel min mx before Ha Hmin Hmx Hf Hk.
  - destruct fuel as [|fuel]; [cbn in Hf; lia|].
    cbn [length] in Hmin. assert (min = 0) by lia. subst min.
    cbn [app rev] in *. cbn [rep_loop]. unfold rep_loop; fold rep_loop.
    destruct mx as [|mx]; [exact Hk|].
    cbn [Nat.eqb negb].
    destruct r as [|x r].
    + rewrite step_char_nil. exact Hk.
    + rewrite step_char_cons. apply negb_true_iff in Hr. rewrite Hr. exact Hk.
  - destruct fuel as [|fuel]; [cbn in Hf; lia|].
    cbn [forallb] in Ha. apply andb_prop in Ha. destruct Ha as [Hc Ha].
    cbn [length] in Hmin, Hmx, Hf.
    destruct mx as [|mx]; [lia|].
    assert (Hnext : rep_loop (step_char p) true fuel (Nat.pred min) (Some mx)
                      (MState (c :: before) (a ++ r) cs) k = Some z).
    { apply IH; try assumption; try lia.
      cbn [rev] in Hk. rewrite <- app_assoc in Hk. exact Hk. }
    unfold rep_loop; fold rep_loop. cbn [app].
    rewrite step_char_cons, Hc. cbn [rest option_map].
    replace (length (a ++ r) =? length (c :: a ++ r)) with false
      by (symmetry; apply Nat.eqb_neq; cbn [length]; lia).
    rewrite andb_false_r. cbn [Nat.pred]. rewrite Hnext.
    destruct (negb (min =? 0)); reflexivity.
Qed.

(** A group of one or more units of a class, up to the end of the run. *)
Lemma match_group_plus_to fl n (r' : regex) (p : char -> bool) (k : cont) z
    (a r before : jstring) cs :
  rmatch fl r' = step_char p ->
  a <> [] -> forallb p a = true ->
  match r with [] => true | x :: _ => negb (p x) end = true ->
  k (MState (rev a ++ before) r ((n, a) :: cs)) = Some z ->
  rmatch fl (RGroup n (plus r')) (MState before (a ++ r) cs) k = Some z.
Proof.
  intros Hr' Hne Ha Hr Hk. destruct a as [|c a']; [contradiction|].
  unfold plus. cbn [rmatch rest]. rewrite Hr'.
  rewrite rep_loop_plus_class by (cbn [length app]; lia).
  cbn [app]. cbn [forallb] in Ha. apply andb_prop in Ha. destruct Ha as [Hc Ha'].
  rewrite Hc. apply greedy_try_run.
  destruct (run_to _ a' r Ha' Hr) as [-> ->].
  change (c :: a' ++ r) with ((c :: a') ++ r).
  rewrite consumed_app. unfold set_cap. cbn [pre rest caps].
  cbn [rev] in Hk. rewrite <- app_assoc in Hk. exact Hk.
Qed.

(** One or more units of a class outside a group. *)
Lemma match_plus_to fl (r' : regex) (p : char -> bool) (k : cont) z
    (a r before : jstring) cs :
  rmatch fl r' = step_char p ->
  a <> [] -> forallb p a = true ->
  match r with [] => true | x :: _ => negb (p x) end = true ->
  k (MState (rev a ++ before) r cs) = Some z ->
  rmatch fl (plus r') (MState before (a ++ r) cs) k = Some z.
Proof.
  intros Hr' Hne Ha Hr Hk. destruct a as [|c a']; [contradiction|].
  unfold plus. cbn [rmatch rest]. rewrite Hr'.
  rewrite rep_loop_plus_class by (cbn [length app]; lia).
  cbn [app]. cbn [forallb] in Ha. apply andb_prop in Ha. destruct Ha as [Hc Ha'].
  rewrite Hc. apply greedy_try_run.
  destruct (run_to _ a' r Ha' Hr) as [-> ->].
  cbn [rev] in Hk. rewrite <- app_assoc in Hk. exact Hk.
Qed.

Lemma space_class (a : jstring) :
  forallb is_space a = true ->
  forallb (fun y => xorb false (in_items flags_m [CSpace] y)) a = true.
Proof.
  intros H. rewrite <- H. apply forallb_same. intros x. cbn. apply orb_false_r.
Qed.

Lemma ink_stops_spaces (s r : jstring) :
  starts_with_ink s = true ->
  match s ++ r with
  | [] => true
  | x :: _ => negb (xorb false (in_items flags_m [CSpace] x))
  end = true.
Proof.
  destruct s as [|c s]; [discriminate|]. cbn [starts_with_ink app].
  intros H. cbn. rewrite orb_false_r. exact H.
Qed.

Lemma line_end_stops_dot (r : jstring) :
  line_ends_before r = true ->
  match r with
  | [] => true
  | x :: _ => negb (negb (is_line_terminator x))
  end = true.
Proof.
  destruct r as [|x r]; [reflexivity|]. cbn [line_ends_before].
  intros ->. reflexivity.
Qed.

Lemma hashes_shape (hashes : jstring) :
  forallb (N.eqb 35) hashes = true -> hashes = repeat 35%N (length hashes).
Proof.
  induction hashes as [|c h IH]; intros H; [reflexivity|].
  cbn [forallb] in H. apply andb_prop in H. destruct H as [Hc Hh].
  apply N.eqb_eq in Hc. subst c. cbn [length repeat]. rewrite <- (IH Hh).
  reflexivity.
Qed.

(** A group of a bounded number of units of a class, over a run of the
    class that the bounds allow. *)
Lemma match_group_bounded fl n (r' : regex) (p : char -> bool) min mx
    (k : cont) z (a r before : jstring) cs :
  rmatch fl r' = step_char p ->
  forallb p a = true ->
  match r with [] => true | x :: _ => negb (p x) end = true ->
  min <= length a -> length a <= mx ->
  k (MState (rev a ++ before) r ((n, a) :: cs)) = Some z ->
  rmatch fl (RGroup n (RRep r' min (Some mx) true)) (MState before (a ++ r) cs) k
  = Some z.
Proof.
  intros Hr' Ha Hr Hmin Hmx Hk. cbn [rmatch rest]. rewrite Hr'.
  apply (rep_loop_bounded p _ z r cs Hr a); try assumption.
  - rewrite length_app. lia.
  - rewrite consumed_app. exact Hk.
Qed.

Lemma match_at_heading before (hashes sp text post : jstring) :
  at_line_start flags_m (MState before [] []) = true ->
  forallb (N.eqb 35) hashes = true ->
  (1 <=? length hashes) && (length hashes <=? 6) = true ->
  nonempty sp = true -> forallb is_space sp = true ->
  starts_with_ink text = true ->
  forallb (fun c => negb (is_line_terminator c)) text = true ->
  line_ends_before post = true ->
  match_at (pattern p_heading) before (hashes ++ sp ++ text ++ post)
  = Some (MState (rev text ++ rev sp ++ rev hashes ++ before) post
                 [(2, text); (1, hashes)]).
Proof.
  intros Hbol Hh Hn Hsp Ssp Ht Lt Hpost. unfold match_at.
  apply andb_prop in Hn. destruct Hn as [Hn1 Hn6].
  apply Nat.leb_le in Hn1. apply Nat.leb_le in Hn6.
  change (source (pattern p_heading))
    with (RSeq RBol
            (RSeq (RGroup 1 (RRep (RChar 35) 1 (Some 6) true))
               (RSeq (plus (RSet false [CSpace]))
                  (RSeq (RGroup 2 (plus RDot)) REol)))).
  change (reflags (pattern p_heading)) with flags_m.
  repeat change (rmatch flags_m (RSeq ?a ?b) ?st ?k)
    with (rmatch flags_m a st (fun st' => rmatch flags_m b st' k)).
  change (rmatch flags_m RBol ?st ?k)
    with (if at_line_start flags_m st then k st else None).
  change (at_line_start flags_m (MState before (hashes ++ sp ++ text ++ post) []))
    with (at_line_start flags_m (MState before [] [])).
  rewrite Hbol.
  assert (Hsp' : sp <> []) by (intros ->; discriminate).
  assert (Htext : text <> []) by (intros ->; discriminate).
  apply (match_group_bounded flags_m 1 (RChar 35)
           (fun x => (canon flags_m x =? canon flags_m 35)%N) 1 6 _ _
           hashes (sp ++ text ++ post) _ _ eq_refl).
  - rewrite <- Hh. apply forallb_same. intros x. cbn. apply N.eqb_sym.
  - destruct sp as [|c sp']; [contradiction|]. cbn [app forallb] in *.
    apply andb_prop in Ssp. destruct Ssp as [Sc _].
    cbn. destruct (N.eqb_spec c 35) as [->|_]; [discriminate | reflexivity].
  - exact Hn1.
  - exact Hn6.
  - apply (match_plus_to flags_m (RSet false [CSpace])
             (fun y => xorb false (in_items flags_m [CSpace] y)) _ _ sp
             (text ++ post) _ _ eq_refl Hsp' (space_class sp Ssp)
             (ink_stops_spaces text post Ht)).
    apply (match_group_plus_to flags_m 2 RDot
             (fun y => negb (is_line_terminator y)) _ _ text post _ _
             eq_refl Htext Lt (line_end_stops_dot post Hpost)).
    change (rmatch flags_m REol ?st ?k)
      with (if at_line_end flags_m st then k st else None).
    unfold at_line_end. cbn [rest].
    destruct post as [|x post']; [|cbn [line_ends_before] in Hpost; rewrite Hpost];
      reflexivity.
Qed.

Lemma heading_first_unit before after st :
  match_at (pattern p_heading) before after = Some st ->
  exists t, after = 35%N :: t.
Proof.
  unfold match_at. intros H.
  destruct (rmatch_sound _ _ _ _ _ H) as (st1 & M & _).
  change (source (pattern p_heading))
    with (RSeq RBol
            (RSeq (RGroup 1 (RRep (RChar 35) 1 (Some 6) true))
               (RSeq (plus (RSet false [CSpace]))
                  (RSeq (RGroup 2 (plus RDot)) REol)))) in M.
  inversion M as [| | | |? ? ? s1 ? M1 M2| | | | | | | | |]; subst.
  inversion M1; subst.
  inversion M2 as [| | | |? ? ? s2 ? M3 M4| | | | | | | | |]; subst.
  inversion M3 as [| | | | | | | | |? ? ? ? M5| | | |]; subst.
  inversion M5 as [| | | | | | |? ? ? ? ? Hstop|? ? ? ? ? s3 ? M6 M7| | | | |]; subst.
  - destruct Hstop; discriminate.
  - inversion M6 as [|? x ? t ? Hx| | | | | | | | | | | |]; subst.
    cbn in Hx. apply N.eqb_eq in Hx. subst x. eexists. reflexivity.
Qed.

Lemma line_start_state (front : jstring) :
  line_starts_after front = true ->
  at_line_start flags_m (MState (rev front ++ []) [] []) = true.
Proof.
  unfold line_starts_after, at_line_start. cbn [pre]. rewrite app_nil_r.
  destruct (rev front); [reflexivity | intros ->; reflexivity].
Qed.

(** X29.  A heading line: one to six [#], white space, and a text of one
    line that starts with a unit that is not white space, at the start of
    a line and up to the end of the line, between two texts without [#].
    It becomes the heading element of the level that the number of [#]
    gives, with the id made of the text and the trimmed text in it; the
    texts around it stay as they are. *)
Theorem parseHeadings_heading :
  forall (before hashes space text after : jstring) (this : ColParser),
    free_of (lit "#") before = true -> line_starts_after before = true ->
    forallb (N.eqb 35) hashes = true ->
    (1 <=? length hashes) && (length hashes <=? 6) = true ->
    nonempty space = true -> forallb is_space space = true ->
    starts_with_ink text = true ->
    forallb (fun c => negb (is_line_terminator c)) text = true ->
    line_ends_before after = true -> free_of (lit "#") after = true ->
    fst (parseHeadings (before ++ hashes ++ space ++ text ++ after) this)
    = Normal (before ++ lit "<h" ++ dec (length hashes) ++ lit " id=\q"
                ++ heading_id text ++ lit "\q class=\qblog-heading\q>"
                ++ trim text ++ lit "</h" ++ dec (length hashes) ++ lit ">"
                ++ after).
Proof.
  intros front hashes sp text back this Hfront Lfront Hh Hn Hsp Ssp Ht Lt
         Lback Hback.
  unfold parseHeadings, replace_pattern. cbn [fst]. f_equal.
  unfold replace_all.
  rewrite (replace_scan_prefix (pattern p_heading) _ 35%N heading_first_unit
             front [] _ Hfront).
  f_equal.
  pose proof (match_at_heading (rev front ++ []) hashes sp text back
                (line_start_state front Lfront) Hh Hn Hsp Ssp Ht Lt Lback) as M.
  destruct hashes as [|h hs]; [discriminate|].
  assert (h = 35%N) as ->.
  { cbn [forallb] in Hh. apply andb_prop in Hh. destruct Hh as [Hh _].
    apply N.eqb_eq in Hh. symmetry. exact Hh. }
  cbn [app] in M |- *.
  rewrite (app_assoc sp text back), (app_assoc hs (sp ++ text) back) in M.
  rewrite (app_assoc sp text back), (app_assoc hs (sp ++ text) back).
  rewrite (replace_scan_at (pattern p_heading) _ _ 35%N (hs ++ sp ++ text) back
             _ M eq_refl).
  rewrite (proj1 (scan_no_match (pattern p_heading) _ back _
                    (needs_no_match (pattern p_heading) (lit "#") back
                       eq_refl Hback))).
  unfold group, heading_id. cbn [m_groups caps lookup_cap Nat.eqb].
  rewrite <- !app_assoc. reflexivity.
Qed.

Lemma parseHeadings_heading_witness :
  fst (parseHeadings (lit "intro\n##  Hello, World! \nmore") new_ColParser)
  = Normal (lit "intro\n<h2 id=\qhello-world\q class=\qblog-heading\q>Hello, World!</h2>\nmore").
Proof.
  exact (parseHeadings_heading (lit "intro\n") (lit "##") (lit "  ")
           (lit "Hello, World! ") (lit "\nmore") new_ColParser
           eq_refl eq_refl eq_refl eq_refl eq_refl eq_refl eq_refl eq_refl
           eq_refl eq_refl).
Defined.

Lemma match_unit_m (c : char) (k : cont) before t cs :
  rmatch flags_m (RChar c) (MState before (c :: t) cs) k
  = k (MState (c :: before) t cs).
Proof.
  cbn [rmatch]. rewrite step_char_cons. cbn. rewrite N.eqb_refl. reflexivity.
Qed.

Lemma lang_literal_m (l x : jstring) :
  l <> [] -> lang flags_m (rseq (map RChar l)) x -> x = l.
Proof.
  intros Hl. revert x. induction l as [|c [|c' t] IH]; intros x H;
    [contradiction | |].
  - cbn in H. destruct H as (y & -> & Hy). apply N.eqb_eq in Hy. congruence.
  - change (rseq (map RChar (c :: c' :: t)))
      with (RSeq (RChar c) (rseq (map RChar (c' :: t)))) in H.
    cbn [lang] in H. destruct H as (x1 & x2 & -> & (y & -> & Hy) & H2).
    cbn in Hy. apply N.eqb_eq in Hy. subst y.
    rewrite (IH ltac:(discriminate) x2 H2). reflexivity.
Qed.

Lemma blockquote_first_unit before after st :
  match_at (pattern p_blockquote) before after = Some st ->
  exists t, after = 62%N :: t.
Proof.
  intros H. destruct (match_at_lang _ _ _ _ H) as (x & -> & L).
  change (source (pattern p_blockquote))
    with (RSeq RBol (RSeq (rlit ">")
            (rseq [plus rspace; RGroup 1 (plus RDot); REol]))) in L.
  change (reflags (pattern p_blockquote)) with flags_m in L.
  cbn [lang] in L. destruct L as (x0 & x1 & -> & -> & x2 & x3 & -> & L2 & _).
  apply (lang_literal_m (lit ">")) in L2; [|discriminate]. subst x2.
  eexists. reflexivity.
Qed.

Lemma horizontalRule_needs_three before after st :
  match_at (pattern p_horizontalRule) before after = Some st ->
  3 <= count_unit 45 after.
Proof.
  intros H. destruct (match_at_lang _ _ _ _ H) as (x & -> & L).
  change (source (pattern p_horizontalRule))
    with (RSeq RBol (RSeq (rlit "---") REol)) in L.
  change (reflags (pattern p_horizontalRule)) with flags_m in L.
  cbn [lang] in L. destruct L as (x0 & x1 & -> & -> & x2 & x3 & -> & L2 & _).
  apply (lang_literal_m (lit "---")) in L2; [|discriminate]. subst x2.
  rewrite !count_unit_app. change (count_unit 45 (lit "---")) with 3. lia.
Qed.

Lemma match_at_blockquote before (sp text post : jstring) :
  at_line_start flags_m (MState before [] []) = true ->
  nonempty sp = true -> forallb is_space sp = true ->
  starts_with_ink text = true ->
  forallb (fun c => negb (is_line_terminator c)) text = true ->
  line_ends_before post = true ->
  match_at (pattern p_blockquote) before (62%N :: sp ++ text ++ post)
  = Some (MState (rev text ++ rev sp ++ 62%N :: before) post [(1, text)]).
Proof.
  intros Hbol Hsp Ssp Ht Lt Hpost. unfold match_at.
  change (source (pattern p_blockquote))
    with (RSeq RBol
            (RSeq (RChar 62)
               (RSeq (plus (RSet false [CSpace]))
                  (RSeq (RGroup 1 (plus RDot)) REol)))).
  change (reflags (pattern p_blockquote)) with flags_m.
  repeat change (rmatch flags_m (RSeq ?a ?b) ?st ?k)
    with (rmatch flags_m a st (fun st' => rmatch flags_m b st' k)).
  change (rmatch flags_m RBol ?st ?k)
    with (if at_line_start flags_m st then k st else None).
  change (at_line_start flags_m (MState before (62%N :: sp ++ text ++ post) []))
    with (at_line_start flags_m (MState before [] [])).
  rewrite Hbol, match_unit_m.
  assert (Hsp' : sp <> []) by (intros ->; discriminate).
  assert (Htext : text <> []) by (intros ->; discriminate).
  apply (match_plus_to flags_m (RSet false [CSpace])
           (fun y => xorb false (in_items flags_m [CSpace] y)) _ _ sp
           (text ++ post) _ _ eq_refl Hsp' (space_class sp Ssp)
           (ink_stops_spaces text post Ht)).
  apply (match_group_plus_to flags_m 1 RDot
           (fun y => negb (is_line_terminator y)) _ _ text post _ _
           eq_refl Htext Lt (line_end_stops_dot post Hpost)).
  change (rmatch flags_m REol ?st ?k)
    with (if at_line_end flags_m st then k st else None).
  unfold at_line_end. cbn [rest].
  destruct post as [|x post']; [|cbn [line_ends_before] in Hpost; rewrite Hpost];
    reflexivity.
Qed.

(** X30.  A block quote line: [>], white space, and a text of one line
    without a hyphen that starts with a unit that is not white space, at
    the start of a line and up to the end of the line, between two texts
    without [>] and without a hyphen.  It becomes a [blockquote] element
    around the text, no rule is made of it, and the texts around it stay
    as they are. *)
Theorem parseBlockElements_blockquote :
  forall (before space text after : jstring) (this : ColParser),
    free_of (lit ">-") before = true -> line_starts_after before = true ->
    nonempty space = true -> forallb is_space space = true ->
    starts_with_ink text = true ->
    forallb (fun c => negb (is_line_terminator c)) text = true ->
    free_of (lit "-") text = true ->
    line_ends_before after = true -> free_of (lit ">-") after = true ->
    fst (parseBlockElements (before ++ lit ">" ++ space ++ text ++ after) this)
    = Normal (before ++ lit "<blockquote class=\qblog-blockquote\q>" ++ text
                ++ lit "</blockquote>" ++ after).
Proof.
  intros front sp text back this Hfront Lfront Hsp Ssp Ht Lt Ft Lback Hback.
  unfold parseBlockElements, bind, replace_pattern, ret. cbn [fst]. f_equal.
  assert (B : replace_all (pattern p_blockquote)
                (fun m => lit "<blockquote class=\qblog-blockquote\q>"
                            ++ group m 1 ++ lit "</blockquote>")
                (front ++ lit ">" ++ sp ++ text ++ back)
              = front ++ lit "<blockquote class=\qblog-blockquote\q>" ++ text
                  ++ lit "</blockquote>" ++ back).
  { unfold replace_all.
    rewrite (replace_scan_prefix (pattern p_blockquote) _ 62%N
               blockquote_first_unit front [] _
               (free_of_fewer (lit ">") (lit ">-") front eq_refl Hfront)).
    f_equal.
    pose proof (match_at_blockquote (rev front ++ []) sp text back
                  (line_start_state front Lfront) Hsp Ssp Ht Lt Lback) as M.
    rewrite (app_assoc sp text back) in M.
    change (lit ">" ++ sp ++ text ++ back) with (62%N :: sp ++ text ++ back).
    rewrite (app_assoc sp text back).
    rewrite (replace_scan_at (pattern p_blockquote) _ _ 62%N (sp ++ text) back
               _ M eq_refl).
    rewrite (proj1 (scan_no_match (pattern p_blockquote) _ back _
                      (needs_no_match (pattern p_blockquote) (lit ">") back eq_refl
                         (free_of_fewer (lit ">") (lit ">-") back eq_refl Hback)))).
    unfold group. cbn [m_groups caps lookup_cap Nat.eqb].
    rewrite <- !app_assoc. reflexivity. }
  rewrite B.
  set (s := front ++ lit "<blockquote class=\qblog-blockquote\q>" ++ text
              ++ lit "</blockquote>" ++ back).
  assert (Hcount : count_unit 45 s = 1).
  { unfold s. rewrite !count_unit_app.
    rewrite (count_unit_free 45%N front
               (free_of_fewer (lit "-") (lit ">-") front eq_refl Hfront)),
      (count_unit_free 45%N text Ft),
      (count_unit_free 45%N back
         (free_of_fewer (lit "-") (lit ">-") back eq_refl Hback)).
    reflexivity. }
  apply (replace_all_no_match (pattern p_horizontalRule)).
  intros k b.
  destruct (match_at (pattern p_horizontalRule) b (skipn k s)) eqn:E;
    [exfalso | reflexivity].
  pose proof (horizontalRule_needs_three _ _ _ E) as C.
  pose proof (count_unit_skipn 45%N s k). lia.
Qed.

Lemma parseBlockElements_blockquote_witness :
  fst (parseBlockElements (lit "he said:\n>  to be > not to be\nand left") new_ColParser)
  = Normal (lit "he said:\n<blockquote class=\qblog-blockquote\q>to be > not to be</blockquote>\nand left").
Proof.
  exact (parseBlockElements_blockquote (lit "he said:\n") (lit "  ")
           (lit "to be > not to be") (lit "\nand left") new_ColParser
           eq_refl eq_refl eq_refl eq_refl eq_refl eq_refl eq_refl eq_refl eq_refl).
Defined.

End Lines.
